(** * The parallel job dispatcher of the model-factory notebook

    The notebook trains several DataRobot projects in parallel:

<<
    def thread_function(project, start_time):
        print(f"Start training of project '{project.project_name}'...\n")
        project.analyze_and_model(...)
        project.wait_for_autopilot(check_interval=60)
        return datetime.datetime.now() - start_time

    with f.ThreadPoolExecutor(max_workers=THREAD_POOL_WORKERS) as executor:
        allFutures = {
            executor.submit(thread_function, pr, datetime.datetime.now()): pr
            for pr in project_list
        }
        for future in f.as_completed(allFutures):
            pr = allFutures[future]
            try:
                elapsed_time = future.result()
            except Exception as exc:
                print(f"Training of project '{pr.project_name}' generated an exception: {exc}")
            else:
                print(f"Training of project '{pr.project_name}' finished in {elapsed_time}")
>>

    The cell is embedded as a transition system.  A state holds the main
    thread's program point, the executor (worker threads, idle semaphore,
    work queue, shutdown flag), the Future objects, the [allFutures]
    dictionary, the waiter installed by [as_completed], the console, and a
    timeline of instrumented events.  A schedule is a list of actions; each
    action lets the clock, the main thread or one worker take one atomic
    step.  An action that is not enabled leaves the state as it is.

    A unit of work is blocked either in analyze_and_model or in
    wait_for_autopilot; what thread_function does between two blocking
    calls is one atomic step, and time passes only through clock ticks.
    ThreadPoolExecutor and as_completed behave as in CPython 3.8, the
    version of the notebook's kernel.  The console of the model holds the
    lines that the notebook's own code prints; what the DataRobot client
    prints while a remote call is pending is left out.

    Two smaller cells of the other notebooks are embedded as functions
    into a sum with the exceptions they can raise: the choice of the top
    model in the synthetic-data notebook (module [TopModel]) and the loop
    that gathers the article text in the RSS-feed notebook (module
    [Article]). *)

From Stdlib Require Import ZArith Lia.
From stdpp Require Import base list gmap strings pretty sorting.

Local Open Scope Z_scope.

(** ** Data *)

(** An instance of [Exception] raised by a remote call; the errors of the
    DataRobot client (ClientError, AsyncTimeoutError, ...) all derive from
    [Exception]. *)
Record exc := Exc { exc_class : string; exc_message : string }.

(** What a remote call does once it is over. *)
Inductive outcome :=
| Returns
| Raises (e : exc).

(** A project (the job): its name and the behaviour of the two remote
    calls [thread_function] makes on it. *)
Record Project := {
  project_name : string;
  analyze_and_model : outcome;
  wait_for_autopilot : outcome
}.

(** [future.result()]: the value [thread_function] returned (a timedelta,
    counted in clock ticks) or the exception it raised. *)
Inductive result :=
| Elapsed (elapsed_time : Z)
| Raised (e : exc).

(** Where a running unit is blocked. *)
Inductive upc :=
| InStart   (* inside project.analyze_and_model *)
| InWait.   (* inside project.wait_for_autopilot *)

(** State of a Future, as in concurrent.futures. *)
Inductive fstate :=
| PENDING
| RUNNING (pc : upc)
| FINISHED (r : result).

(** A Future together with the arguments of its work item. *)
Record future := {
  fut_project : Project;
  fut_start_time : Z;
  fut_state : fstate
}.

(** A worker thread of the executor. *)
Inductive wstate :=
| WIdle              (* blocked in work_queue.get *)
| WRun (f : nat)     (* running the work item of future f *)
| WExited.

(** Lines that the notebook's own code writes to the console. *)
Inductive line :=
| StartLine (name : string)
    (* Start training of project '{name}'... *)
| FinishedLine (name : string) (elapsed_time : Z)
    (* Training of project '{name}' finished in {elapsed_time} *)
| ExceptionLine (name : string) (e : exc).
    (* Training of project '{name}' generated an exception: {exc} *)

(** An exception that leaves the [with] statement. *)
Inductive main_exc :=
| ValueError (msg : string)   (* ThreadPoolExecutor.__init__ *)
| KeyError (f : nat)          (* allFutures[future] *)
| Unexpected.                 (* anything else raised in the main thread *)

(** Program point of the main thread. *)
Inductive mstate :=
| MSubmit (rest : list Project)
    (* in the dict comprehension, [rest] still to submit *)
| MCollect (finished pending : gset nat)
    (* in the for loop; the two sets are as_completed's locals *)
| MJoin (e : option main_exc)
    (* in executor.__exit__: shutdown(wait=True) is joining the workers *)
| MDone (e : option main_exc).
    (* the cell is over: returned ([None]) or raised *)

(** Instrumentation: what happened, in order, with the clock reading. *)
Inductive event :=
| EvSubmit (f : nat)             (* executor.submit created future f *)
| EvStart (f : nat)              (* analyze_and_model invoked *)
| EvWait (f : nat)               (* wait_for_autopilot invoked *)
| EvDone (f : nat) (r : result)  (* set_result / set_exception *)
| EvIter.                        (* as_completed took its snapshot *)

(** The state of the cell.  Futures are named by the order of their
    creation: future [f] is the element [f] of [futures].  [collected] keeps
    the loop's variables [future], [pr] and the outcome of
    [future.result()] for every iteration so far.  [stdout] holds the
    lines that the cell and thread_function print, in the order they are
    printed; the progress lines that the DataRobot client writes to the
    same console while wait_for_autopilot polls are not recorded. *)
Record state := {
  now : Z;
  main : mstate;
  threads : list wstate;
  idle_semaphore : nat;
  work_queue : list nat;
  shutdown : bool;
  futures : list future;
  allFutures : gmap nat Project;
  waiter : option (list nat);
  stdout : list line;
  collected : list (nat * Project * result);
  log : list (Z * event)
}.

(** What the scheduler lets happen next.  [pick] is the future that
    as_completed yields next while it goes through the set of futures it
    found finished.  [Fault] stands for an exception that is raised in the
    main thread and that the loop does not handle (a failing print, an
    interrupt of the kernel), be it in the body of the [with] or while
    executor.__exit__ joins the workers. *)
Inductive action :=
| Tick                 (* time passes *)
| Main (pick : nat)    (* the main thread takes a step *)
| Worker (i : nat)     (* worker thread i takes a step *)
| Fault.               (* the main thread raises unexpectedly *)

(** ** Small helpers *)

Definition is_finished (fs : list future) (f : nat) : bool :=
  match fs !! f with
  | Some {| fut_state := FINISHED _ |} => true
  | _ => false
  end.

Definition set_fstate (f : nat) (st : fstate) (fs : list future) : list future :=
  match fs !! f with
  | Some fu =>
      <[f := {| fut_project := fut_project fu;
                fut_start_time := fut_start_time fu;
                fut_state := st |}]> fs
  | None => fs
  end.

Definition is_exited (w : wstate) : bool :=
  match w with WExited => true | _ => false end.

Definition is_summary (l : line) : bool :=
  match l with StartLine _ => false | _ => true end.

(** The line the loop body prints for project [pr] and outcome [r]. *)
Definition summary (pr : Project) (r : result) : line :=
  match r with
  | Elapsed elapsed_time => FinishedLine (project_name pr) elapsed_time
  | Raised e => ExceptionLine (project_name pr) e
  end.

(** ** The executor *)

Section Cell.

Variable THREAD_POOL_WORKERS : Z.
Variable project_list : list Project.

(** [ThreadPoolExecutor(max_workers=...)] raises ValueError unless
    max_workers is positive; otherwise the body of the [with] starts. *)
Definition init : state :=
  {| now := 0;
     main := if THREAD_POOL_WORKERS <=? 0
             then MDone (Some (ValueError "max_workers must be greater than 0"))
             else MSubmit project_list;
     threads := [];
     idle_semaphore := 0;
     work_queue := [];
     shutdown := false;
     futures := [];
     allFutures := ∅;
     waiter := None;
     stdout := [];
     collected := [];
     log := [] |}.

(** [executor.submit(thread_function, pr, datetime.datetime.now())] and the
    insertion of the new future into [allFutures].  The start time is read
    from the clock here, by the submitting thread.  _adjust_thread_count
    starts a new worker unless an idle one is available or max_workers
    threads exist already. *)
Definition submit (pr : Project) (rest : list Project) (s : state) : state :=
  let f := length (futures s) in
  let start_time := now s in
  let spawn :=
    match idle_semaphore s with
    | O => Z.of_nat (length (threads s)) <? THREAD_POOL_WORKERS
    | S _ => false
    end in
  {| now := now s;
     main := MSubmit rest;
     threads := if spawn then threads s ++ [WIdle] else threads s;
     idle_semaphore := Nat.pred (idle_semaphore s);
     work_queue := work_queue s ++ [f];
     shutdown := shutdown s;
     futures := futures s ++ [{| fut_project := pr;
                                 fut_start_time := start_time;
                                 fut_state := PENDING |}];
     allFutures := <[f := pr]> (allFutures s);
     waiter := waiter s;
     stdout := stdout s;
     collected := collected s;
     log := log s ++ [(now s, EvSubmit f)] |}.

(** First step of [as_completed(allFutures)]: the futures already finished
    are set aside, a waiter is installed on all of them. *)
Definition as_completed (s : state) : state :=
  let fs := dom (allFutures s) in
  let finished := filter (λ f, is_finished (futures s) f = true) fs in
  {| now := now s;
     main := MCollect finished (fs ∖ finished);
     threads := threads s;
     idle_semaphore := idle_semaphore s;
     work_queue := work_queue s;
     shutdown := shutdown s;
     futures := futures s;
     allFutures := allFutures s;
     waiter := Some [];
     stdout := stdout s;
     collected := collected s;
     log := log s ++ [(now s, EvIter)] |}.

(** Leaving the [with] body: shutdown(wait=True) sets the flag and starts
    joining; [e] is the exception in flight, if any. *)
Definition exit_with (e : option main_exc) (s : state) : state :=
  {| now := now s;
     main := MJoin e;
     threads := threads s;
     idle_semaphore := idle_semaphore s;
     work_queue := work_queue s;
     shutdown := true;
     futures := futures s;
     allFutures := allFutures s;
     waiter := waiter s;
     stdout := stdout s;
     collected := collected s;
     log := log s |}.

(** The loop body once [pr = allFutures[future]] is bound and
    [future.result()] has delivered [r] (a value or an exception, which
    [except Exception] catches): one line is printed.  [finished'],
    [pending'] and [waiter'] are as_completed's locals after the yield. *)
Definition report (f : nat) (pr : Project) (r : result)
    (finished' pending' : gset nat) (waiter' : option (list nat))
    (s : state) : state :=
  {| now := now s;
     main := MCollect finished' pending';
     threads := threads s;
     idle_semaphore := idle_semaphore s;
     work_queue := work_queue s;
     shutdown := shutdown s;
     futures := futures s;
     allFutures := allFutures s;
     waiter := waiter';
     stdout := stdout s ++ [summary pr r];
     collected := collected s ++ [(f, pr, r)];
     log := log s |}.

(** One iteration of the for loop on the future [f] that as_completed
    yielded. *)
Definition loop_body (f : nat) (finished' pending' : gset nat)
    (waiter' : option (list nat)) (s : state) : state :=
  match allFutures s !! f with
  | None => exit_with (Some (KeyError f)) s
  | Some pr =>
      match futures s !! f with
      | Some {| fut_state := FINISHED r |} =>
          report f pr r finished' pending' waiter' s
      | _ => s   (* future.result() blocks *)
      end
  end.

Definition all_exited (s : state) : bool := forallb is_exited (threads s).

Definition join (e : option main_exc) (s : state) : state :=
  {| now := now s;
     main := MDone e;
     threads := threads s;
     idle_semaphore := idle_semaphore s;
     work_queue := work_queue s;
     shutdown := shutdown s;
     futures := futures s;
     allFutures := allFutures s;
     waiter := waiter s;
     stdout := stdout s;
     collected := collected s;
     log := log s |}.

(** A step of the main thread.  [pick] matters only while as_completed
    yields the futures it found finished at its first step: they sit in a
    set, whose iteration order is not specified. *)
Definition main_step (pick : nat) (s : state) : state :=
  match main s with
  | MSubmit (pr :: rest) => submit pr rest s
  | MSubmit [] => as_completed s
  | MCollect finished pending =>
      if bool_decide (finished = ∅) then
        if bool_decide (pending = ∅) then exit_with None s
        else
          match waiter s with
          | Some (f :: fs) => loop_body f finished (pending ∖ {[f]}) (Some fs) s
          | _ => s   (* waiter.event.wait() blocks *)
          end
      else if bool_decide (pick ∈ finished)
      then loop_body pick (finished ∖ {[pick]}) pending (waiter s) s
      else s
  | MJoin e => if all_exited s then join e s else s
  | MDone _ => s
  end.

(** An unexpected exception in the main thread.  Raised inside the body of
    the [with], it is handed to executor.__exit__, which shuts the pool
    down and joins the workers before the exception goes on.  Raised while
    __exit__ is joining (Thread.join can be interrupted), it leaves
    __exit__ and the cell at once, in place of the exception in flight;
    the worker threads go on in the background. *)
Definition fail_step (s : state) : state :=
  match main s with
  | MSubmit _ | MCollect _ _ => exit_with (Some Unexpected) s
  | MJoin _ => join (Some Unexpected) s
  | MDone _ => s
  end.

(** Worker [i] takes the next work item: work_queue.get, set_running, then
    thread_function prints its first line and calls analyze_and_model.
    The four are one step of the model.  In CPython the steps of other
    workers can come in between, so that the prints and the calls of
    different workers need not follow the order in which the work items
    left the queue: in the model the order of the [EvStart] events and of
    the start lines is always that of the dequeues.  What is stated about
    the program does not rest on this order. *)
Definition take (i f : nat) (q : list nat) (s : state) : state :=
  match futures s !! f with
  | Some fu =>
      {| now := now s;
         main := main s;
         threads := <[i := WRun f]> (threads s);
         idle_semaphore := idle_semaphore s;
         work_queue := q;
         shutdown := shutdown s;
         futures := set_fstate f (RUNNING InStart) (futures s);
         allFutures := allFutures s;
         waiter := waiter s;
         stdout := stdout s ++ [StartLine (project_name (fut_project fu))];
         collected := collected s;
         log := log s ++ [(now s, EvStart f)] |}
  | None => s
  end.

(** analyze_and_model returned: thread_function calls wait_for_autopilot. *)
Definition enter_wait (f : nat) (s : state) : state :=
  {| now := now s;
     main := main s;
     threads := threads s;
     idle_semaphore := idle_semaphore s;
     work_queue := work_queue s;
     shutdown := shutdown s;
     futures := set_fstate f (RUNNING InWait) (futures s);
     allFutures := allFutures s;
     waiter := waiter s;
     stdout := stdout s;
     collected := collected s;
     log := log s ++ [(now s, EvWait f)] |}.

(** The work item is over: set_result or set_exception stores [r], the
    waiter (if installed) is told, the worker releases the idle semaphore
    and goes back to the queue. *)
Definition finish (i f : nat) (r : result) (s : state) : state :=
  {| now := now s;
     main := main s;
     threads := <[i := WIdle]> (threads s);
     idle_semaphore := S (idle_semaphore s);
     work_queue := work_queue s;
     shutdown := shutdown s;
     futures := set_fstate f (FINISHED r) (futures s);
     allFutures := allFutures s;
     waiter := (λ l, l ++ [f]) <$> waiter s;
     stdout := stdout s;
     collected := collected s;
     log := log s ++ [(now s, EvDone f r)] |}.

(** thread_function from the point where it is blocked. *)
Definition thread_function (i f : nat) (fu : future) (pc : upc) (s : state) : state :=
  match pc with
  | InStart =>
      match analyze_and_model (fut_project fu) with
      | Returns => enter_wait f s
      | Raises e => finish i f (Raised e) s
      end
  | InWait =>
      match wait_for_autopilot (fut_project fu) with
      | Returns => finish i f (Elapsed (now s - fut_start_time fu)) s
      | Raises e => finish i f (Raised e) s
      end
  end.

Definition exit_worker (i : nat) (s : state) : state :=
  {| now := now s;
     main := main s;
     threads := <[i := WExited]> (threads s);
     idle_semaphore := idle_semaphore s;
     work_queue := work_queue s;
     shutdown := shutdown s;
     futures := futures s;
     allFutures := allFutures s;
     waiter := waiter s;
     stdout := stdout s;
     collected := collected s;
     log := log s |}.

Definition worker_step (i : nat) (s : state) : state :=
  match threads s !! i with
  | Some WIdle =>
      match work_queue s with
      | f :: q => take i f q s
      | [] => if shutdown s then exit_worker i s else s
      end
  | Some (WRun f) =>
      match futures s !! f with
      | Some fu =>
          match fut_state fu with
          | RUNNING pc => thread_function i f fu pc s
          | _ => s
          end
      | None => s
      end
  | _ => s
  end.

Definition tick (s : state) : state :=
  {| now := now s + 1;
     main := main s;
     threads := threads s;
     idle_semaphore := idle_semaphore s;
     work_queue := work_queue s;
     shutdown := shutdown s;
     futures := futures s;
     allFutures := allFutures s;
     waiter := waiter s;
     stdout := stdout s;
     collected := collected s;
     log := log s |}.

Definition step (a : action) (s : state) : state :=
  match a with
  | Tick => tick s
  | Main pick => main_step pick s
  | Worker i => worker_step i s
  | Fault => fail_step s
  end.

(** The state after a schedule. *)
Definition run_from (s : state) (acts : list action) : state :=
  fold_left (λ s a, step a s) acts s.

Definition run (acts : list action) : state := run_from init acts.

End Cell.

(** ** Transitions *)

(** How a unit blocked at [pc] comes to its end at time [t]. *)
Inductive ends (fu : future) (t : Z) : upc → result → Prop :=
| ends_start_raises e :
    analyze_and_model (fut_project fu) = Raises e →
    ends fu t InStart (Raised e)
| ends_wait_raises e :
    wait_for_autopilot (fut_project fu) = Raises e →
    ends fu t InWait (Raised e)
| ends_wait_returns :
    wait_for_autopilot (fut_project fu) = Returns →
    ends fu t InWait (Elapsed (t - fut_start_time fu)).

(** The main thread is inside the body of the [with]. *)
Definition in_body (m : mstate) : Prop :=
  match m with MSubmit _ | MCollect _ _ => True | _ => False end.

(** The transitions of the cell, one constructor per enabled step. *)
Inductive trans (W : Z) (s : state) : state → Prop :=
| T_tick : trans W s (tick s)
| T_submit pr rest :
    main s = MSubmit (pr :: rest) → trans W s (submit W pr rest s)
| T_iter :
    main s = MSubmit [] → trans W s (as_completed s)
| T_end :
    main s = MCollect ∅ ∅ → trans W s (exit_with None s)
| T_fail :
    in_body (main s) → trans W s (exit_with (Some Unexpected) s)
| T_keyerror f finished pending :
    main s = MCollect finished pending →
    allFutures s !! f = None →
    f ∈ finished ∨ (∃ fs, waiter s = Some (f :: fs)) →
    trans W s (exit_with (Some (KeyError f)) s)
| T_report_finished f pr fu r finished pending :
    main s = MCollect finished pending →
    f ∈ finished →
    allFutures s !! f = Some pr →
    futures s !! f = Some fu →
    fut_state fu = FINISHED r →
    trans W s (report f pr r (finished ∖ {[f]}) pending (waiter s) s)
| T_report_waited f pr fu r pending fs :
    main s = MCollect ∅ pending →
    pending ≠ ∅ →
    waiter s = Some (f :: fs) →
    allFutures s !! f = Some pr →
    futures s !! f = Some fu →
    fut_state fu = FINISHED r →
    trans W s (report f pr r ∅ (pending ∖ {[f]}) (Some fs) s)
| T_join e :
    main s = MJoin e → all_exited s = true → trans W s (join e s)
| T_take i f q fu :
    threads s !! i = Some WIdle →
    work_queue s = f :: q →
    futures s !! f = Some fu →
    trans W s (take i f q s)
| T_exit_worker i :
    threads s !! i = Some WIdle →
    work_queue s = [] →
    shutdown s = true →
    trans W s (exit_worker i s)
| T_enter_wait i f fu :
    threads s !! i = Some (WRun f) →
    futures s !! f = Some fu →
    fut_state fu = RUNNING InStart →
    analyze_and_model (fut_project fu) = Returns →
    trans W s (enter_wait f s)
| T_finish i f fu pc r :
    threads s !! i = Some (WRun f) →
    futures s !! f = Some fu →
    fut_state fu = RUNNING pc →
    ends fu (now s) pc r →
    trans W s (finish i f r s)
| T_interrupt e :
    main s = MJoin e → trans W s (join (Some Unexpected) s).

(** ** Invariants *)

Definition fstate_of (fs : list future) (f : nat) : option fstate :=
  fut_state <$> fs !! f.

Definition all_submitted (project_list : list Project) (s : state) : Prop :=
  map fut_project (futures s) = project_list.

(** Submission and the dictionary. *)
Record inv_submit (W : Z) (project_list : list Project) (s : state) : Prop := {
  iA_main :
    match main s with
    | MSubmit rest =>
        project_list = map fut_project (futures s) ++ rest ∧ 0 < W
    | MCollect _ _ | MJoin None | MDone None => all_submitted project_list s
    | _ => True
    end;
  iA_prefix : map fut_project (futures s) `prefix_of` project_list;
  iA_dict : ∀ f, allFutures s !! f = map fut_project (futures s) !! f
}.

(** The executor: queue, workers and the states of the futures. *)
Record inv_pool (W : Z) (s : state) : Prop := {
  iB_nodup : NoDup (work_queue s);
  iB_queue : ∀ f, f ∈ work_queue s ↔ fstate_of (futures s) f = Some PENDING;
  iB_run : ∀ i f, threads s !! i = Some (WRun f) →
                  ∃ pc, fstate_of (futures s) f = Some (RUNNING pc);
  iB_run_inv : ∀ f pc, fstate_of (futures s) f = Some (RUNNING pc) →
                       ∃ i, threads s !! i = Some (WRun f);
  iB_inj : ∀ i j f, threads s !! i = Some (WRun f) →
                    threads s !! j = Some (WRun f) → i = j;
  iB_bound : Z.of_nat (length (threads s)) ≤ Z.max 0 W;
  iB_exited : ∀ i, threads s !! i = Some WExited →
                   shutdown s = true ∧ work_queue s = [];
  iB_shutdown :
    match main s with
    | MSubmit _ | MCollect _ _ => shutdown s = false
    | MJoin _ => shutdown s = true
    | MDone None => all_exited s = true
    | MDone (Some _) => True
    end;
  iB_nothreads : threads s = [] → futures s = [] ∧ idle_semaphore s = 0%nat
}.

(** The futures the loop has gone through, in order. *)
Definition collected_futures (s : state) : list nat :=
  map (λ x, x.1.1) (collected s).

(** What as_completed's locals hold while the loop runs. *)
Record collecting (s : state) (finished pending : gset nat) (fs : list nat)
    : Prop := {
  cl_nodup : NoDup fs;
  cl_waiter : ∀ f, f ∈ fs ↔ (f ∈ pending ∧ is_finished (futures s) f = true);
  cl_finished : ∀ f, f ∈ finished → is_finished (futures s) f = true;
  cl_disjoint : ∀ f, f ∈ finished → f ∉ pending;
  cl_collected : ∀ f, f ∈ collected_futures s → (f ∉ finished) ∧ (f ∉ pending);
  cl_cover : ∀ f, (f < length (futures s))%nat →
                  f ∈ finished ∨ f ∈ pending ∨ f ∈ collected_futures s;
  cl_range : ∀ f, f ∈ finished ∨ f ∈ pending → (f < length (futures s))%nat
}.

(** The collecting loop. *)
Record inv_collect (s : state) : Prop := {
  iC_main :
    match main s with
    | MSubmit _ => waiter s = None ∧ collected s = []
    | MCollect finished pending =>
        ∃ fs, waiter s = Some fs ∧ collecting s finished pending fs
    | MJoin None | MDone None =>
        ∀ f, (f < length (futures s))%nat → f ∈ collected_futures s
    | _ => True
    end;
  iC_nodup : NoDup (collected_futures s);
  iC_entries : ∀ f pr r, (f, pr, r) ∈ collected s →
    ∃ fu, futures s !! f = Some fu ∧ fut_project fu = pr ∧
          fut_state fu = FINISHED r;
  iC_stdout :
    filter (λ l, is_summary l = true) (stdout s) =
    map (λ x, summary x.1.2 x.2) (collected s)
}.

(** How many events of the timeline satisfy [p]. *)
Fixpoint count_ev (p : event → bool) (l : list (Z * event)) : nat :=
  match l with
  | [] => 0
  | x :: l => ((if p x.2 then 1 else 0) + count_ev p l)%nat
  end.

Definition is_start (f : nat) (ev : event) : bool :=
  match ev with EvStart g => bool_decide (g = f) | _ => false end.

Definition is_wait (f : nat) (ev : event) : bool :=
  match ev with EvWait g => bool_decide (g = f) | _ => false end.

Definition is_submit (f : nat) (ev : event) : bool :=
  match ev with EvSubmit g => bool_decide (g = f) | _ => false end.

Definition is_done (f : nat) (ev : event) : bool :=
  match ev with EvDone g _ => bool_decide (g = f) | _ => false end.

(** How often the remote calls of a future have been invoked, and how often
    it has been completed, as its state tells. *)
Definition expected_starts (fu : future) : nat :=
  match fut_state fu with PENDING => 0 | _ => 1 end.

Definition expected_waits (fu : future) : nat :=
  match fut_state fu with
  | PENDING | RUNNING InStart => 0
  | RUNNING InWait => 1
  | FINISHED _ =>
      match analyze_and_model (fut_project fu) with
      | Returns => 1
      | Raises _ => 0
      end
  end.

Definition expected_dones (fu : future) : nat :=
  match fut_state fu with FINISHED _ => 1 | _ => 0 end.

(** The outcome thread_function has on a project. *)
Definition result_of (pr : Project) (r : result) : Prop :=
  match analyze_and_model pr, wait_for_autopilot pr with
  | Raises e, _ => r = Raised e
  | Returns, Raises e => r = Raised e
  | Returns, Returns => ∃ d, r = Elapsed d
  end.

(** The clock readings of the timeline never go back. *)
Definition log_sorted (l : list (Z * event)) : Prop :=
  ∀ i j x y, (i ≤ j)%nat → l !! i = Some x → l !! j = Some y → x.1 ≤ y.1.

(** Every event has its cause earlier in the timeline. *)
Definition log_causal (l : list (Z * event)) : Prop :=
  ∀ j t ev, l !! j = Some (t, ev) →
    match ev with
    | EvStart f => ∃ i t', (i < j)%nat ∧ l !! i = Some (t', EvSubmit f)
    | EvWait f | EvDone f _ =>
        ∃ i t', (i < j)%nat ∧ l !! i = Some (t', EvStart f)
    | _ => True
    end.

(** The timeline and the futures. *)
Record inv_log (s : state) : Prop := {
  iD_time : ∀ x, x ∈ log s → x.1 ≤ now s;
  iD_sorted : log_sorted (log s);
  iD_causal : log_causal (log s);
  iD_submit : ∀ t f, (t, EvSubmit f) ∈ log s →
                     fut_start_time <$> futures s !! f = Some t;
  iD_submitted : ∀ f fu, futures s !! f = Some fu →
                         (fut_start_time fu, EvSubmit f) ∈ log s;
  iD_starts : ∀ f, count_ev (is_start f) (log s) =
                   from_option expected_starts 0%nat (futures s !! f);
  iD_waits : ∀ f, count_ev (is_wait f) (log s) =
                  from_option expected_waits 0%nat (futures s !! f);
  iD_dones : ∀ f, count_ev (is_done f) (log s) =
                  from_option expected_dones 0%nat (futures s !! f);
  iD_done : ∀ t f r, (t, EvDone f r) ∈ log s →
    ∃ fu, futures s !! f = Some fu ∧ fut_state fu = FINISHED r ∧
          ∀ d, r = Elapsed d → d = t - fut_start_time fu;
  iD_inwait : ∀ f fu, futures s !! f = Some fu →
    fut_state fu = RUNNING InWait →
    analyze_and_model (fut_project fu) = Returns;
  iD_result : ∀ f fu r, futures s !! f = Some fu →
    fut_state fu = FINISHED r → result_of (fut_project fu) r;
  iD_submits : ∀ f, count_ev (is_submit f) (log s) =
                    from_option (λ _, 1%nat) 0%nat (futures s !! f)
}.

Definition with_state (st : fstate) (fu : future) : future :=
  {| fut_project := fut_project fu;
     fut_start_time := fut_start_time fu;
     fut_state := st |}.

Definition is_iter (ev : event) : bool :=
  match ev with EvIter => true | _ => false end.

Definition has_iter (l : list (Z * event)) : bool :=
  existsb (λ x, is_iter x.2) l.

(** The timeline before as_completed's snapshot, and after it. *)
Fixpoint until_iter (l : list (Z * event)) : list (Z * event) :=
  match l with
  | [] => []
  | x :: l => if is_iter x.2 then [] else x :: until_iter l
  end.

Fixpoint from_iter (l : list (Z * event)) : list (Z * event) :=
  match l with
  | [] => []
  | x :: l => if is_iter x.2 then l else from_iter l
  end.

(** The futures in the order in which they were completed. *)
Definition done_of (x : Z * event) : option nat :=
  match x.2 with EvDone f _ => Some f | _ => None end.

Definition done_order (l : list (Z * event)) : list nat := omap done_of l.

(** The order of collection against the order of completion. *)
Record inv_order (s : state) : Prop := {
  iE_main :
    match main s with
    | MSubmit _ => has_iter (log s) = false
    | MCollect finished pending =>
        ∃ pre post fs,
          has_iter (log s) = true ∧
          waiter s = Some fs ∧
          collected_futures s = pre ++ post ∧
          (∀ f, f ∈ done_order (until_iter (log s)) ↔ (f ∈ pre ∨ f ∈ finished)) ∧
          post ++ fs = done_order (from_iter (log s)) ∧
          (finished ≠ ∅ → post = [])
    | MJoin None | MDone None =>
        ∃ pre post,
          has_iter (log s) = true ∧
          collected_futures s = pre ++ post ∧
          (∀ f, f ∈ done_order (until_iter (log s)) ↔ f ∈ pre) ∧
          post = done_order (from_iter (log s))
    | _ => True
    end
}.

Definition is_running (fu : future) : bool :=
  match fut_state fu with RUNNING _ => true | _ => false end.

Definition is_busy (w : wstate) : bool :=
  match w with WRun _ => true | _ => false end.

(** Number of futures whose unit has begun and is not over. *)
Definition running_futures (s : state) : nat :=
  length (filter (λ fu, is_running fu = true) (futures s)).

(** Number of worker threads that run a unit. *)
Definition busy_workers (s : state) : nat :=
  length (filter (λ w, is_busy w = true) (threads s)).

Definition inv_count (s : state) : Prop :=
  running_futures s = busy_workers s.

Definition start_of (x : Z * event) : option nat :=
  match x.2 with EvStart f => Some f | _ => None end.

(** The futures in the order in which their units began. *)
Definition start_order (l : list (Z * event)) : list nat := omap start_of l.

Definition name_of (fs : list future) (f : nat) : string :=
  from_option (λ fu, project_name (fut_project fu)) "" (fs !! f).

Definition start_line (fs : list future) (f : nat) : line :=
  StartLine (name_of fs f).

(** The start lines on the console; no more threads than futures. *)
Record inv_console (s : state) : Prop := {
  iF_starts :
    filter (λ l, is_summary l = false) (stdout s) =
    map (start_line (futures s)) (start_order (log s));
  iF_threads : (length (threads s) ≤ length (futures s))%nat
}.

(** All invariants together. *)
Record inv (W : Z) (project_list : list Project) (s : state) : Prop := {
  inv_A : inv_submit W project_list s;
  inv_B : inv_pool W s;
  inv_C : inv_collect s;
  inv_D : inv_log s;
  inv_E : inv_order s;
  inv_N : inv_count s;
  inv_F : inv_console s
}.

(** ** Progress *)

Definition fweight (fu : future) : nat :=
  match fut_state fu with
  | PENDING => 3
  | RUNNING InStart => 2
  | RUNNING InWait => 1
  | FINISHED _ => 0
  end.

Definition wweight (w : wstate) : nat :=
  match w with WExited => 0 | _ => 1 end.

Definition mweight (s : state) : nat :=
  match main s with
  | MSubmit rest => 3 + size (dom (allFutures s)) + 7 * length rest
  | MCollect finished pending => 2 + size finished + size pending
  | MJoin _ => 1
  | MDone _ => 0
  end.

(** What is left to do: every step other than a clock tick lowers it. *)
Definition measure (s : state) : nat :=
  mweight s + sum_list_with fweight (futures s)
            + sum_list_with wweight (threads s).

(** ** Notions the claims use *)

(** No statement of the body fails during the schedule. *)
Definition fault_free (acts : list action) : Prop := Fault ∉ acts.

(** The cell is over. *)
Definition finished_run (s : state) : Prop := ∃ e, main s = MDone e.

(** An action that is enabled and is not a clock tick. *)
Definition advances (W : Z) (s : state) (a : action) : Prop :=
  a ≠ Fault ∧ trans W s (step W a s) ∧ now (step W a s) = now s.

(** An exception is on its way out of the cell, or has left it. *)
Definition raising (m : mstate) : Prop :=
  match m with MJoin (Some _) | MDone (Some _) => True | _ => False end.

(** With a worker count below one the constructor raises and nothing
    else ever happens. *)
Definition aborted (s : state) : Prop :=
  main s = MDone (Some (ValueError "max_workers must be greater than 0")) ∧
  threads s = [] ∧ work_queue s = [] ∧ futures s = [] ∧ allFutures s = ∅ ∧
  stdout s = [] ∧ collected s = [] ∧ log s = [] ∧ shutdown s = false.

(** Every project has exactly one entry among the results. *)
Definition one_result_per_job (pl : list Project) (s : state) : Prop :=
  length (collected s) = length pl ∧
  NoDup (collected_futures s) ∧
  (∀ f pr, pl !! f = Some pr ↔ ∃ r, (f, pr, r) ∈ collected s) ∧
  filter (λ l, is_summary l = true) (stdout s) =
    map (λ x, summary x.1.2 x.2) (collected s).

(** One of the two remote calls of the project raises [e]. *)
Definition raises (pr : Project) (e : exc) : Prop :=
  analyze_and_model pr = Raises e ∨
  (analyze_and_model pr = Returns ∧ wait_for_autopilot pr = Raises e).


Definition is_start_line (l : line) : bool :=
  match l with StartLine _ => true | _ => false end.





(** ** The claims as the specification words them, where the cell differs *)


(** The constructor of the pool refuses the configuration. *)
Definition rejects_configuration (W : Z) (pl : list Project) : Prop :=
  ∃ e, main (init W pl) = MDone (Some e).

(** Elapsed time runs from the invocation of analyze_and_model. *)
Definition measured_from_start (s : state) : Prop :=
  ∀ f d t_start t_done,
    (t_start, EvStart f) ∈ log s →
    (t_done, EvDone f (Elapsed d)) ∈ log s →
    d = t_done - t_start.

(** The loop goes through the futures in the order of their completion. *)
Definition collected_in_completion_order (s : state) : Prop :=
  collected_futures s = done_order (log s).



(** ** Sample projects and schedules *)

Definition succeeding (name : string) : Project :=
  {| project_name := name;
     analyze_and_model := Returns;
     wait_for_autopilot := Returns |}.

Definition rejected (name : string) : Project :=
  {| project_name := name;
     analyze_and_model := Raises (Exc "ClientError" "422 client error");
     wait_for_autopilot := Returns |}.

Definition timing_out (name : string) : Project :=
  {| project_name := name;
     analyze_and_model := Returns;
     wait_for_autopilot :=
       Raises (Exc "AsyncTimeoutError" "Autopilot did not finish") |}.

(** One worker, two projects: the second waits in the queue. *)
Definition queued_schedule : list action :=
  [Main 0; Main 0; Worker 0; Tick; Worker 0; Tick; Tick; Worker 0;
   Worker 0; Tick; Worker 0; Tick; Worker 0;
   Main 0; Main 0; Main 1; Main 0; Worker 0; Main 0].

(** Both projects are over before the loop starts; the loop takes the
    second one first. *)
Definition early_schedule : list action :=
  [Main 0; Worker 0; Main 0; Worker 1; Tick; Worker 0; Tick; Worker 1; Tick;
   Main 0; Main 1; Main 0; Main 0; Worker 0; Worker 1; Main 0].



Definition mixed_projects : list Project :=
  [succeeding "Parallel Project - 1"; timing_out "Parallel Project - 2";
   succeeding "Parallel Project - 3"].

Definition mixed_schedule : list action :=
  [Main 0; Main 0; Main 0; Worker 0; Worker 1; Worker 2; Tick; Worker 1;
   Worker 1; Main 0; Main 1; Worker 0; Tick; Worker 2; Worker 2; Worker 0;
   Main 0; Main 0; Main 0; Worker 0; Worker 1; Worker 2; Main 0].


(** Three workers, three running units, a fourth project in the queue. *)
Definition full_schedule : list action :=
  [Main 0; Main 0; Main 0; Main 0; Worker 0; Worker 1; Worker 2].

(** ** More notions of the cell *)

Definition is_idle (w : wstate) : bool :=
  match w with WIdle => true | _ => false end.

(** Number of worker threads blocked on the queue. *)
Definition idle_workers (s : state) : nat :=
  length (filter (λ w, is_idle w = true) (threads s)).

(** In the model a unit begins in the step that takes it from the queue:
    the units that have begun, followed by the queue, are the futures in
    the order of their creation. *)
Definition fifo (s : state) : Prop :=
  start_order (log s) ++ work_queue s = seq 0 (length (futures s)).

(** Every queued unit has an idle worker waiting for it. *)
Definition no_backlog (s : state) : Prop :=
  (shutdown s = false →
   (idle_semaphore s + length (work_queue s) ≤ idle_workers s)%nat) ∧
  (length (work_queue s) ≤ idle_workers s)%nat.

(** One unit at a time: a unit begins only when all units that began
    before it are over. *)
Definition one_at_a_time (s : state) : Prop :=
  (start_order (log s) = done_order (log s) ∧
   ∀ f pc, fstate_of (futures s) f ≠ Some (RUNNING pc)) ∨
  (∃ f pc, fstate_of (futures s) f = Some (RUNNING pc) ∧
           start_order (log s) = done_order (log s) ++ [f]).


(** The cell that builds [project_list]: for every [n] in [range(1, stop)]
    a project named "Parallel Project - n" is created and appended; the
    notebook has [stop = 6]. *)
Definition project_list_cell (create_from_dataset : string → Project)
    (stop : nat) : list Project :=
  (λ n, create_from_dataset ("Parallel Project - " +:+ pretty n))
    <$> seq 1 (stop - 1).

(** * The top model of the synthetic-data notebook *)

Module TopModel.

(** The exceptions the cell can raise. *)
Inductive error :=
| KeyError (key : string)
| TypeError
| IndexError.

(** A model of the project: [metrics] maps the name of a metric to a
    dictionary from the name of a partition to a score or None. *)
Record Model (score : Type) := {
  model_id : nat;
  metrics : gmap string (gmap string (option score))
}.
Arguments model_id {score}.
Arguments metrics {score}.

Section sorted_by_metric.

Context {score : Type}.
(** [<] on scores. *)
Variable lt : score → score → bool.

(** [model.metrics[metric][test_set]] *)
Definition get_score (model : Model score) (metric test_set : string)
    : error + option score :=
  match metrics model !! metric with
  | None => inl (KeyError metric)
  | Some partitions =>
      match partitions !! test_set with
      | None => inl (KeyError test_set)
      | Some v => inr v
      end
  end.

(** [[model for model in models if model.metrics[metric][test_set] is not None]] *)
Fixpoint models_with_score (models : list (Model score))
    (test_set metric : string) : error + list (Model score) :=
  match models with
  | [] => inr []
  | model :: models =>
      match get_score model metric test_set with
      | inl e => inl e
      | inr v =>
          match models_with_score models test_set metric with
          | inl e => inl e
          | inr l => inr (match v with Some _ => model :: l | None => l end)
          end
      end
  end.

(** [sorted(l, key=key)]: the key of every element is computed first, in
    order; the elements are then sorted by [<] on the keys, elements with
    equal keys staying in their order.  A key that is None cannot be
    compared with anything, and with two elements or more every key is
    compared.  The sort is written as an insertion sort; being in order
    and stable determines the result, whatever the algorithm. *)
Fixpoint keys_of {A} (key : A → error + option score) (l : list A)
    : error + list (option score * A) :=
  match l with
  | [] => inr []
  | x :: l =>
      match key x with
      | inl e => inl e
      | inr k =>
          match keys_of key l with
          | inl e => inl e
          | inr kl => inr ((k, x) :: kl)
          end
      end
  end.

Fixpoint comparable {A} (kl : list (option score * A))
    : option (list (score * A)) :=
  match kl with
  | [] => Some []
  | (Some k, x) :: kl => cons (k, x) <$> comparable kl
  | (None, _) :: _ => None
  end.

Fixpoint insert_by_key {A} (x : score * A) (l : list (score * A))
    : list (score * A) :=
  match l with
  | [] => [x]
  | y :: l' => if lt y.1 x.1 then y :: insert_by_key x l' else x :: l
  end.

Fixpoint sort_by_key {A} (l : list (score * A)) : list (score * A) :=
  match l with
  | [] => []
  | x :: l => insert_by_key x (sort_by_key l)
  end.

Definition sorted {A} (key : A → error + option score) (l : list A)
    : error + list A :=
  match keys_of key l with
  | inl e => inl e
  | inr kl =>
      match comparable kl with
      | Some kl' => inr (map snd (sort_by_key kl'))
      | None => if (length l <? 2)%nat then inr l else inl TypeError
      end
  end.

Definition sorted_by_metric (models : list (Model score))
    (test_set metric : string) : error + list (Model score) :=
  match models_with_score models test_set metric with
  | inl e => inl e
  | inr models_with_score =>
      sorted (λ model, get_score model metric test_set) models_with_score
  end.

(** [l[0]] *)
Definition first {A} (l : list A) : error + A :=
  match l with
  | [] => inl IndexError
  | x :: _ => inr x
  end.

(** [model_top = sorted_by_metric(models, "crossValidation", metric)[0]] *)
Definition model_top (models : list (Model score)) (metric : string)
    : error + Model score :=
  match sorted_by_metric models "crossValidation" metric with
  | inl e => inl e
  | inr l => first l
  end.

(** The score of a model, if it has one. *)
Definition score_of (metric test_set : string) (model : Model score)
    : option score :=
  match get_score model metric test_set with
  | inr (Some v) => Some v
  | _ => None
  end.

(** The model's score is neither below nor above [v]. *)
Definition ties_with (metric test_set : string) (v : score)
    (model : Model score) : bool :=
  match score_of metric test_set model with
  | Some v' => negb (lt v v') && negb (lt v' v)
  | None => false
  end.

(** The same on a key of the sort. *)
Definition tie {A} (v : score) (x : score * A) : bool :=
  negb (lt v x.1) && negb (lt x.1 v).

(** [a] may stand before [b] in ascending order. *)
Definition ascending (metric test_set : string) (a b : Model score) : Prop :=
  ∀ va vb, score_of metric test_set a = Some va →
           score_of metric test_set b = Some vb → lt vb va = false.

End sorted_by_metric.

(** Sample models, with integers for scores. *)
Definition scored (id : nat) (metric : string) (cv : option Z) : Model Z :=
  {| model_id := id;
     metrics := {[ metric := {[ "validation" := Some 0;
                                "crossValidation" := cv ]} ]} |}.

Definition sample_models : list (Model Z) :=
  [scored 0 "RMSE" (Some 7); scored 1 "RMSE" None; scored 2 "RMSE" (Some 3);
   scored 3 "RMSE" (Some 7); scored 4 "RMSE" (Some 3)].

End TopModel.

(** * The article text of the RSS-feed notebook *)

Module Article.

(** What [json.loads] returns.  The value of a number plays no role. *)
#[warnings="-register-all"] Inductive json :=
| JNull
| JBool (b : bool)
| JNumber (n : Z)
| JString (s : string)
| JArray (items : list json)
| JObject (members : gmap string json).

Inductive error :=
| KeyError (key : string)
| TypeError.

(** [x[key]] for a string [key]: only a dict can be subscripted by a
    string. *)
Definition getitem (x : json) (key : string) : error + json :=
  match x with
  | JObject members =>
      match members !! key with
      | Some v => inr v
      | None => inl (KeyError key)
      end
  | _ => inl TypeError
  end.

(** The values [for k in x] binds [k] to: the items of a list, the keys
    of a dict, the characters of a string.  The cell subscripts each of
    them by a string, which fails on every key and every character: the
    order of the keys of a dict and the encoding of the characters play
    no role. *)
Definition iterate (x : json) : error + list json :=
  match x with
  | JArray items => inr items
  | JObject members => inr (JString <$> (map_to_list members).*1)
  | JString s => inr ((λ c, JString (String c "")) <$> String.list_ascii_of_string s)
  | _ => inl TypeError
  end.

(** [text + v] for a string [text]. *)
Definition add (text : string) (v : json) : error + string :=
  match v with
  | JString s => inr (text +:+ s)
  | _ => inl TypeError
  end.

(** The body of the loop, [article_text = article_text + k["articleBody"]],
    for the remaining values of [k]. *)
Fixpoint loop (article_text : string) (ks : list json) : error + string :=
  match ks with
  | [] => inr article_text
  | k :: ks =>
      match getitem k "articleBody" with
      | inl e => inl e
      | inr v =>
          match add article_text v with
          | inl e => inl e
          | inr article_text => loop article_text ks
          end
      end
  end.

(** The cell from [article_text = ""] on. *)
Definition article_text (htmlcontentjson : json) : error + string :=
  match getitem htmlcontentjson "liveBlogUpdate" with
  | inl e => inl e
  | inr updates =>
      match iterate updates with
      | inl e => inl e
      | inr ks => loop "" ks
      end
  end.

(** An update whose article body is the string [body]. *)
Definition has_body (k : json) (body : string) : Prop :=
  ∃ members, k = JObject members ∧ members !! "articleBody" = Some (JString body).

(** What the loop body raises on [k]. *)
Definition body_error (k : json) : option error :=
  match getitem k "articleBody" with
  | inl e => Some e
  | inr (JString _) => None
  | inr _ => Some TypeError
  end.

Definition update (body : string) : json :=
  JObject {[ "articleBody" := JString body; "headline" := JString "h" ]}.

End Article.

(** * Proofs *)

(** ** Steps are transitions *)

Lemma loop_body_cases f fin' pend' w' s :
  loop_body f fin' pend' w' s = s ∨
  (allFutures s !! f = None ∧
   loop_body f fin' pend' w' s = exit_with (Some (KeyError f)) s) ∨
  (∃ pr fu r, allFutures s !! f = Some pr ∧ futures s !! f = Some fu ∧
     fut_state fu = FINISHED r ∧
     loop_body f fin' pend' w' s = report f pr r fin' pend' w' s).
Proof.
  unfold loop_body.
  destruct (allFutures s !! f) as [pr|] eqn:Hpr; [|by right; left].
  destruct (futures s !! f) as [[p t st]|] eqn:Hfu; [|by left].
  destruct st; try by left.
  right; right. by exists pr, (Build_future p t (FINISHED r)), r.
Qed.

Lemma main_step_trans W pick s :
  main_step W pick s = s ∨ trans W s (main_step W pick s).
Proof.
  unfold main_step.
  destruct (main s) as [[|pr rest]|fin pend|e|e] eqn:Hm.
  - right. by constructor.
  - right. by constructor.
  - case_bool_decide as Hfin.
    + subst fin. case_bool_decide as Hpend.
      * subst pend. right. by constructor.
      * destruct (waiter s) as [[|f fs]|] eqn:Hw; try by left.
        destruct (loop_body_cases f ∅ (pend ∖ {[f]}) (Some fs) s)
          as [->|[[Hk ->]|(pr & fu & r & Hpr & Hfu & Hst & ->)]].
        -- by left.
        -- right. eapply T_keyerror; eauto.
        -- right. eapply T_report_waited; eauto.
    + case_bool_decide as Hpick; [|by left].
      destruct (loop_body_cases pick (fin ∖ {[pick]}) pend (waiter s) s)
        as [->|[[Hk ->]|(pr & fu & r & Hpr & Hfu & Hst & ->)]].
      * by left.
      * right. eapply T_keyerror; eauto.
      * right. eapply T_report_finished; eauto.
  - destruct (all_exited s) eqn:Hall; [|by left].
    right. by constructor.
  - by left.
Qed.

Lemma worker_step_trans W i s :
  worker_step i s = s ∨ trans W s (worker_step i s).
Proof.
  unfold worker_step.
  destruct (threads s !! i) as [[|f|]|] eqn:Hi; try by left.
  - destruct (work_queue s) as [|f q] eqn:Hq.
    + destruct (shutdown s) eqn:Hsh; [|by left].
      right. by constructor.
    + destruct (futures s !! f) as [fu|] eqn:Hfu.
      * right. by econstructor.
      * left. unfold take. by rewrite Hfu.
  - destruct (futures s !! f) as [fu|] eqn:Hfu; [|by left].
    destruct (fut_state fu) as [|pc|r] eqn:Hst; try by left.
    right. unfold thread_function.
    destruct pc.
    + destruct (analyze_and_model (fut_project fu)) eqn:Ha.
      * by econstructor.
      * eapply T_finish; eauto. by constructor.
    + destruct (wait_for_autopilot (fut_project fu)) eqn:Ha.
      * eapply T_finish; eauto. by constructor.
      * eapply T_finish; eauto. by constructor.
Qed.

Lemma step_trans W a s : step W a s = s ∨ trans W s (step W a s).
Proof.
  destruct a as [|pick|i|]; simpl.
  - right. constructor.
  - apply main_step_trans.
  - apply worker_step_trans.
  - unfold fail_step. destruct (main s) eqn:Hm; try by left.
    + right. constructor. by rewrite Hm.
    + right. constructor. by rewrite Hm.
    + right. by eapply T_interrupt.
Qed.

(** ** Lemmas on the store of futures *)

Lemma set_fstate_length f st fs : length (set_fstate f st fs) = length fs.
Proof.
  unfold set_fstate. destruct (fs !! f); [apply length_insert|done].
Qed.

Lemma set_fstate_lookup f st fs fu :
  fs !! f = Some fu →
  set_fstate f st fs !! f =
    Some {| fut_project := fut_project fu;
            fut_start_time := fut_start_time fu;
            fut_state := st |}.
Proof.
  intros H. unfold set_fstate. rewrite H.
  apply list_lookup_insert_eq. by eapply lookup_lt_Some.
Qed.

Lemma set_fstate_lookup_ne f g st fs :
  f ≠ g → set_fstate f st fs !! g = fs !! g.
Proof.
  intros H. unfold set_fstate. destruct (fs !! f); [|done].
  by apply list_lookup_insert_ne.
Qed.

Lemma set_fstate_project f st fs g :
  fut_project <$> set_fstate f st fs !! g = fut_project <$> fs !! g.
Proof.
  destruct (decide (f = g)) as [->|Hne].
  - destruct (fs !! g) as [fu|] eqn:H.
    + by rewrite (set_fstate_lookup _ _ _ _ H).
    + unfold set_fstate. rewrite H. simpl. by rewrite H.
  - by rewrite set_fstate_lookup_ne.
Qed.

Lemma set_fstate_start_time f st fs g :
  fut_start_time <$> set_fstate f st fs !! g = fut_start_time <$> fs !! g.
Proof.
  destruct (decide (f = g)) as [->|Hne].
  - destruct (fs !! g) as [fu|] eqn:H.
    + by rewrite (set_fstate_lookup _ _ _ _ H).
    + unfold set_fstate. rewrite H. simpl. by rewrite H.
  - by rewrite set_fstate_lookup_ne.
Qed.

Lemma set_fstate_map_project f st fs :
  map fut_project (set_fstate f st fs) = map fut_project fs.
Proof.
  apply list_eq. intros g. rewrite !list_lookup_fmap.
  apply set_fstate_project.
Qed.

Lemma fstate_of_set_eq f st fs :
  is_Some (fs !! f) → fstate_of (set_fstate f st fs) f = Some st.
Proof.
  intros [fu H]. unfold fstate_of. by rewrite (set_fstate_lookup _ _ _ _ H).
Qed.

Lemma fstate_of_set_ne f g st fs :
  f ≠ g → fstate_of (set_fstate f st fs) g = fstate_of fs g.
Proof. intros H. unfold fstate_of. by rewrite set_fstate_lookup_ne. Qed.

Lemma fstate_of_Some fs f fu :
  fs !! f = Some fu → fstate_of fs f = Some (fut_state fu).
Proof. intros H. unfold fstate_of. by rewrite H. Qed.

Lemma fstate_of_snoc_old fs fu g :
  (g < length fs)%nat → fstate_of (fs ++ [fu]) g = fstate_of fs g.
Proof. intros H. unfold fstate_of. by rewrite lookup_app_l. Qed.

Lemma fstate_of_snoc_new fs fu :
  fstate_of (fs ++ [fu]) (length fs) = Some (fut_state fu).
Proof.
  unfold fstate_of. rewrite lookup_app_r by lia.
  by rewrite Nat.sub_diag.
Qed.

Lemma fstate_of_lt fs f st : fstate_of fs f = Some st → (f < length fs)%nat.
Proof.
  unfold fstate_of. destruct (fs !! f) eqn:H; [|done].
  intros _. by eapply lookup_lt_Some.
Qed.

Lemma fstate_of_snoc fs fu g st :
  fstate_of (fs ++ [fu]) g = Some st →
  (g = length fs ∧ st = fut_state fu) ∨
  ((g < length fs)%nat ∧ fstate_of fs g = Some st).
Proof.
  intros H. pose proof (fstate_of_lt _ _ _ H) as Hlt.
  rewrite length_app in Hlt. simpl in Hlt.
  destruct (decide (g = length fs)) as [->|Hne].
  - rewrite fstate_of_snoc_new in H. left. split; congruence.
  - right. assert (g < length fs)%nat by lia. split; [done|].
    by rewrite fstate_of_snoc_old in H.
Qed.

Lemma is_finished_spec fs f :
  is_finished fs f = true ↔ ∃ r, fstate_of fs f = Some (FINISHED r).
Proof.
  unfold is_finished, fstate_of.
  destruct (fs !! f) as [[p t [|pc|r]]|]; simpl; split;
    try done; try (intros [? ?]; done); eauto.
Qed.

(** ** Submission *)

Lemma inv_submit_init W pl : inv_submit W pl (init W pl).
Proof.
  split; simpl.
  - destruct (Z.leb_spec W 0); [done|]. split; [done|lia].
  - apply prefix_nil.
  - intros f. by rewrite lookup_empty.
Qed.

Lemma inv_submit_frame W pl s s' :
  main s' = main s →
  map fut_project (futures s') = map fut_project (futures s) →
  allFutures s' = allFutures s →
  inv_submit W pl s → inv_submit W pl s'.
Proof.
  intros Hm Hf Hd [H1 H2 H3]. split.
  - rewrite Hm. unfold all_submitted in *. by rewrite Hf.
  - by rewrite Hf.
  - intros f. by rewrite Hd, Hf.
Qed.

Lemma inv_submit_trans W pl s s' :
  trans W s s' → inv_submit W pl s → inv_submit W pl s'.
Proof.
  intros Ht Hinv.
  destruct Ht;
    try (apply (inv_submit_frame W pl s); simpl;
         rewrite ?set_fstate_map_project; done).
  - (* submit *)
    destruct Hinv as [Hm Hp Hd].
    rewrite H in Hm. destruct Hm as [Hpl HW].
    split; simpl.
    + rewrite map_app. simpl. rewrite <- app_assoc. done.
    + rewrite map_app. simpl. rewrite Hpl. apply prefix_app.
      by exists rest.
    + intros f. rewrite map_app. simpl.
      assert (Hlen : length (map fut_project (futures s)) = length (futures s))
        by apply length_map.
      destruct (decide (f = length (futures s))) as [->|Hne].
      * rewrite lookup_insert_eq. rewrite lookup_app_r by lia.
        by rewrite Hlen, Nat.sub_diag.
      * rewrite lookup_insert_ne by done. rewrite Hd.
        destruct (decide (f < length (futures s))%nat).
        -- rewrite lookup_app_l by lia. done.
        -- rewrite !lookup_ge_None_2; [done| |lia].
           rewrite length_app. simpl. lia.
  - (* as_completed *)
    destruct Hinv as [Hm Hp Hd].
    rewrite H in Hm. destruct Hm as [Hpl HW].
    split; simpl; try done.
    unfold all_submitted. simpl. by rewrite Hpl, app_nil_r.
  - (* loop end *)
    destruct Hinv as [Hm Hp Hd]. rewrite H in Hm. split; simpl; done.
  - (* fail *)
    destruct Hinv as [Hm Hp Hd]. split; simpl; done.
  - (* key error *)
    destruct Hinv as [Hm Hp Hd]. split; simpl; done.
  - (* report *)
    destruct Hinv as [Hm Hp Hd]. rewrite H in Hm. split; simpl; done.
  - destruct Hinv as [Hm Hp Hd]. rewrite H in Hm. split; simpl; done.
  - (* join *)
    destruct Hinv as [Hm Hp Hd]. rewrite H in Hm. split; simpl; done.
  - (* take *)
    apply (inv_submit_frame W pl s); [| | |done];
      unfold take; rewrite H1; simpl;
      rewrite ?set_fstate_map_project; done.
  - (* interrupt *)
    destruct Hinv as [Hm Hp Hd]. split; simpl; done.
Qed.

(** ** The pool *)

Lemma take_unfold i f q s fu :
  futures s !! f = Some fu →
  take i f q s =
  {| now := now s;
     main := main s;
     threads := <[i := WRun f]> (threads s);
     idle_semaphore := idle_semaphore s;
     work_queue := q;
     shutdown := shutdown s;
     futures := set_fstate f (RUNNING InStart) (futures s);
     allFutures := allFutures s;
     waiter := waiter s;
     stdout := stdout s ++ [StartLine (project_name (fut_project fu))];
     collected := collected s;
     log := log s ++ [(now s, EvStart f)] |}.
Proof. intros H. unfold take. by rewrite H. Qed.

Lemma all_exited_lookup s i w :
  all_exited s = true → threads s !! i = Some w → w = WExited.
Proof.
  unfold all_exited. intros Hall Hi.
  rewrite forallb_forall in Hall.
  apply list_elem_of_lookup_2, list_elem_of_In in Hi.
  specialize (Hall _ Hi). by destruct w.
Qed.

Lemma fstate_of_set f g st fs st' :
  fstate_of (set_fstate f st fs) g = Some st' →
  (g = f ∧ st' = st ∧ is_Some (fs !! f)) ∨ (g ≠ f ∧ fstate_of fs g = Some st').
Proof.
  destruct (decide (f = g)) as [->|Hne].
  - destruct (fs !! g) as [fu|] eqn:Hfu.
    + rewrite fstate_of_set_eq by eauto. intros [= <-]. left. eauto.
    + unfold fstate_of, set_fstate. rewrite Hfu. simpl. rewrite Hfu. done.
  - rewrite fstate_of_set_ne by done. intros. right. split; [congruence|done].
Qed.

Lemma spawn_lookup (b : bool) (l : list wstate) i w :
  w ≠ WIdle →
  (if b then l ++ [WIdle] else l) !! i = Some w ↔ l !! i = Some w.
Proof.
  intros Hw. destruct b; [|done]. split.
  - intros [Hi|[_ Hi]]%lookup_app_Some; [done|].
    apply list_lookup_singleton_Some in Hi as [_ ?]. congruence.
  - apply lookup_app_l_Some.
Qed.

Lemma insert_lookup_other (l : list wstate) i j w w' :
  w ≠ w' → <[i:=w]> l !! j = Some w' → i ≠ j ∧ l !! j = Some w'.
Proof.
  intros Hw [(-> & ? & _)|[Hne Hj]]%list_lookup_insert_Some; [congruence|done].
Qed.

Lemma inv_pool_init W pl : inv_pool W (init W pl).
Proof.
  split; simpl; try done.
  - constructor.
  - intros f. split; [by intros ?%elem_of_nil|done].
  - lia.
  - by destruct (W <=? 0).
Qed.

Lemma inv_pool_frame W s s' :
  threads s' = threads s →
  work_queue s' = work_queue s →
  shutdown s' = shutdown s →
  futures s' = futures s →
  idle_semaphore s' = idle_semaphore s →
  match main s, main s' with
  | MSubmit _, MSubmit _ | MSubmit _, MCollect _ _
  | MCollect _ _, MCollect _ _ | MJoin _, MJoin _ => True
  | MDone e, MDone e' => e = e'
  | _, _ => False
  end →
  inv_pool W s → inv_pool W s'.
Proof.
  intros Ht Hq Hs Hf Hi Hm [].
  split; rewrite ?Ht, ?Hq, ?Hs, ?Hf, ?Hi; try done.
  unfold all_exited in *. rewrite ?Ht.
  destruct (main s) as [| | |[|]], (main s') as [| | |[|]]; done.
Qed.

Lemma inv_pool_trans W pl s s' :
  trans W s s' → inv_submit W pl s → inv_pool W s → inv_pool W s'.
Proof.
  intros Ht HA HB.
  destruct Ht;
    try (apply (inv_pool_frame W s); simpl; try done;
         match goal with H : main s = _ |- _ => by rewrite H end).
  - (* tick *)
    apply (inv_pool_frame W s); simpl; try done. by destruct (main s).
  - (* submit *)
    destruct HB. destruct HA as [HAm _ _]. rewrite H in *.
    destruct HAm as [_ HW].
    assert (Hnew : length (futures s) ∉ work_queue s).
    { intros Hin%iB_queue0%fstate_of_lt. lia. }
    split; simpl.
    + apply NoDup_app. split; [done|]. split; [|apply NoDup_singleton].
      intros x Hx ->%list_elem_of_singleton. done.
    + intros f. rewrite elem_of_app, list_elem_of_singleton. split.
      * intros [Hin| ->].
        -- apply iB_queue0 in Hin. rewrite fstate_of_snoc_old; [done|].
           by eapply fstate_of_lt.
        -- by rewrite fstate_of_snoc_new.
      * intros [[-> _]|[Hlt Hst]]%fstate_of_snoc; [by right|].
        left. by apply iB_queue0.
    + intros i f Hi%spawn_lookup; [|done].
      destruct (iB_run0 _ _ Hi) as [pc Hpc]. exists pc.
      rewrite fstate_of_snoc_old; [done|]. by eapply fstate_of_lt.
    + intros f pc [[_ ?]|[Hlt Hst]]%fstate_of_snoc; [done|].
      destruct (iB_run_inv0 _ _ Hst) as [i Hi]. exists i.
      by apply spawn_lookup.
    + intros i j f Hi%spawn_lookup Hj%spawn_lookup; eauto.
    + destruct (idle_semaphore s); [|done].
      destruct (Z.ltb_spec (Z.of_nat (length (threads s))) W); [|done].
      rewrite length_app. simpl. lia.
    + intros i Hi%spawn_lookup; [|done]. exfalso.
      apply iB_exited0 in Hi as [? _]. congruence.
    + done.
    + intros Hnil. exfalso.
      destruct (idle_semaphore s) eqn:Hidle.
      * destruct (Z.ltb_spec (Z.of_nat (length (threads s))) W) as [|Hge].
        -- by destruct (threads s).
        -- rewrite Hnil in Hge. simpl in Hge. lia.
      * destruct (iB_nothreads0 Hnil) as [_ ?]. congruence.
  - (* loop end *)
    destruct HB. rewrite H in *. split; simpl; try done.
    intros i Hi. apply iB_exited0 in Hi as [? ?]. done.
  - (* fail *)
    destruct HB. split; simpl; try done.
    intros i Hi. apply iB_exited0 in Hi as [? ?]. done.
  - (* key error *)
    destruct HB. split; simpl; try done.
    intros i Hi. apply iB_exited0 in Hi as [? ?]. done.
  - (* join *)
    destruct HB. rewrite H in *. split; simpl; try done. by destruct e.
  - (* take *)
    rewrite (take_unfold _ _ _ _ _ H1).
    destruct HB.
    assert (Hf : fstate_of (futures s) f = Some PENDING).
    { apply iB_queue0. rewrite H0. by left. }
    rewrite H0 in iB_nodup0. apply NoDup_cons in iB_nodup0 as [Hfq Hq].
    split; simpl.
    + done.
    + intros g. split.
      * intros Hg. destruct (decide (g = f)) as [->|Hne]; [done|].
        rewrite fstate_of_set_ne by done. apply iB_queue0. rewrite H0.
        by right.
      * intros [(-> & ? & _)|[Hne Hg]]%fstate_of_set; [done|].
        apply iB_queue0 in Hg. rewrite H0 in Hg.
        apply elem_of_cons in Hg as [?|?]; done.
    + intros j g [(-> & [= <-] & _)|[Hne Hj]]%list_lookup_insert_Some.
      * exists InStart. apply fstate_of_set_eq. eauto.
      * destruct (iB_run0 _ _ Hj) as [pc Hpc]. exists pc.
        rewrite fstate_of_set_ne; [done|]. intros <-. congruence.
    + intros g pc [(-> & _ & _)|[Hne Hg]]%fstate_of_set.
      * exists i. apply list_lookup_insert_eq. by eapply lookup_lt_Some.
      * destruct (iB_run_inv0 _ _ Hg) as [j Hj]. exists j.
        rewrite list_lookup_insert_ne; [done|]. intros <-. congruence.
    + assert (∀ k, threads s !! k = Some (WRun f) → False) as Hno.
      { intros k Hk. destruct (iB_run0 _ _ Hk) as [pc Hpc]. congruence. }
      intros j k g Hj Hk.
      apply list_lookup_insert_Some in Hj, Hk.
      destruct Hj as [(? & ? & ?)|[? ?]], Hk as [(? & ? & ?)|[? ?]];
        simplify_eq; eauto; exfalso; eauto.
    + by rewrite length_insert.
    + intros j [Hne Hj]%insert_lookup_other; [|done].
      apply iB_exited0 in Hj as [_ ?]. congruence.
    + destruct (main s) as [| | |[|]]; try done.
      pose proof (all_exited_lookup _ _ _ iB_shutdown0 H). done.
    + intros Hnil. apply (f_equal length) in Hnil.
      rewrite length_insert in Hnil. apply lookup_lt_Some in H.
      simpl in Hnil. lia.
  - (* worker exit *)
    destruct HB. split; simpl; try done.
    + intros j g [Hne Hj]%insert_lookup_other; [|done]. eauto.
    + intros g pc Hg. destruct (iB_run_inv0 _ _ Hg) as [j Hj]. exists j.
      rewrite list_lookup_insert_ne; [done|]. intros <-. congruence.
    + intros j k g [Hne Hj]%insert_lookup_other; [|done].
      intros [Hne' Hk]%insert_lookup_other; [|done]. eauto.
    + by rewrite length_insert.
    + destruct (main s) as [| | |[|]]; try done; try congruence.
      pose proof (all_exited_lookup _ _ _ iB_shutdown0 H). done.
    + intros Hnil. apply (f_equal length) in Hnil.
      rewrite length_insert in Hnil. apply lookup_lt_Some in H.
      simpl in Hnil. lia.
  - (* enter wait *)
    destruct HB.
    assert (Hf : fstate_of (futures s) f = Some (RUNNING InStart)).
    { rewrite (fstate_of_Some _ _ _ H0). by rewrite H1. }
    split; simpl; try done.
    + intros g. split.
      * intros Hg. apply iB_queue0 in Hg.
        rewrite fstate_of_set_ne; [done|]. intros <-. congruence.
      * intros [(-> & ? & _)|[Hne Hg]]%fstate_of_set; [done|].
        by apply iB_queue0.
    + intros j g Hj. destruct (decide (g = f)) as [->|Hne].
      * exists InWait. apply fstate_of_set_eq. eauto.
      * rewrite fstate_of_set_ne by done. eauto.
    + intros g pc [(-> & _ & _)|[Hne Hg]]%fstate_of_set; eauto.
    + intros Hnil. destruct (iB_nothreads0 Hnil) as [Hfs ?].
      rewrite Hfs in H0. done.
  - (* finish *)
    destruct HB.
    assert (Hf : fstate_of (futures s) f = Some (RUNNING pc)).
    { rewrite (fstate_of_Some _ _ _ H0). by rewrite H1. }
    split; simpl; try done.
    + intros g. split.
      * intros Hg. apply iB_queue0 in Hg.
        rewrite fstate_of_set_ne; [done|]. intros <-. congruence.
      * intros [(-> & ? & _)|[Hne Hg]]%fstate_of_set; [done|].
        by apply iB_queue0.
    + intros j g [Hne Hj]%insert_lookup_other; [|done].
      destruct (iB_run0 _ _ Hj) as [pc' Hpc]. exists pc'.
      rewrite fstate_of_set_ne; [done|]. intros ->.
      apply Hne. eauto.
    + intros g pc' [(-> & ? & _)|[Hne Hg]]%fstate_of_set; [done|].
      destruct (iB_run_inv0 _ _ Hg) as [j Hj]. exists j.
      rewrite list_lookup_insert_ne; [done|]. intros <-. congruence.
    + intros j k g [Hne Hj]%insert_lookup_other; [|done].
      intros [Hne' Hk]%insert_lookup_other; [|done]. eauto.
    + by rewrite length_insert.
    + intros j [Hne Hj]%insert_lookup_other; [|done]. eauto.
    + destruct (main s) as [| | |[|]]; try done.
      pose proof (all_exited_lookup _ _ _ iB_shutdown0 H). done.
    + intros Hnil. apply (f_equal length) in Hnil.
      rewrite length_insert in Hnil. apply lookup_lt_Some in H.
      simpl in Hnil. lia.
  - (* interrupt *)
    destruct HB. rewrite H in *. split; simpl; try done.
Qed.

(** ** The collecting loop *)

Lemma is_finished_set_ne f g st fs :
  f ≠ g → is_finished (set_fstate f st fs) g = is_finished fs g.
Proof. intros H. unfold is_finished. by rewrite set_fstate_lookup_ne. Qed.

Lemma is_finished_set_running f g pc fs :
  is_finished fs f = false →
  is_finished (set_fstate f (RUNNING pc) fs) g = is_finished fs g.
Proof.
  intros Hf. destruct (decide (f = g)) as [->|Hne].
  - rewrite Hf. unfold is_finished.
    destruct (fs !! g) as [fu|] eqn:Hfu.
    + by rewrite (set_fstate_lookup _ _ _ _ Hfu).
    + unfold set_fstate. rewrite Hfu. by rewrite Hfu.
  - by apply is_finished_set_ne.
Qed.

Lemma is_finished_set_finished f r fs :
  is_Some (fs !! f) → is_finished (set_fstate f (FINISHED r) fs) f = true.
Proof.
  intros [fu Hfu]. unfold is_finished.
  by rewrite (set_fstate_lookup _ _ _ _ Hfu).
Qed.

Lemma is_finished_false fs f fu :
  fs !! f = Some fu → (∀ r, fut_state fu ≠ FINISHED r) →
  is_finished fs f = false.
Proof.
  intros Hfu Hst. unfold is_finished. rewrite Hfu.
  destruct fu as [p t [| |r]]; simpl in *; try done.
  by destruct (Hst r).
Qed.

Lemma is_finished_snoc fs fu g :
  fut_state fu = PENDING →
  is_finished (fs ++ [fu]) g = is_finished fs g.
Proof.
  intros Hst. unfold is_finished.
  destruct (decide (g < length fs)%nat).
  - by rewrite lookup_app_l.
  - rewrite (lookup_ge_None_2 fs) by lia.
    destruct (decide (g = length fs)) as [->|].
    + rewrite lookup_app_r by lia. rewrite Nat.sub_diag. simpl.
      destruct fu; simpl in *. by subst.
    + rewrite lookup_ge_None_2; [done|]. rewrite length_app. simpl. lia.
Qed.

Lemma is_finished_lookup fs f fu r :
  fs !! f = Some fu → fut_state fu = FINISHED r → is_finished fs f = true.
Proof.
  intros Hfu Hst. unfold is_finished. rewrite Hfu.
  destruct fu; simpl in *. by subst.
Qed.

Lemma set_fstate_lookup_other f g st fs fu r :
  fs !! g = Some fu → fut_state fu = FINISHED r →
  is_finished fs f = false →
  set_fstate f st fs !! g = Some fu.
Proof.
  intros Hg Hst Hf. rewrite set_fstate_lookup_ne; [done|].
  intros ->. rewrite (is_finished_lookup _ _ _ _ Hg Hst) in Hf. done.
Qed.

Lemma collected_futures_entry s f :
  f ∈ collected_futures s → ∃ pr r, (f, pr, r) ∈ collected s.
Proof.
  unfold collected_futures. intros Hin.
  apply list_elem_of_fmap in Hin as ([[f' pr] r] & -> & Hin). eauto.
Qed.

Lemma inv_collect_init W pl : inv_collect (init W pl).
Proof.
  split; simpl; try done.
  - by destruct (W <=? 0).
  - constructor.
  - intros f pr r ?%elem_of_nil. done.
Qed.

(** A worker step that changes the state of a future that was not
    finished to [RUNNING] leaves the loop's view as it was. *)
Lemma inv_collect_frame_running s s' f pc :
  main s' = main s →
  waiter s' = waiter s →
  collected s' = collected s →
  filter (λ l, is_summary l = true) (stdout s') =
    filter (λ l, is_summary l = true) (stdout s) →
  futures s' = set_fstate f (RUNNING pc) (futures s) →
  is_finished (futures s) f = false →
  inv_collect s → inv_collect s'.
Proof.
  intros Hm Hw Hc Ho Hf Hnf [H1 H2 H3 H4].
  split; unfold collected_futures in *; rewrite ?Hm, ?Hw, ?Hc, ?Ho, ?Hf;
    try done.
  - destruct (main s) as [|fin pend|[]|[]]; try done.
    + destruct H1 as (fs & ? & []).
      exists fs. split; [done|].
      split; unfold collected_futures in *; rewrite ?Hf, ?Hc; try done.
      * intros g. rewrite is_finished_set_running by done. auto.
      * intros g. rewrite is_finished_set_running by done. auto.
      * intros g. rewrite set_fstate_length. auto.
      * intros g. rewrite set_fstate_length. auto.
    + intros g. rewrite set_fstate_length. apply H1.
    + intros g. rewrite set_fstate_length. apply H1.
  - intros g pr r Hin. destruct (H3 _ _ _ Hin) as (fu & Hfu & ? & ?).
    exists fu. split; [|done]. by eapply set_fstate_lookup_other.
Qed.

Lemma inv_collect_frame s s' :
  futures s' = futures s →
  waiter s' = waiter s →
  collected s' = collected s →
  stdout s' = stdout s →
  match main s, main s' with
  | MSubmit _, MSubmit _ => True
  | MJoin e, MDone e' => e = e'
  | m, m' => m = m'
  end →
  inv_collect s → inv_collect s'.
Proof.
  intros Hf Hw Hc Ho Hm [H1 H2 H3 H4].
  split; unfold collected_futures in *; rewrite ?Hf, ?Hw, ?Hc, ?Ho; try done.
  destruct (main s) as [|fin pend|e|e], (main s') as [|fin' pend'|e'|e'];
    simplify_eq; try done.
  destruct H1 as (fs & ? & []). exists fs. split; [done|].
  split; unfold collected_futures in *; rewrite ?Hf, ?Hc; done.
Qed.

Lemma dict_lookup_lt W pl s f :
  inv_submit W pl s →
  is_Some (allFutures s !! f) ↔ (f < length (futures s))%nat.
Proof.
  intros [_ _ Hd]. rewrite Hd, list_lookup_fmap.
  rewrite <- lookup_lt_is_Some. by rewrite fmap_is_Some.
Qed.

Lemma dict_lookup_project W pl s f pr fu :
  inv_submit W pl s →
  allFutures s !! f = Some pr → futures s !! f = Some fu →
  fut_project fu = pr.
Proof.
  intros [_ _ Hd] Hpr Hfu. rewrite Hd, list_lookup_fmap, Hfu in Hpr.
  simpl in Hpr. congruence.
Qed.

Lemma summary_is_summary pr r : is_summary (summary pr r) = true.
Proof. by destruct r. Qed.

Lemma inv_collect_report W pl s f pr fu r fin pend fin' pend' fs fs' :
  inv_submit W pl s → inv_collect s →
  main s = MCollect fin pend →
  waiter s = Some fs →
  allFutures s !! f = Some pr →
  futures s !! f = Some fu →
  fut_state fu = FINISHED r →
  f ∈ fin ∨ f ∈ pend →
  (∀ g, g ∈ fin' ↔ (g ∈ fin ∧ g ≠ f)) →
  (∀ g, g ∈ pend' ↔ (g ∈ pend ∧ g ≠ f)) →
  NoDup fs' →
  (∀ g, g ∈ fs' ↔ (g ∈ fs ∧ g ≠ f)) →
  inv_collect (report f pr r fin' pend' (Some fs') s).
Proof.
  intros HA [H1 H2 H3 H4] Hm Hw Hpr Hfu Hst Hin Hfin' Hpend' Hnd Hfs'.
  rewrite Hm in H1. destruct H1 as (fs0 & Hw0 & []).
  assert (fs0 = fs) as -> by congruence.
  assert (Hnew : f ∉ collected_futures s).
  { intros Hc%cl_collected0. tauto. }
  split; simpl.
  - exists fs'. split; [done|].
    split; unfold collected_futures in *; simpl; try done.
    + intros g. rewrite Hfs', Hpend', cl_waiter0. tauto.
    + intros g [? ?]%Hfin'. auto.
    + intros g [? ?]%Hfin' [? ?]%Hpend'. by eapply cl_disjoint0.
    + intros g. rewrite map_app, elem_of_app. simpl.
      rewrite list_elem_of_singleton, Hfin', Hpend'.
      intros [Hg| ->]; [|tauto].
      apply cl_collected0 in Hg. tauto.
    + intros g Hg. rewrite map_app, elem_of_app. simpl.
      rewrite list_elem_of_singleton, Hfin', Hpend'.
      destruct (decide (g = f)) as [->|Hne]; [tauto|].
      apply cl_cover0 in Hg. tauto.
    + intros g. rewrite Hfin', Hpend'. intros Hg. apply cl_range0. tauto.
  - unfold collected_futures in *. simpl. rewrite map_app. simpl.
    apply NoDup_app. split; [done|]. split; [|apply NoDup_singleton].
    intros g Hg ->%list_elem_of_singleton. done.
  - intros g pr' r' [Hg|Hg%list_elem_of_singleton]%elem_of_app; [eauto|].
    simplify_eq. exists fu. split; [done|]. split; [|done].
    by eapply dict_lookup_project.
  - rewrite filter_app, map_app, H4. simpl. f_equal.
    rewrite filter_cons_True by apply summary_is_summary. done.
Qed.

Lemma inv_collect_trans W pl s s' :
  trans W s s' → inv_submit W pl s → inv_pool W s →
  inv_collect s → inv_collect s'.
Proof.
  intros Ht HA HB HC.
  destruct Ht.
  - (* tick *)
    apply (inv_collect_frame s); simpl; try done. by destruct (main s).
  - (* submit *)
    destruct HC as [Q1 Q2 Q3 Q4]. rewrite H in Q1. destruct Q1 as [Hw Hc].
    split; unfold collected_futures in *; simpl; rewrite ?Hc in *; try done.
    intros f pr' r ?%elem_of_nil. done.
  - (* as_completed *)
    destruct HC as [Q1 Q2 Q3 Q4]. rewrite H in Q1. destruct Q1 as [Hw Hc].
    split; unfold collected_futures in *; simpl; rewrite ?Hc in *; try done.
    exists []. split; [done|].
    split; unfold collected_futures; simpl; rewrite ?Hc.
    + constructor.
    + intros f. rewrite elem_of_difference, elem_of_filter. split.
      * by intros ?%elem_of_nil.
      * intros [[Hd Hn] Hf]. tauto.
    + intros f. rewrite elem_of_filter. tauto.
    + intros f. rewrite elem_of_difference. tauto.
    + intros f ?%elem_of_nil. done.
    + intros f Hf%(dict_lookup_lt _ _ _ _ HA)%elem_of_dom.
      rewrite elem_of_difference, elem_of_filter.
      destruct (is_finished (futures s) f); [left|right; left]; split; try done.
      intros [? _]. done.
    + intros f. rewrite elem_of_difference, elem_of_filter.
      intros Hf. apply (dict_lookup_lt _ _ _ _ HA), elem_of_dom. tauto.
  - (* loop end *)
    destruct HC as [Q1 Q2 Q3 Q4]. rewrite H in Q1.
    destruct Q1 as (fs & Hw & []).
    split; unfold collected_futures in *; simpl; try done.
    intros f Hf. apply cl_cover0 in Hf as [?%elem_of_empty|[?%elem_of_empty|?]]; done.
  - (* fail *)
    destruct HC as [Q1 Q2 Q3 Q4]. split; simpl; done.
  - (* key error *)
    destruct HC as [Q1 Q2 Q3 Q4]. split; simpl; done.
  - (* report, from the finished set *)
    pose proof HC as [Q1 _ _ _]. rewrite H in Q1.
    destruct Q1 as (fs & Hw & []).
    rewrite Hw. eapply inv_collect_report; eauto.
    + intros g. rewrite elem_of_difference, elem_of_singleton. tauto.
    + intros g. split; [|tauto]. intros Hg. split; [done|].
      intros ->. by eapply cl_disjoint0.
    + intros g. split; [|tauto]. intros Hg. split; [done|].
      intros ->. apply cl_waiter0 in Hg as [Hg _].
      by eapply cl_disjoint0.
  - (* report, from the waiter *)
    pose proof HC as [Q1 _ _ _]. rewrite H in Q1.
    destruct Q1 as (fs' & Hw & []).
    rewrite H1 in Hw. injection Hw as <-.
    apply NoDup_cons in cl_nodup0 as [Hnin Hnd].
    eapply inv_collect_report; eauto.
    + right. apply cl_waiter0. by left.
    + intros g. split; [|by intros [?%elem_of_empty _]].
      by intros ?%elem_of_empty.
    + intros g. rewrite elem_of_difference, elem_of_singleton. tauto.
    + intros g. rewrite elem_of_cons. split; [|tauto].
      intros Hg. split; [tauto|]. by intros ->.
  - (* join *)
    apply (inv_collect_frame s); simpl; try done. by rewrite H.
  - (* take *)
    rewrite (take_unfold _ _ _ _ _ H1).
    eapply (inv_collect_frame_running s _ f InStart); simpl; try done.
    + by rewrite filter_app, app_nil_r.
    + eapply is_finished_false; [done|]. intros r.
      assert (fstate_of (futures s) f = Some PENDING) as Hp.
      { apply (iB_queue _ _ HB). rewrite H0. by left. }
      rewrite (fstate_of_Some _ _ _ H1) in Hp. congruence.
  - (* worker exit *)
    apply (inv_collect_frame s); simpl; try done. by destruct (main s).
  - (* enter wait *)
    eapply (inv_collect_frame_running s _ f InWait); simpl; try done.
    eapply is_finished_false; [done|]. intros r. congruence.
  - (* finish *)
    assert (Hnf : is_finished (futures s) f = false).
    { eapply is_finished_false; [done|]. intros r'. congruence. }
    destruct HC as [Q1 Q2 Q3 Q4].
    split; unfold collected_futures in *; simpl; try done.
    + destruct (main s) as [|fin pend|[]|[]] eqn:Hm; try done.
      * destruct Q1 as [-> ?]. done.
      * destruct Q1 as (fs & -> & []).
        exists (fs ++ [f]). split; [done|].
        assert (Hfpend : f ∈ pend).
        { destruct (cl_cover0 f) as [Hf|[Hf|Hf]]; [by eapply lookup_lt_Some| |done|].
          - apply cl_finished0 in Hf. congruence.
          - apply collected_futures_entry in Hf as (pr' & r' & Hf).
            apply Q3 in Hf as (fu' & Hfu' & _ & Hst').
            rewrite (is_finished_lookup _ _ _ _ Hfu' Hst') in Hnf. done. }
        assert (Hfin' : ∀ g, is_finished (set_fstate f (FINISHED r) (futures s)) g = true
                            ↔ (g = f ∨ is_finished (futures s) g = true)).
        { intros g. destruct (decide (g = f)) as [->|Hne].
          - rewrite is_finished_set_finished by eauto. tauto.
          - rewrite is_finished_set_ne by done. split; [tauto|].
            intros [?|?]; done. }
        split; unfold collected_futures in *; simpl.
        -- apply NoDup_app. split; [done|]. split; [|apply NoDup_singleton].
           intros g Hg ->%list_elem_of_singleton.
           apply cl_waiter0 in Hg as [_ Hg]. congruence.
        -- intros g. rewrite elem_of_app, list_elem_of_singleton, Hfin'.
           rewrite cl_waiter0. split; [|tauto].
           intros [?| ->]; tauto.
        -- intros g Hg. apply Hfin'. auto.
        -- done.
        -- done.
        -- intros g. rewrite set_fstate_length. auto.
        -- intros g. rewrite set_fstate_length. auto.
      * intros g. rewrite set_fstate_length. auto.
      * intros g. rewrite set_fstate_length. auto.
    + intros g pr' r' Hin. destruct (Q3 _ _ _ Hin) as (fu' & Hfu' & ? & ?).
      exists fu'. split; [|done]. by eapply set_fstate_lookup_other.
  - (* interrupt *)
    destruct HC as [Q1 Q2 Q3 Q4].
    split; unfold collected_futures in *; simpl; done.
Qed.

(** ** The timeline *)

Lemma set_fstate_lookup_full f g st fs :
  set_fstate f st fs !! g =
  if decide (g = f) then with_state st <$> fs !! g else fs !! g.
Proof.
  case_decide as Hg.
  - subst g. destruct (fs !! f) as [fu|] eqn:Hfu.
    + by rewrite (set_fstate_lookup _ _ _ _ Hfu).
    + unfold set_fstate. rewrite Hfu. by rewrite Hfu.
  - by rewrite set_fstate_lookup_ne.
Qed.

Lemma count_ev_app p l l' :
  count_ev p (l ++ l') = (count_ev p l + count_ev p l')%nat.
Proof. induction l as [|x l IH]; simpl; [done|]. rewrite IH. lia. Qed.

Lemma count_ev_pos p l :
  (0 < count_ev p l)%nat → ∃ i x, l !! i = Some x ∧ p x.2 = true.
Proof.
  induction l as [|x l IH]; simpl; [lia|].
  destruct (p x.2) eqn:Hp.
  - intros _. by exists 0%nat, x.
  - intros H. destruct IH as (i & y & Hi & Hy); [lia|].
    by exists (S i), y.
Qed.

Lemma is_start_true f ev : is_start f ev = true → ev = EvStart f.
Proof. destruct ev; simpl; try done. by intros ->%bool_decide_eq_true. Qed.

Lemma started_lookup l f :
  (0 < count_ev (is_start f) l)%nat →
  ∃ i t, l !! i = Some (t, EvStart f).
Proof.
  intros (i & [t ev] & Hi & Hev%is_start_true)%count_ev_pos.
  simpl in Hev. subst. eauto.
Qed.

Lemma log_sorted_snoc l t ev :
  log_sorted l → (∀ x, x ∈ l → x.1 ≤ t) → log_sorted (l ++ [(t, ev)]).
Proof.
  intros Hs Ht i j x y Hij Hi Hj.
  apply lookup_app_Some in Hi as [Hi|[Hi1 Hi2]];
    apply lookup_app_Some in Hj as [Hj|[Hj1 Hj2]].
  - eauto.
  - apply list_lookup_singleton_Some in Hj2 as [_ <-]. simpl.
    apply Ht. by eapply list_elem_of_lookup_2.
  - apply lookup_lt_Some in Hj. lia.
  - apply list_lookup_singleton_Some in Hi2 as [_ <-].
    apply list_lookup_singleton_Some in Hj2 as [_ <-]. done.
Qed.

Lemma log_causal_snoc l t ev :
  log_causal l →
  match ev with
  | EvStart f => ∃ i t', l !! i = Some (t', EvSubmit f)
  | EvWait f | EvDone f _ => ∃ i t', l !! i = Some (t', EvStart f)
  | _ => True
  end →
  log_causal (l ++ [(t, ev)]).
Proof.
  intros Hc Hev j t' ev' Hj.
  apply lookup_app_Some in Hj as [Hj|[Hj1 Hj2]].
  - specialize (Hc _ _ _ Hj).
    destruct ev'; try done; destruct Hc as (i & t0 & Hi & Hl);
      exists i, t0; (split; [done|]); by apply lookup_app_l_Some.
  - apply list_lookup_singleton_Some in Hj2 as [_ [= <- <-]].
    destruct ev; try done; destruct Hev as (i & t0 & Hl);
      exists i, t0; (split; [apply lookup_lt_Some in Hl; lia|]);
      by apply lookup_app_l_Some.
Qed.

Lemma inv_log_init W pl : inv_log (init W pl).
Proof.
  split; simpl; try done.
  - intros x ?%elem_of_nil. done.
  - intros t f ?%elem_of_nil. done.
  - intros t f r ?%elem_of_nil. done.
Qed.

Lemma inv_log_frame s s' :
  log s' = log s → futures s' = futures s → now s ≤ now s' →
  inv_log s → inv_log s'.
Proof.
  intros Hl Hf Hn []. split; rewrite ?Hl, ?Hf; try done.
  intros x Hx. specialize (iD_time0 x Hx). lia.
Qed.

Lemma from_option_snoc (h : future → nat) fs fu f :
  h fu = 0%nat →
  from_option h 0%nat ((fs ++ [fu]) !! f) = from_option h 0%nat (fs !! f).
Proof.
  intros Hh. destruct (decide (f < length fs)%nat).
  - by rewrite lookup_app_l.
  - rewrite (lookup_ge_None_2 fs) by lia. simpl.
    destruct (decide (f = length fs)) as [->|].
    + rewrite lookup_app_r by lia. by rewrite Nat.sub_diag.
    + rewrite lookup_ge_None_2; [done|]. rewrite length_app. simpl. lia.
Qed.

Lemma from_option_set (h : future → nat) fs f st fu g :
  fs !! f = Some fu →
  from_option h 0%nat (set_fstate f st fs !! g) =
  if decide (g = f) then h (with_state st fu)
  else from_option h 0%nat (fs !! g).
Proof.
  intros Hfu. rewrite set_fstate_lookup_full.
  case_decide; [|done]. subst. by rewrite Hfu.
Qed.

Lemma lookup_snoc_Some {A} (l : list A) x i y :
  (l ++ [x]) !! i = Some y →
  ((i < length l)%nat ∧ l !! i = Some y) ∨ (i = length l ∧ y = x).
Proof.
  intros [Hi|[Hi1 Hi2]]%lookup_app_Some.
  - left. split; [by eapply lookup_lt_Some|done].
  - apply list_lookup_singleton_Some in Hi2 as [? <-]. right. split; [lia|done].
Qed.

Lemma elem_of_snoc {A} (l : list A) x y :
  y ∈ l ++ [x] ↔ y ∈ l ∨ y = x.
Proof. by rewrite elem_of_app, list_elem_of_singleton. Qed.

Ltac split_fid g f :=
  destruct (decide (g = f)) as [->|?];
  [rewrite ?bool_decide_eq_true_2 by done
  |rewrite ?bool_decide_eq_false_2 by done]; simpl.

(** A worker moves future [f] to state [st] and records [ev]. *)
Lemma inv_log_worker s s' f fu st ev :
  inv_log s →
  futures s !! f = Some fu →
  now s' = now s →
  log s' = log s ++ [(now s, ev)] →
  futures s' = set_fstate f st (futures s) →
  (∀ r, fut_state fu ≠ FINISHED r) →
  (0 < count_ev (is_start f) (log s))%nat ∨ ev = EvStart f →
  match ev with
  | EvStart g | EvWait g | EvDone g _ => g = f
  | _ => False
  end →
  (∀ g, ((if is_start g ev then 1 else 0) +
         from_option expected_starts 0 (futures s !! g) =
         if decide (g = f) then expected_starts (with_state st fu)
         else from_option expected_starts 0 (futures s !! g))%nat) →
  (∀ g, ((if is_wait g ev then 1 else 0) +
         from_option expected_waits 0 (futures s !! g) =
         if decide (g = f) then expected_waits (with_state st fu)
         else from_option expected_waits 0 (futures s !! g))%nat) →
  (∀ g, ((if is_done g ev then 1 else 0) +
         from_option expected_dones 0 (futures s !! g) =
         if decide (g = f) then expected_dones (with_state st fu)
         else from_option expected_dones 0 (futures s !! g))%nat) →
  (∀ g r, ev = EvDone g r →
          st = FINISHED r ∧
          ∀ d, r = Elapsed d → d = now s - fut_start_time fu) →
  (st = RUNNING InWait → analyze_and_model (fut_project fu) = Returns) →
  (∀ r, st = FINISHED r → result_of (fut_project fu) r) →
  inv_log s'.
Proof.
  intros [] Hfu Hn Hl Hf Hnf Hst Hev Hs Hw Hd Hdone Hinwait Hres.
  split; rewrite ?Hn, ?Hl, ?Hf.
  - intros x [Hx| ->]%elem_of_snoc; [auto|done].
  - apply log_sorted_snoc; auto.
  - apply log_causal_snoc; [done|].
    destruct ev; try done; subst.
    + pose proof (iD_submitted0 _ _ Hfu) as Hsub.
      apply list_elem_of_lookup_1 in Hsub as [i Hi]. eauto.
    + destruct Hst as [Hst|?]; [|done]. by apply started_lookup.
    + destruct Hst as [Hst|?]; [|done]. by apply started_lookup.
  - intros t g [Hx|Hx]%elem_of_snoc.
    + rewrite set_fstate_start_time. auto.
    + destruct ev; try done; congruence.
  - intros g fu'. rewrite set_fstate_lookup_full, elem_of_snoc.
    case_decide as Hg.
    + subst g. rewrite Hfu. simpl. intros [= <-]. left. simpl. auto.
    + intros ?. left. auto.
  - intros g. rewrite count_ev_app. simpl.
    rewrite (from_option_set _ _ _ _ _ _ Hfu), <- Hs, iD_starts0. lia.
  - intros g. rewrite count_ev_app. simpl.
    rewrite (from_option_set _ _ _ _ _ _ Hfu), <- Hw, iD_waits0. lia.
  - intros g. rewrite count_ev_app. simpl.
    rewrite (from_option_set _ _ _ _ _ _ Hfu), <- Hd, iD_dones0. lia.
  - intros t g r [Hx|Hx]%elem_of_snoc.
    + destruct (iD_done0 _ _ _ Hx) as (fu' & Hfu' & Hst' & Hel).
      exists fu'. split; [|done]. rewrite set_fstate_lookup_ne; [done|].
      intros ->. rewrite Hfu in Hfu'. injection Hfu' as ->. by eapply Hnf.
    + injection Hx as -> <-. specialize (Hdone _ _ eq_refl) as [-> Hel].
      simpl in Hev. subst g.
      exists (with_state (FINISHED r) fu). rewrite set_fstate_lookup_full.
      rewrite decide_True by done. rewrite Hfu. done.
  - intros g fu'. rewrite set_fstate_lookup_full. case_decide as Hg.
    + subst g. rewrite Hfu. simpl. intros [= <-]. simpl. auto.
    + eauto.
  - intros g fu' r. rewrite set_fstate_lookup_full. case_decide as Hg.
    + subst g. rewrite Hfu. simpl. intros [= <-]. simpl. auto.
    + eauto.
  - intros g. rewrite count_ev_app. simpl.
    rewrite (from_option_set _ _ _ _ _ _ Hfu), iD_submits0.
    replace (is_submit g ev) with false by (by destruct ev).
    case_decide; [subst; rewrite Hfu|]; simpl; lia.
Qed.

Lemma inv_log_trans W s s' :
  trans W s s' → inv_pool W s → inv_log s → inv_log s'.
Proof.
  intros Ht HB HD.
  destruct Ht; try (apply (inv_log_frame s); simpl; (done || lia)).
  - (* submit *)
    destruct HD. split; simpl.
    + intros x [Hx| ->]%elem_of_snoc; [auto|done].
    + apply log_sorted_snoc; auto.
    + by apply log_causal_snoc.
    + intros t f [Hx|[= -> ->]]%elem_of_snoc.
      * specialize (iD_submit0 _ _ Hx).
        rewrite lookup_app_l; [done|]. apply lookup_lt_is_Some.
        rewrite <- (fmap_is_Some fut_start_time). by rewrite iD_submit0.
      * rewrite lookup_app_r by lia. by rewrite Nat.sub_diag.
    + intros f fu [[Hlt Hf]|[-> ->]]%lookup_snoc_Some; rewrite elem_of_snoc.
      * left. auto.
      * by right.
    + intros f. rewrite count_ev_app. simpl.
      rewrite from_option_snoc by done. rewrite iD_starts0. lia.
    + intros f. rewrite count_ev_app. simpl.
      rewrite from_option_snoc by done. rewrite iD_waits0. lia.
    + intros f. rewrite count_ev_app. simpl.
      rewrite from_option_snoc by done. rewrite iD_dones0. lia.
    + intros t f r [Hx|Hx]%elem_of_snoc; [|done].
      destruct (iD_done0 _ _ _ Hx) as (fu & Hfu & ?). exists fu.
      split; [|done]. by apply lookup_app_l_Some.
    + intros f fu [[Hlt Hf]|[-> ->]]%lookup_snoc_Some; [eauto|done].
    + intros f fu r [[Hlt Hf]|[-> ->]]%lookup_snoc_Some; [eauto|done].
    + intros f. rewrite count_ev_app. simpl.
      rewrite (bool_decide_ext (length (futures s) = f) (f = length (futures s)))
        by done.
      rewrite iD_submits0.
      destruct (decide (f < length (futures s))%nat).
      * rewrite lookup_app_l by done.
        rewrite bool_decide_eq_false_2 by lia. lia.
      * rewrite (lookup_ge_None_2 (futures s)) by lia. simpl.
        case_bool_decide as Hf.
        -- subst. rewrite lookup_app_r by lia. by rewrite Nat.sub_diag.
        -- rewrite lookup_ge_None_2; [done|]. rewrite length_app. simpl. lia.
  - (* as_completed *)
    destruct HD. split; simpl; try done.
    + intros x [Hx| ->]%elem_of_snoc; [auto|done].
    + apply log_sorted_snoc; auto.
    + by apply log_causal_snoc.
    + intros t f [Hx|Hx]%elem_of_snoc; [auto|done].
    + intros f fu Hf. rewrite elem_of_snoc. auto.
    + intros f. rewrite count_ev_app. simpl. rewrite iD_starts0. lia.
    + intros f. rewrite count_ev_app. simpl. rewrite iD_waits0. lia.
    + intros f. rewrite count_ev_app. simpl. rewrite iD_dones0. lia.
    + intros t f r [Hx|Hx]%elem_of_snoc; [auto|done].
    + intros f. rewrite count_ev_app. simpl. rewrite iD_submits0. lia.
  - (* take *)
    rewrite (take_unfold _ _ _ _ _ H1).
    assert (Hp : fut_state fu = PENDING).
    { assert (fstate_of (futures s) f = Some PENDING) as Hp.
      { apply (iB_queue _ _ HB). rewrite H0. by left. }
      rewrite (fstate_of_Some _ _ _ H1) in Hp. congruence. }
    eapply (inv_log_worker s _ f fu (RUNNING InStart) (EvStart f));
      simpl; try done.
    + intros r. congruence.
    + by right.
    + intros g. rewrite (bool_decide_ext (f = g) (g = f)) by done.
      split_fid g f; [|done].
      rewrite H1. simpl. unfold expected_starts. by rewrite Hp.
    + intros g. case_decide; [|done]. subst. rewrite H1. simpl.
      unfold expected_waits. by rewrite Hp.
    + intros g. case_decide; [|done]. subst. rewrite H1. simpl.
      unfold expected_dones. by rewrite Hp.
  - (* enter wait *)
    assert (Hst : (0 < count_ev (is_start f) (log s))%nat).
    { rewrite (iD_starts _ HD), H0. simpl. unfold expected_starts.
      rewrite H1. lia. }
    eapply (inv_log_worker s _ f fu (RUNNING InWait) (EvWait f));
      simpl; try done.
    + intros r. congruence.
    + by left.
    + intros g. case_decide; [|done]. subst. rewrite H0. simpl.
      unfold expected_starts. by rewrite H1.
    + intros g. rewrite (bool_decide_ext (f = g) (g = f)) by done.
      split_fid g f; [|done].
      rewrite H0. simpl. unfold expected_waits. by rewrite H1.
    + intros g. case_decide; [|done]. subst. rewrite H0. simpl.
      unfold expected_dones. by rewrite H1.
  - (* finish *)
    assert (Hst : (0 < count_ev (is_start f) (log s))%nat).
    { rewrite (iD_starts _ HD), H0. simpl. unfold expected_starts.
      rewrite H1. lia. }
    eapply (inv_log_worker s _ f fu (FINISHED r) (EvDone f r));
      simpl; try done.
    + intros r'. congruence.
    + by left.
    + intros g. case_decide; [|done]. subst. rewrite H0. simpl.
      unfold expected_starts. by rewrite H1.
    + intros g. case_decide; [|done]. subst. rewrite H0. simpl.
      unfold expected_waits. rewrite H1. simpl.
      destruct H2; simpl.
      * by rewrite H2.
      * by rewrite (iD_inwait _ HD _ _ H0 H1).
      * by rewrite (iD_inwait _ HD _ _ H0 H1).
    + intros g. rewrite (bool_decide_ext (f = g) (g = f)) by done.
      split_fid g f; [|done].
      rewrite H0. simpl. unfold expected_dones. by rewrite H1.
    + intros g r' [= <- <-]. split; [done|].
      intros d ->. by inversion H2.
    + intros r' [= <-]. unfold result_of.
      destruct H2.
      * by rewrite H2.
      * rewrite (iD_inwait _ HD _ _ H0 H1). by rewrite H2.
      * rewrite (iD_inwait _ HD _ _ H0 H1). rewrite H2. eauto.
Qed.

(** ** Order of collection *)

Lemma has_iter_snoc l x : has_iter (l ++ [x]) = has_iter l || is_iter x.2.
Proof. unfold has_iter. rewrite existsb_app. simpl. by rewrite orb_false_r. Qed.

Lemma until_iter_snoc l x :
  until_iter (l ++ [x]) =
  if has_iter l then until_iter l
  else if is_iter x.2 then l else l ++ [x].
Proof.
  induction l as [|y l IH]; simpl.
  - by destruct (is_iter x.2).
  - unfold has_iter in *. simpl. destruct (is_iter y.2); simpl; [done|].
    rewrite IH. destruct (existsb _ l); [done|].
    by destruct (is_iter x.2).
Qed.

Lemma from_iter_snoc l x :
  from_iter (l ++ [x]) = if has_iter l then from_iter l ++ [x] else [].
Proof.
  induction l as [|y l IH]; simpl.
  - by destruct (is_iter x.2).
  - unfold has_iter in *. simpl. destruct (is_iter y.2); simpl; [done|].
    by rewrite IH.
Qed.

Lemma until_iter_none l : has_iter l = false → until_iter l = l.
Proof.
  induction l as [|y l IH]; simpl; [done|].
  unfold has_iter in *. simpl. destruct (is_iter y.2); simpl; [done|].
  intros H. by rewrite IH.
Qed.

Lemma from_iter_none l : has_iter l = false → from_iter l = [].
Proof.
  induction l as [|y l IH]; simpl; [done|].
  unfold has_iter in *. simpl. destruct (is_iter y.2); simpl; [done|].
  done.
Qed.

Lemma done_order_snoc l x :
  done_order (l ++ [x]) = done_order l ++ from_option (λ f, [f]) [] (done_of x).
Proof.
  unfold done_order. rewrite omap_app. simpl. by destruct (done_of x).
Qed.

Lemma done_order_split l :
  done_order l ≡ₚ done_order (until_iter l) ++ done_order (from_iter l).
Proof.
  induction l as [|[t ev] l IH]; simpl; [done|].
  destruct ev; simpl; try done;
    unfold done_order in *; simpl; by f_equiv.
Qed.

Lemma elem_of_done_order l f :
  f ∈ done_order l ↔ (0 < count_ev (is_done f) l)%nat.
Proof.
  induction l as [|[t ev] l IH]; simpl.
  - split; [by intros ?%elem_of_nil|lia].
  - unfold done_order in *. simpl. unfold done_of at 1. simpl.
    destruct ev; simpl; try (rewrite IH; done).
    rewrite elem_of_cons, IH. case_bool_decide; subst.
    + split; [lia|auto].
    + split; [by intros [|]|auto].
Qed.

Lemma NoDup_done_order l :
  (∀ f, count_ev (is_done f) l ≤ 1)%nat → NoDup (done_order l).
Proof.
  induction l as [|[t ev] l IH]; simpl; [constructor|].
  intros H. unfold done_order in *. simpl. unfold done_of at 1. simpl.
  assert (∀ f, (count_ev (is_done f) l ≤ 1)%nat) as Hl.
  { intros f. specialize (H f). lia. }
  destruct ev; simpl; auto.
  apply NoDup_cons. split; [|auto].
  intros Hin%elem_of_done_order. specialize (H f). simpl in H.
  rewrite bool_decide_eq_true_2 in H by done. lia.
Qed.

Lemma done_order_finished s f :
  inv_log s → f ∈ done_order (log s) ↔ is_finished (futures s) f = true.
Proof.
  intros HD. rewrite elem_of_done_order, (iD_dones _ HD).
  unfold is_finished, expected_dones.
  destruct (futures s !! f) as [[p t [|pc|r]]|]; simpl; split;
    (lia || done).
Qed.

Lemma NoDup_done_log s : inv_log s → NoDup (done_order (log s)).
Proof.
  intros HD. apply NoDup_done_order. intros f. rewrite (iD_dones _ HD).
  unfold expected_dones.
  destruct (futures s !! f) as [[p t [|pc|r]]|]; simpl; lia.
Qed.

Lemma inv_order_init W pl : inv_order (init W pl).
Proof. split. simpl. by destruct (W <=? 0). Qed.

Lemma inv_order_frame s s' :
  log s' = log s → waiter s' = waiter s → collected s' = collected s →
  match main s, main s' with
  | MSubmit _, MSubmit _ => True
  | MJoin e, MDone e' => e = e'
  | MCollect _ _, MJoin (Some _) => True
  | m, m' => m = m'
  end →
  inv_order s → inv_order s'.
Proof.
  intros Hl Hw Hc Hm [H1]. split.
  unfold collected_futures in *. rewrite Hl, ?Hw, Hc.
  destruct (main s) as [|fin pend|e|e], (main s') as [|fin' pend'|e'|e'];
    simplify_eq; try done.
  by destruct e'.
Qed.

(** A worker step that records an event other than a completion. *)
Lemma inv_order_event s s' ev :
  log s' = log s ++ [(now s, ev)] →
  waiter s' = waiter s → collected s' = collected s → main s' = main s →
  is_iter ev = false → done_of (now s, ev) = None →
  inv_order s → inv_order s'.
Proof.
  intros Hl Hw Hc Hm Hev Hdone [H1]. split.
  unfold collected_futures in *. rewrite Hl, ?Hw, Hc, Hm.
  rewrite has_iter_snoc, until_iter_snoc, from_iter_snoc. simpl. rewrite Hev.
  destruct (main s) as [|fin pend|[]|[]]; try done.
  - rewrite H1. done.
  - destruct H1 as (pre & post & fs & Hi & ? & ? & ? & ? & ?).
    exists pre, post, fs. rewrite Hi in *. simpl.
    rewrite done_order_snoc, Hdone. simpl. rewrite app_nil_r. done.
  - destruct H1 as (pre & post & Hi & ? & ? & ?).
    exists pre, post. rewrite Hi in *. simpl.
    rewrite done_order_snoc, Hdone. simpl. rewrite app_nil_r. done.
  - destruct H1 as (pre & post & Hi & ? & ? & ?).
    exists pre, post. rewrite Hi in *. simpl.
    rewrite done_order_snoc, Hdone. simpl. rewrite app_nil_r. done.
Qed.

Lemma all_collected_finished s f fu :
  inv_collect s →
  (∀ g, (g < length (futures s))%nat → g ∈ collected_futures s) →
  futures s !! f = Some fu → ∃ r, fut_state fu = FINISHED r.
Proof.
  intros HC Hall Hfu.
  assert (f ∈ collected_futures s) as Hin.
  { apply Hall. by eapply lookup_lt_Some. }
  apply collected_futures_entry in Hin as (pr & r & Hin).
  apply (iC_entries _ HC) in Hin as (fu' & Hfu' & _ & Hst).
  exists r. congruence.
Qed.

Lemma inv_order_trans W pl s s' :
  trans W s s' → inv_submit W pl s → inv_collect s → inv_log s →
  inv_order s → inv_order s'.
Proof.
  intros Ht HA HC HD HE.
  destruct Ht.
  - (* tick *)
    apply (inv_order_frame s); simpl; try done. by destruct (main s).
  - (* submit *)
    destruct HE as [Q]. rewrite H in Q. split. simpl.
    rewrite has_iter_snoc, Q. done.
  - (* as_completed *)
    destruct HE as [Q]. rewrite H in Q. split. simpl.
    exists [], [], []. rewrite has_iter_snoc, until_iter_snoc, from_iter_snoc.
    rewrite Q. simpl.
    destruct HC as [Q1 _ _ _]. rewrite H in Q1. destruct Q1 as [_ Hc].
    unfold collected_futures. simpl. rewrite Hc.
    split; [done|]. split; [done|]. split; [done|]. split; [|done].
    intros f. split.
    + intros Hf. right. apply elem_of_filter. split.
      * by apply (done_order_finished _ _ HD).
      * apply elem_of_dom, (dict_lookup_lt _ _ _ _ HA).
        apply (done_order_finished _ _ HD), is_finished_spec in Hf as [r Hf].
        by eapply fstate_of_lt.
    + intros [?%elem_of_nil|[Hf _]%elem_of_filter]; [done|].
      by apply (done_order_finished _ _ HD).
  - (* loop end *)
    destruct HE as [Q]. rewrite H in Q. split. simpl.
    destruct Q as (pre & post & fs & Hi & Hw & Hc & Hpre & Hpost & _).
    exists pre, post. split; [done|]. split; [done|]. split.
    + intros f. rewrite Hpre. split; [|auto].
      intros [?|?%elem_of_empty]; done.
    + destruct HC as [Q1 _ _ _]. rewrite H in Q1.
      destruct Q1 as (fs' & Hw' & []).
      assert (fs' = fs) as -> by congruence.
      destruct fs as [|f fs]; [by rewrite app_nil_r in Hpost|].
      assert (f ∈ f :: fs) as [?%elem_of_empty _]%cl_waiter0 by by left. done.
  - (* fail *)
    split. simpl. done.
  - (* key error *)
    split. simpl. done.
  - (* report, from the finished set *)
    destruct HE as [Q]. rewrite H in Q. split. simpl.
    destruct Q as (pre & post & fs & Hi & Hw & Hc & Hpre & Hpost & Hfin).
    assert (post = []) as -> by (apply Hfin; intros ->; by apply elem_of_empty in H0).
    exists (pre ++ [f]), [], fs. split; [done|]. split; [done|].
    rewrite app_nil_r in *. split.
    { unfold collected_futures in *. simpl. rewrite map_app, Hc. done. }
    split; [|done].
    intros g. rewrite Hpre, elem_of_snoc, elem_of_difference, elem_of_singleton.
    destruct (decide (g = f)) as [->|]; tauto.
  - (* report, from the waiter *)
    destruct HE as [Q]. rewrite H in Q. split. simpl.
    destruct Q as (pre & post & fs' & Hi & Hw & Hc & Hpre & Hpost & Hfin).
    assert (fs' = f :: fs) as -> by congruence.
    exists pre, (post ++ [f]), fs. split; [done|]. split; [done|].
    split.
    { unfold collected_futures in *. simpl. rewrite map_app, Hc. simpl.
      by rewrite app_assoc. }
    split; [done|]. split; [|done].
    by rewrite <- app_assoc.
  - (* join *)
    apply (inv_order_frame s); simpl; try done. by rewrite H.
  - (* take *)
    rewrite (take_unfold _ _ _ _ _ H1).
    eapply (inv_order_event s _ (EvStart f)); simpl; done.
  - (* worker exit *)
    apply (inv_order_frame s); simpl; try done. by destruct (main s).
  - (* enter wait *)
    eapply (inv_order_event s _ (EvWait f)); simpl; done.
  - (* finish *)
    destruct HE as [Q]. split. simpl.
    rewrite has_iter_snoc, until_iter_snoc, from_iter_snoc. simpl.
    rewrite orb_false_r.
    assert (Hall : (∀ g, (g < length (futures s))%nat → g ∈ collected_futures s) → False).
    { intros Hall. destruct (all_collected_finished _ _ _ HC Hall H0) as [r' ?].
      congruence. }
    destruct (main s) as [|fin pend|[]|[]] eqn:Hm; try done.
    + destruct Q as (pre & post & fs & Hi & Hw & Hc & Hpre & Hpost & Hfin).
      exists pre, post, (fs ++ [f]). rewrite Hi, Hw. simpl.
      split; [done|]. split; [done|]. split; [done|]. split; [done|].
      split; [|done].
      rewrite done_order_snoc. simpl. by rewrite app_assoc, Hpost.
    + exfalso. apply Hall. destruct HC as [Q1 _ _ _]. by rewrite Hm in Q1.
    + exfalso. apply Hall. destruct HC as [Q1 _ _ _]. by rewrite Hm in Q1.
  - (* interrupt *)
    by split.
Qed.

(** ** Occupied slots *)

Lemma filter_insert_length {A} (P : A → bool) (l : list A) i x y :
  l !! i = Some x →
  (length (filter (λ a, P a = true) (<[i:=y]> l)) + (if P x then 1 else 0) =
   length (filter (λ a, P a = true) l) + (if P y then 1 else 0))%nat.
Proof.
  revert i. induction l as [|a l IH]; intros [|i] Hi; simplify_eq/=.
  - rewrite !filter_cons. destruct (P x), (P y); simpl;
      repeat case_decide; simpl; try done; lia.
  - specialize (IH _ Hi). rewrite !filter_cons.
    case_decide; simpl; lia.
Qed.

Lemma filter_snoc_length {A} (P : A → bool) (l : list A) x :
  length (filter (λ a, P a = true) (l ++ [x])) =
  (length (filter (λ a, P a = true) l) + (if P x then 1 else 0))%nat.
Proof.
  rewrite filter_app, length_app. f_equal. rewrite filter_cons.
  destruct (P x); case_decide; done.
Qed.

Lemma running_set_fstate f st fs fu :
  fs !! f = Some fu →
  (length (filter (λ fu, is_running fu = true) (set_fstate f st fs)) +
     (if is_running fu then 1 else 0) =
   length (filter (λ fu, is_running fu = true) fs) +
     (if is_running (with_state st fu) then 1 else 0))%nat.
Proof.
  intros Hfu. unfold set_fstate. rewrite Hfu.
  by apply filter_insert_length.
Qed.

Lemma inv_count_init W pl : inv_count (init W pl).
Proof. done. Qed.

Lemma inv_count_trans W s s' :
  trans W s s' → inv_pool W s → inv_count s → inv_count s'.
Proof.
  unfold inv_count, running_futures, busy_workers.
  intros Ht HB HN. destruct Ht; simpl; try done.
  - (* submit *)
    rewrite filter_snoc_length. simpl. rewrite Nat.add_0_r, HN.
    destruct (match idle_semaphore s with 0%nat => _ | S _ => _ end); [|done].
    rewrite filter_snoc_length. simpl. lia.
  - (* take *)
    rewrite (take_unfold _ _ _ _ _ H1). simpl.
    assert (Hp : fut_state fu = PENDING).
    { assert (fstate_of (futures s) f = Some PENDING) as Hp.
      { apply (iB_queue _ _ HB). rewrite H0. by left. }
      rewrite (fstate_of_Some _ _ _ H1) in Hp. congruence. }
    pose proof (running_set_fstate f (RUNNING InStart) _ _ H1) as Hf.
    pose proof (filter_insert_length is_busy _ _ _ (WRun f) H) as Hw.
    replace (is_running fu) with false in Hf
      by (unfold is_running; by rewrite Hp).
    change (is_running (with_state _ fu)) with true in Hf. simpl in *. lia.
  - (* worker exit *)
    pose proof (filter_insert_length is_busy _ _ _ WExited H) as Hw.
    simpl in *. lia.
  - (* enter wait *)
    pose proof (running_set_fstate f (RUNNING InWait) _ _ H0) as Hf.
    replace (is_running fu) with true in Hf
      by (unfold is_running; by rewrite H1).
    change (is_running (with_state _ fu)) with true in Hf. simpl in *. lia.
  - (* finish *)
    pose proof (running_set_fstate f (FINISHED r) _ _ H0) as Hf.
    pose proof (filter_insert_length is_busy _ _ _ WIdle H) as Hw.
    replace (is_running fu) with true in Hf
      by (unfold is_running; by rewrite H1).
    change (is_running (with_state _ fu)) with false in Hf. simpl in *. lia.
Qed.

Lemma busy_workers_le s : (busy_workers s ≤ length (threads s))%nat.
Proof. apply length_filter. Qed.

Lemma all_busy s i w :
  busy_workers s = length (threads s) → threads s !! i = Some w →
  is_busy w = true.
Proof.
  unfold busy_workers. generalize (threads s). clear s.
  intros l. revert i. induction l as [|a l IH]; intros i Hlen Hi; [done|].
  rewrite filter_cons in Hlen.
  pose proof (length_filter (λ w, is_busy w = true) l) as Hle.
  case_decide as Ha; simpl in Hlen; [|lia].
  destruct i as [|i]; simplify_eq/=; eauto.
Qed.

(** ** The console *)

Lemma elem_of_start_order l f :
  f ∈ start_order l ↔ (0 < count_ev (is_start f) l)%nat.
Proof.
  induction l as [|[t ev] l IH]; simpl.
  - split; [by intros ?%elem_of_nil|lia].
  - unfold start_order in *. simpl. unfold start_of at 1. simpl.
    destruct ev; simpl; try (rewrite IH; done).
    rewrite elem_of_cons, IH. case_bool_decide; subst.
    + split; [lia|auto].
    + split; [by intros [|]|auto].
Qed.

Lemma NoDup_start_order l :
  (∀ f, count_ev (is_start f) l ≤ 1)%nat → NoDup (start_order l).
Proof.
  induction l as [|[t ev] l IH]; simpl; [constructor|].
  intros H. unfold start_order in *. simpl. unfold start_of at 1. simpl.
  assert (∀ f, (count_ev (is_start f) l ≤ 1)%nat) as Hl.
  { intros f. specialize (H f). lia. }
  destruct ev; simpl; auto.
  apply NoDup_cons. split; [|auto].
  intros Hin%elem_of_start_order. specialize (H f). simpl in H.
  rewrite bool_decide_eq_true_2 in H by done. lia.
Qed.

Lemma start_order_snoc l x :
  start_order (l ++ [x]) =
  start_order l ++ from_option (λ f, [f]) [] (start_of x).
Proof.
  unfold start_order. rewrite omap_app. simpl. by destruct (start_of x).
Qed.

Lemma name_of_set f st fs g : name_of (set_fstate f st fs) g = name_of fs g.
Proof.
  unfold name_of. rewrite set_fstate_lookup_full. case_decide; [|done].
  by destruct (fs !! g).
Qed.

Lemma name_of_snoc fs fu g :
  (g < length fs)%nat → name_of (fs ++ [fu]) g = name_of fs g.
Proof. intros H. unfold name_of. by rewrite lookup_app_l. Qed.

Lemma started_lt s f :
  inv_log s → f ∈ start_order (log s) → (f < length (futures s))%nat.
Proof.
  intros HD Hf%elem_of_start_order. rewrite (iD_starts _ HD) in Hf.
  apply lookup_lt_is_Some. destruct (futures s !! f); [eauto|simpl in Hf; lia].
Qed.

Lemma inv_console_init W pl : inv_console (init W pl).
Proof. split; done. Qed.

Lemma inv_console_frame s s' :
  filter (λ l, is_summary l = false) (stdout s') =
    filter (λ l, is_summary l = false) (stdout s) →
  start_order (log s') = start_order (log s) →
  (∀ g, name_of (futures s') g = name_of (futures s) g) →
  length (threads s') = length (threads s) →
  length (futures s') = length (futures s) →
  inv_console s → inv_console s'.
Proof.
  intros Ho Hl Hn Ht Hf [H1 H2]. split.
  - rewrite Ho, Hl, H1. apply map_ext. intros g. unfold start_line.
    by rewrite Hn.
  - by rewrite Ht, Hf.
Qed.

Lemma filter_snoc_summary pr r (out : list line) :
  filter (λ l, is_summary l = false) (out ++ [summary pr r]) =
  filter (λ l, is_summary l = false) out.
Proof.
  rewrite filter_app, filter_cons_False, filter_nil, app_nil_r; [done|].
  by rewrite summary_is_summary.
Qed.

Lemma inv_console_trans W s s' :
  trans W s s' → inv_log s → inv_console s → inv_console s'.
Proof.
  intros Ht HD HF.
  destruct Ht;
    try (apply (inv_console_frame s); simpl;
         rewrite ?filter_snoc_summary, ?start_order_snoc, ?app_nil_r,
                 ?length_insert, ?set_fstate_length;
         try done; intros g; by rewrite name_of_set).
  - (* submit *)
    destruct HF as [H1 H2]. split; simpl.
    + rewrite start_order_snoc. simpl. rewrite app_nil_r, H1.
      apply map_ext_in. intros g Hg%list_elem_of_In. unfold start_line.
      rewrite name_of_snoc; [done|]. by apply started_lt.
    + rewrite length_app. simpl.
      destruct (match idle_semaphore s with 0%nat => _ | S _ => _ end);
        rewrite ?length_app; simpl; lia.
  - (* take *)
    rewrite (take_unfold _ _ _ _ _ H1).
    destruct HF as [Q1 Q2]. split; simpl.
    + rewrite start_order_snoc, map_app, filter_app. simpl.
      rewrite filter_cons_True by done. rewrite filter_nil.
      f_equal.
      * rewrite Q1. apply map_ext. intros g. unfold start_line.
        by rewrite name_of_set.
      * unfold start_line. rewrite name_of_set. unfold name_of.
        by rewrite H1.
    + by rewrite length_insert, set_fstate_length.
Qed.

(** ** All invariants hold in every run *)

Lemma inv_init W pl : inv W pl (init W pl).
Proof.
  split.
  - apply inv_submit_init.
  - apply inv_pool_init.
  - apply (inv_collect_init W pl).
  - apply (inv_log_init W pl).
  - apply (inv_order_init W pl).
  - apply (inv_count_init W pl).
  - apply (inv_console_init W pl).
Qed.

Lemma inv_trans W pl s s' : trans W s s' → inv W pl s → inv W pl s'.
Proof.
  intros Ht []. split.
  - by eapply inv_submit_trans.
  - by eapply inv_pool_trans.
  - by eapply inv_collect_trans.
  - by eapply inv_log_trans.
  - by eapply inv_order_trans.
  - by eapply inv_count_trans.
  - by eapply inv_console_trans.
Qed.

Lemma inv_step W pl a s : inv W pl s → inv W pl (step W a s).
Proof.
  intros Hinv. destruct (step_trans W a s) as [->|Ht]; [done|].
  by eapply inv_trans.
Qed.

Lemma inv_run_from W pl acts s :
  inv W pl s → inv W pl (run_from W s acts).
Proof.
  revert s. induction acts as [|a acts IH]; intros s Hs; simpl; [done|].
  apply IH. by apply inv_step.
Qed.

Lemma inv_run W pl acts : inv W pl (run W pl acts).
Proof. apply inv_run_from, inv_init. Qed.

Lemma run_from_app W s acts acts' :
  run_from W s (acts ++ acts') = run_from W (run_from W s acts) acts'.
Proof. unfold run_from. by rewrite fold_left_app. Qed.

Lemma run_app W pl acts acts' :
  run W pl (acts ++ acts') = run_from W (run W pl acts) acts'.
Proof. apply run_from_app. Qed.

(** A property that the initial state has and that every transition keeps
    holds in every run. *)
Lemma run_invariant W pl (J : state → Prop) :
  J (init W pl) →
  (∀ s s', inv W pl s → J s → trans W s s' → J s') →
  ∀ acts, J (run W pl acts).
Proof.
  intros Hinit Hstep acts. unfold run.
  assert (Hi : inv W pl (init W pl)) by apply inv_init.
  revert Hinit Hi. generalize (init W pl).
  induction acts as [|a acts IH]; intros s HJ Hinv; [done|].
  simpl. apply IH.
  - destruct (step_trans W a s) as [->|Ht]; [done|]. by eapply Hstep.
  - by apply inv_step.
Qed.

(** ** Progress *)

Lemma sum_insert {A} (w : A → nat) (l : list A) i x y :
  l !! i = Some x →
  (sum_list_with w (<[i:=y]> l) + w x = sum_list_with w l + w y)%nat.
Proof.
  revert i. induction l as [|a l IH]; intros [|i] Hi; simplify_eq/=.
  - lia.
  - specialize (IH _ Hi). lia.
Qed.

Lemma sum_set_fstate f st fs fu :
  fs !! f = Some fu →
  (sum_list_with fweight (set_fstate f st fs) + fweight fu =
   sum_list_with fweight fs + fweight (with_state st fu))%nat.
Proof.
  intros Hfu. unfold set_fstate. rewrite Hfu. by apply sum_insert.
Qed.

Lemma size_remove (X : gset nat) f :
  f ∈ X → (size (X ∖ {[f]}) < size X)%nat.
Proof.
  intros Hf. by apply subset_size, subset_difference_elem_of.
Qed.

Ltac sproj :=
  cbn [now main threads idle_semaphore work_queue shutdown futures allFutures
       waiter stdout collected log tick submit as_completed exit_with report
       join enter_wait finish exit_worker] in *.

Lemma trans_measure W pl s s' :
  inv W pl s → trans W s s' → now s' = now s →
  (measure s' < measure s)%nat.
Proof.
  intros Hinv Ht Hnow. unfold measure, mweight.
  destruct Ht; sproj.
  - lia.
  - (* submit *)
    rewrite H. rewrite !sum_list_with_app. simpl sum_list_with.
    rewrite dom_insert_L, size_union_alt, size_singleton.
    assert (size (dom (allFutures s) ∖ {[length (futures s)]})
            ≤ size (dom (allFutures s)))%nat
      by (apply subseteq_size; apply subseteq_difference_l; done).
    simpl length.
    destruct (match idle_semaphore s with 0%nat => _ | S _ => _ end);
      rewrite ?sum_list_with_app; simpl sum_list_with; unfold fweight;
      simpl; lia.
  - (* as_completed *)
    rewrite H. simpl length.
    set (X := dom (allFutures s)).
    set (Y := filter (λ f, is_finished (futures s) f = true) X).
    assert (Y ⊆ X) as HY by (intros x [_ ?]%elem_of_filter; done).
    rewrite (size_difference X Y HY).
    apply subseteq_size in HY. lia.
  - rewrite H. lia.
  - destruct (main s); try done; lia.
  - rewrite H. lia.
  - (* report *)
    rewrite H. pose proof (size_remove _ _ H0). lia.
  - rewrite H.
    assert (f ∈ pending) as Hf.
    { destruct (inv_C _ _ _ Hinv) as [Q _ _ _]. rewrite H in Q.
      destruct Q as (fs' & Hw & []).
      assert (fs' = f :: fs) as -> by congruence.
      apply cl_waiter0. by left. }
    pose proof (size_remove _ _ Hf). lia.
  - rewrite H. lia.
  - (* take *)
    rewrite (take_unfold _ _ _ _ _ H1). sproj.
    assert (Hp : fut_state fu = PENDING).
    { assert (fstate_of (futures s) f = Some PENDING) as Hp.
      { apply (iB_queue _ _ (inv_B _ _ _ Hinv)). rewrite H0. by left. }
      rewrite (fstate_of_Some _ _ _ H1) in Hp. congruence. }
    pose proof (sum_set_fstate f (RUNNING InStart) _ _ H1) as Hf.
    pose proof (sum_insert wweight _ _ _ (WRun f) H) as Hw.
    replace (fweight fu) with 3%nat in Hf by (unfold fweight; by rewrite Hp).
    change (fweight (with_state _ fu)) with 2%nat in Hf.
    simpl wweight in Hw. destruct (main s); lia.
  - (* worker exit *)
    pose proof (sum_insert wweight _ _ _ WExited H) as Hw.
    simpl wweight in Hw. destruct (main s); lia.
  - (* enter wait *)
    pose proof (sum_set_fstate f (RUNNING InWait) _ _ H0) as Hf.
    replace (fweight fu) with 2%nat in Hf by (unfold fweight; by rewrite H1).
    change (fweight (with_state _ fu)) with 1%nat in Hf.
    destruct (main s); lia.
  - (* finish *)
    pose proof (sum_set_fstate f (FINISHED r) _ _ H0) as Hf.
    pose proof (sum_insert wweight _ _ _ WIdle H) as Hw.
    change (fweight (with_state _ fu)) with 0%nat in Hf.
    simpl wweight in Hw.
    assert (1 ≤ fweight fu)%nat
      by (unfold fweight; rewrite H1; destruct pc; lia).
    destruct (main s); lia.
  - (* interrupt *)
    rewrite H. lia.
Qed.

Lemma forallb_false_lookup {A} (p : A → bool) (l : list A) :
  forallb p l = false → ∃ i x, l !! i = Some x ∧ p x = false.
Proof.
  induction l as [|a l IH]; simpl; [done|].
  destruct (p a) eqn:Ha; simpl.
  - intros (i & x & ? & ?)%IH. by exists (S i), x.
  - intros _. by exists 0%nat, a.
Qed.

Lemma finished_lookup fs f :
  is_finished fs f = true →
  ∃ fu r, fs !! f = Some fu ∧ fut_state fu = FINISHED r.
Proof.
  unfold is_finished. destruct (fs !! f) as [[p t [|pc|r]]|]; try done.
  intros _. by eexists _, r.
Qed.

Lemma advances_run W pl s i f :
  inv W pl s → threads s !! i = Some (WRun f) → advances W s (Worker i).
Proof.
  intros Hinv Hi.
  destruct (iB_run _ _ (inv_B _ _ _ Hinv) _ _ Hi) as [pc Hpc].
  unfold fstate_of in Hpc.
  destruct (futures s !! f) as [fu|] eqn:Hfu; [|done].
  injection Hpc as Hpc.
  split; [done|]. simpl. unfold worker_step. rewrite Hi, Hfu, Hpc.
  unfold thread_function. destruct pc.
  - destruct (analyze_and_model (fut_project fu)) eqn:Ha.
    + split; [|done]. by econstructor.
    + split; [|done]. eapply T_finish; eauto. by constructor.
  - destruct (wait_for_autopilot (fut_project fu)) eqn:Ha.
    + split; [|done]. eapply T_finish; eauto. by constructor.
    + split; [|done]. eapply T_finish; eauto. by constructor.
Qed.

Lemma advances_idle W pl s i :
  inv W pl s → threads s !! i = Some WIdle →
  work_queue s ≠ [] ∨ shutdown s = true →
  advances W s (Worker i).
Proof.
  intros Hinv Hi Hq. split; [done|]. simpl. unfold worker_step. rewrite Hi.
  destruct (work_queue s) as [|f q] eqn:Hwq.
  - destruct Hq as [?|Hsh]; [done|]. rewrite Hsh.
    split; [|done]. by apply T_exit_worker.
  - assert (fstate_of (futures s) f = Some PENDING) as Hp.
    { apply (iB_queue _ _ (inv_B _ _ _ Hinv)). rewrite Hwq. by left. }
    unfold fstate_of in Hp.
    destruct (futures s !! f) as [fu|] eqn:Hfu; [|done].
    split; [by econstructor|].
    by rewrite (take_unfold _ _ _ _ _ Hfu).
Qed.

Lemma advances_thread W pl s i w :
  inv W pl s → threads s !! i = Some w → w ≠ WExited →
  work_queue s ≠ [] ∨ shutdown s = true →
  advances W s (Worker i).
Proof.
  intros Hinv Hi Hw Hq. destruct w as [|f|]; [| |done].
  - by eapply advances_idle.
  - by eapply advances_run.
Qed.

Lemma progress W pl s :
  inv W pl s → ¬ finished_run s → ∃ a, advances W s a.
Proof.
  intros Hinv Hnot.
  pose proof (inv_B _ _ _ Hinv) as HB.
  pose proof (inv_C _ _ _ Hinv) as HC.
  destruct (main s) as [[|pr rest]|fin pend|e|e] eqn:Hm.
  - exists (Main 0). split; [done|]. simpl. unfold main_step. rewrite Hm.
    split; [|done]. by constructor.
  - exists (Main 0). split; [done|]. simpl. unfold main_step. rewrite Hm.
    split; [|done]. by constructor.
  - destruct HC as [Q _ _ _]. rewrite Hm in Q.
    destruct Q as (fs & Hw & []).
    destruct (decide (fin = ∅)) as [->|Hfin].
    + destruct (decide (pend = ∅)) as [->|Hpend].
      * exists (Main 0). split; [done|]. simpl. unfold main_step. rewrite Hm.
        rewrite !bool_decide_eq_true_2 by done.
        split; [|done]. by constructor.
      * destruct fs as [|f fs].
        -- apply set_choose_L in Hpend as [g Hg].
           assert (is_finished (futures s) g = false) as Hnf.
           { destruct (is_finished (futures s) g) eqn:Hf; [|done].
             assert (g ∈ []) as ?%elem_of_nil by by apply cl_waiter0. done. }
           assert (g < length (futures s))%nat as Hlt by (apply cl_range0; auto).
           apply lookup_lt_is_Some in Hlt as [fu Hfu].
           destruct (fut_state fu) as [|pc|r] eqn:Hst.
           ++ assert (g ∈ work_queue s) as Hq.
              { apply (iB_queue _ _ HB). unfold fstate_of.
                by rewrite Hfu; simpl; rewrite Hst. }
              destruct (threads s) as [|w ws] eqn:Hth.
              { destruct (iB_nothreads _ _ HB Hth) as [Hfs _].
                by rewrite Hfs in Hfu. }
              exists (Worker 0). eapply (advances_thread _ _ _ _ w); eauto.
              ** by rewrite Hth.
              ** intros ->.
                 destruct (iB_exited _ _ HB 0%nat) as [Hsh _];
                   [by rewrite Hth|].
                 pose proof (iB_shutdown _ _ HB) as Hs. rewrite Hm in Hs.
                 congruence.
              ** left. intros Hnil. rewrite Hnil in Hq.
                 by apply elem_of_nil in Hq.
           ++ destruct (iB_run_inv _ _ HB g pc) as [i Hi].
              { unfold fstate_of. by rewrite Hfu; simpl; rewrite Hst. }
              exists (Worker i). by eapply advances_run.
           ++ rewrite (is_finished_lookup _ _ _ _ Hfu Hst) in Hnf. done.
        -- assert (f ∈ pend ∧ is_finished (futures s) f = true) as [Hf Hfd]
             by (apply cl_waiter0; by left).
           apply finished_lookup in Hfd as (fu & r & Hfu & Hst).
           assert (is_Some (allFutures s !! f)) as [pr Hpr].
           { apply (dict_lookup_lt _ _ _ _ (inv_A _ _ _ Hinv)).
             by eapply lookup_lt_Some. }
           exists (Main 0). split; [done|]. simpl. unfold main_step.
           rewrite Hm, Hw. rewrite bool_decide_eq_true_2 by done.
           rewrite bool_decide_eq_false_2 by done.
           unfold loop_body. rewrite Hpr, Hfu.
           destruct fu as [p t st]. simpl in Hst. subst st.
           split; [|done].
           eapply (T_report_waited W s f pr _ r); eauto.
    + apply set_choose_L in Hfin as [f Hf].
      pose proof (cl_finished0 _ Hf) as Hfd.
      apply finished_lookup in Hfd as (fu & r & Hfu & Hst).
      assert (is_Some (allFutures s !! f)) as [pr Hpr].
      { apply (dict_lookup_lt _ _ _ _ (inv_A _ _ _ Hinv)).
        by eapply lookup_lt_Some. }
      exists (Main f). split; [done|]. simpl. unfold main_step.
      rewrite Hm. rewrite bool_decide_eq_false_2 by (intros ->; by apply elem_of_empty in Hf).
      rewrite bool_decide_eq_true_2 by done.
      unfold loop_body. rewrite Hpr, Hfu.
      destruct fu as [p t st]. simpl in Hst. subst st.
      split; [|done].
      eapply (T_report_finished W s f pr _ r); eauto.
  - destruct (all_exited s) eqn:Hall.
    + exists (Main 0). split; [done|]. simpl. unfold main_step.
      rewrite Hm, Hall. split; [|done]. by constructor.
    + apply forallb_false_lookup in Hall as (i & w & Hi & Hw).
      exists (Worker i). eapply advances_thread; eauto.
      * by destruct w.
      * right. pose proof (iB_shutdown _ _ HB) as Hs. by rewrite Hm in Hs.
  - destruct Hnot. by exists e.
Qed.

Lemma terminates_from W pl s :
  inv W pl s →
  ∃ acts, fault_free acts ∧ finished_run (run_from W s acts).
Proof.
  remember (measure s) as n eqn:Hn. revert s Hn.
  induction (lt_wf n) as [n _ IH]. intros s -> Hinv.
  destruct (main s) as [rest|fin pend|e|e] eqn:Hm;
    try (destruct (progress W pl s Hinv) as (a & Ha & Ht & Hnow);
         [intros [e' He']; congruence|];
         destruct (IH (measure (step W a s))
                      (trans_measure _ _ _ _ Hinv Ht Hnow) _ eq_refl)
           as (acts & Hff & Hfin); [by apply inv_step|];
         exists (a :: acts); split; [|done];
         unfold fault_free in *; rewrite elem_of_cons;
         intros [?|?]; done).
  exists []. split; [by intros ?%elem_of_nil|]. by exists e.
Qed.

(** ** Exceptions leaving the cell *)

Lemma worker_step_main i s : main (worker_step i s) = main s.
Proof.
  unfold worker_step.
  destruct (threads s !! i) as [[|f|]|]; try done.
  - destruct (work_queue s) as [|f q].
    + by destruct (shutdown s).
    + unfold take. by destruct (futures s !! f).
  - destruct (futures s !! f) as [fu|]; [|done].
    destruct (fut_state fu) as [|pc|r]; try done.
    unfold thread_function.
    destruct pc, (analyze_and_model (fut_project fu)),
      (wait_for_autopilot (fut_project fu)); done.
Qed.

Lemma loop_body_no_raise W pl s f fin pend fin' pend' w' :
  inv W pl s → main s = MCollect fin pend →
  f ∈ fin ∨ f ∈ pend →
  ¬ raising (main (loop_body f fin' pend' w' s)).
Proof.
  intros Hinv Hm Hf.
  destruct (loop_body_cases f fin' pend' w' s)
    as [->|[[Hk _]|(pr & fu & r & _ & _ & _ & ->)]].
  - rewrite Hm. simpl. tauto.
  - pose proof (inv_C _ _ _ Hinv) as [Q _ _ _]. rewrite Hm in Q.
    destruct Q as (fs & _ & []).
    apply cl_range0, (dict_lookup_lt _ _ _ _ (inv_A _ _ _ Hinv)) in Hf
      as [pr Hpr].
    congruence.
  - simpl. tauto.
Qed.

Lemma step_no_raise W pl a s :
  inv W pl s → a ≠ Fault → ¬ raising (main s) →
  ¬ raising (main (step W a s)).
Proof.
  intros Hinv Ha Hs.
  destruct a as [|pick|i|]; simpl; try done.
  - unfold main_step.
    destruct (main s) as [[|pr rest]|fin pend|e|e] eqn:Hm;
      try (simpl; tauto).
    + case_bool_decide as Hfin.
      * case_bool_decide as Hpend; [simpl; tauto|].
        destruct (waiter s) as [[|f fs]|] eqn:Hw;
          try (rewrite Hm; simpl; tauto).
        eapply loop_body_no_raise; eauto.
        pose proof (inv_C _ _ _ Hinv) as [Q _ _ _]. rewrite Hm in Q.
        destruct Q as (fs' & Hw' & []).
        assert (fs' = f :: fs) as -> by congruence.
        right. apply cl_waiter0. by left.
      * case_bool_decide as Hpick; [|rewrite Hm; simpl; tauto].
        eapply loop_body_no_raise; eauto.
    + destruct (all_exited s); [|by rewrite Hm]. done.
    + by rewrite Hm.
  - by rewrite worker_step_main.
Qed.



Lemma run_from_no_raise W pl acts s :
  inv W pl s → fault_free acts → ¬ raising (main s) →
  ¬ raising (main (run_from W s acts)).
Proof.
  revert s. induction acts as [|a acts IH]; intros s Hinv Hff Hs; [done|].
  simpl. unfold fault_free in *. apply IH.
  - by apply inv_step.
  - intros Hin. apply Hff. by right.
  - apply (step_no_raise W pl); [done| |done].
    intros ->. apply Hff. by left.
Qed.

Lemma init_no_raise W pl : 0 < W → main (init W pl) = MSubmit pl.
Proof. intros HW. simpl. destruct (Z.leb_spec W 0); [lia|done]. Qed.

Lemma run_no_raise W pl acts :
  0 < W → fault_free acts → ¬ raising (main (run W pl acts)).
Proof.
  intros HW Hff. apply (run_from_no_raise W pl); [apply inv_init|done|].
  rewrite init_no_raise by done. simpl. tauto.
Qed.

(** Every run can be carried on to the end of the cell; without faults
    the cell then returns normally. *)
Lemma run_completes W pl acts :
  ∃ acts', fault_free acts' ∧ finished_run (run W pl (acts ++ acts')).
Proof.
  destruct (terminates_from W pl (run W pl acts)) as (acts' & ? & ?).
  { apply inv_run. }
  exists acts'. by rewrite run_app.
Qed.

Lemma run_returns W pl acts :
  0 < W → fault_free acts →
  ∃ acts', fault_free acts' ∧ main (run W pl (acts ++ acts')) = MDone None.
Proof.
  intros HW Hff. destruct (run_completes W pl acts) as (acts' & Hff' & [e He]).
  exists acts'. split; [done|].
  assert (fault_free (acts ++ acts')) as Hall.
  { unfold fault_free in *. rewrite elem_of_app. tauto. }
  pose proof (run_no_raise W pl _ HW Hall) as Hr. rewrite He in Hr.
  destruct e; [by destruct Hr|done].
Qed.

Lemma aborted_step W a s : aborted s → aborted (step W a s).
Proof.
  intros (Hm & Ht & Hq & Hf & Hd & Ho & Hc & Hl & Hs).
  destruct a as [|pick|i|]; simpl.
  - done.
  - unfold main_step. by rewrite Hm.
  - unfold worker_step. by rewrite Ht.
  - unfold fail_step. by rewrite Hm.
Qed.

Lemma aborted_run W pl acts : W ≤ 0 → aborted (run W pl acts).
Proof.
  intros HW. unfold run.
  assert (aborted (init W pl)) as Hi.
  { unfold aborted. simpl. destruct (Z.leb_spec W 0); [done|lia]. }
  revert Hi. generalize (init W pl).
  induction acts as [|a acts IH]; intros s Hs; [done|].
  simpl. apply IH. by apply aborted_step.
Qed.

(** ** Consequences of the invariants *)

Lemma one_result_per_job_done W pl s :
  inv W pl s → main s = MDone None → one_result_per_job pl s.
Proof.
  intros Hinv Hm.
  destruct (inv_A _ _ _ Hinv) as [QA _ _]. rewrite Hm in QA.
  destruct (inv_C _ _ _ Hinv) as [QC Hnd Hent Hout]. rewrite Hm in QC.
  unfold all_submitted in QA.
  assert (Hlen : length (futures s) = length pl) by by rewrite <- QA, length_map.
  assert (Hperm : collected_futures s ≡ₚ seq 0 (length (futures s))).
  { apply NoDup_Permutation; [done|apply NoDup_seq|].
    intros f. rewrite elem_of_seq. split.
    - intros (pr & r & Hin)%collected_futures_entry.
      destruct (Hent _ _ _ Hin) as (fu & Hfu & _).
      apply lookup_lt_Some in Hfu. lia.
    - intros [_ Hlt]. apply QC. lia. }
  split; [|split; [done|split; [|done]]].
  - apply Permutation_length in Hperm.
    unfold collected_futures in Hperm.
    by rewrite length_map, length_seq, Hlen in Hperm.
  - intros f pr. split.
    + intros Hf.
      assert (f ∈ collected_futures s) as Hin.
      { apply QC. rewrite Hlen. by eapply lookup_lt_Some. }
      apply collected_futures_entry in Hin as (pr' & r & Hin).
      exists r. destruct (Hent _ _ _ Hin) as (fu & Hfu & Hpr & _).
      rewrite <- QA, list_lookup_fmap, Hfu in Hf. simpl in Hf.
      by simplify_eq.
    + intros [r Hin]. destruct (Hent _ _ _ Hin) as (fu & Hfu & Hpr & _).
      rewrite <- QA, list_lookup_fmap, Hfu. simpl. by rewrite Hpr.
Qed.















Lemma results_follow_projects W pl s f pr r :
  inv W pl s → (f, pr, r) ∈ collected s →
  pl !! f = Some pr ∧ allFutures s !! f = Some pr ∧ result_of pr r ∧
  ∃ fu, futures s !! f = Some fu ∧ fut_project fu = pr ∧
        fut_state fu = FINISHED r.
Proof.
  intros Hinv Hin.
  destruct (iC_entries _ (inv_C _ _ _ Hinv) _ _ _ Hin) as (fu & Hfu & Hpr & Hst).
  pose proof (iD_result _ (inv_D _ _ _ Hinv) _ _ _ Hfu Hst) as Hres.
  rewrite Hpr in Hres.
  destruct (inv_A _ _ _ Hinv) as [_ Hpre Hd].
  assert (map fut_project (futures s) !! f = Some pr) as Hm
    by (by rewrite list_lookup_fmap, Hfu; simpl; rewrite Hpr).
  split; [|split; [|split; [done|eauto]]].
  - destruct Hpre as [k ->]. by apply lookup_app_l_Some.
  - by rewrite Hd.
Qed.

Lemma raises_result pr e r : raises pr e → result_of pr r → r = Raised e.
Proof.
  unfold raises, result_of. intros [Ha|[Ha Hw]]; rewrite Ha.
  - intros ->. done.
  - rewrite Hw. done.
Qed.

Lemma pending_stays W s s' f :
  trans W s s' → inv_pool W s →
  (∀ i, threads s !! i ≠ Some WIdle) →
  fstate_of (futures s) f = Some PENDING →
  fstate_of (futures s') f = Some PENDING.
Proof.
  intros Ht HB Hidle Hp. destruct Ht; simpl; try done.
  - rewrite fstate_of_snoc_old; [done|]. by eapply fstate_of_lt.
  - by destruct (Hidle i).
  - rewrite fstate_of_set_ne; [done|]. intros <-.
    rewrite (fstate_of_Some _ _ _ H0), H1 in Hp. done.
  - rewrite fstate_of_set_ne; [done|]. intros <-.
    rewrite (fstate_of_Some _ _ _ H0), H1 in Hp. done.
Qed.


Lemma is_done_true f ev : is_done f ev = true → ∃ r, ev = EvDone f r.
Proof.
  destruct ev; simpl; try done. intros ->%bool_decide_eq_true. eauto.
Qed.

Lemma finished_has_done_event s f fu r :
  inv_log s → futures s !! f = Some fu → fut_state fu = FINISHED r →
  ∃ t, (t, EvDone f r) ∈ log s.
Proof.
  intros HD Hfu Hst.
  destruct (count_ev_pos (is_done f) (log s)) as (i & [t ev] & Hi & Hev).
  { rewrite (iD_dones _ HD), Hfu. simpl. unfold expected_dones.
    rewrite Hst. lia. }
  apply is_done_true in Hev as [r' Hev]. simpl in Hev. subst ev.
  apply list_elem_of_lookup_2 in Hi.
  destruct (iD_done _ HD _ _ _ Hi) as (fu' & Hfu' & Hst' & _).
  exists t. rewrite Hfu in Hfu'. injection Hfu' as <-.
  rewrite Hst in Hst'. by injection Hst' as <-.
Qed.

Lemma done_event_times s f r t_done :
  inv_log s → (t_done, EvDone f r) ∈ log s →
  ∃ t_submit t_start,
    (t_submit, EvSubmit f) ∈ log s ∧ (t_start, EvStart f) ∈ log s ∧
    t_submit ≤ t_start ∧ t_start ≤ t_done ∧
    fut_start_time <$> futures s !! f = Some t_submit ∧
    ∀ d, r = Elapsed d → d = t_done - t_submit.
Proof.
  intros HD Hin.
  destruct (iD_done _ HD _ _ _ Hin) as (fu & Hfu & Hst & Hd).
  apply list_elem_of_lookup_1 in Hin as [j Hj].
  destruct (iD_causal _ HD _ _ _ Hj) as (i & t_start & Hij & Hi).
  destruct (iD_causal _ HD _ _ _ Hi) as (k & t_submit & Hki & Hk).
  pose proof (iD_sorted _ HD i j _ _ ltac:(lia) Hi Hj) as H1.
  pose proof (iD_sorted _ HD k i _ _ ltac:(lia) Hk Hi) as H2.
  simpl in *.
  apply list_elem_of_lookup_2 in Hi, Hk.
  pose proof (iD_submit _ HD _ _ Hk) as Hsub.
  exists t_submit, t_start. repeat split; try done.
  intros d ->. rewrite Hfu in Hsub. simpl in Hsub. injection Hsub as <-.
  by apply Hd.
Qed.

Lemma collected_order_done W pl s :
  inv W pl s → main s = MDone None →
  ∃ pre post,
    collected_futures s = pre ++ post ∧
    pre ≡ₚ done_order (until_iter (log s)) ∧
    post = done_order (from_iter (log s)).
Proof.
  intros Hinv Hm. destruct (inv_E _ _ _ Hinv) as [Q]. rewrite Hm in Q.
  destruct Q as (pre & post & Hi & Hc & Hpre & Hpost).
  exists pre, post. split; [done|]. split; [|done].
  pose proof (iC_nodup _ (inv_C _ _ _ Hinv)) as Hnd.
  rewrite Hc in Hnd. apply NoDup_app in Hnd as (Hnd & _ & _).
  pose proof (NoDup_done_log _ (inv_D _ _ _ Hinv)) as Hnd'.
  rewrite done_order_split in Hnd'. apply NoDup_app in Hnd' as (Hnd' & _ & _).
  apply NoDup_Permutation; [done|done|]. intros f. by rewrite Hpre.
Qed.



(** ** The claims *)

(** C1.  With at least one worker, a run of the cell that returns has
    exactly one result per project of the list: as many results as
    projects, no future twice, every project with a result and every
    result for a project of the list at the position of its future, and
    one summary line per result.  Every run without a fault can be carried
    on until the cell returns. *)
Theorem dispatch_one_result_per_job W pl acts :
  1 ≤ W →
  (main (run W pl acts) = MDone None →
   one_result_per_job pl (run W pl acts)) ∧
  (fault_free acts →
   ∃ acts', fault_free acts' ∧ main (run W pl (acts ++ acts')) = MDone None).
Proof.
  intros HW. split.
  - apply (one_result_per_job_done W), inv_run.
  - apply run_returns. lia.
Qed.

Lemma dispatch_one_result_per_job_witness :
  one_result_per_job mixed_projects (run 5 mixed_projects mixed_schedule).
Proof.
  apply (dispatch_one_result_per_job 5 mixed_projects mixed_schedule).
  - lia.
  - vm_compute. reflexivity.
Defined.

(** C2.  A project one of whose remote calls raises [e] gets, in a run
    that returns, the result [Raised e] under its own future and an
    exception line with its name; all projects have their result, each
    determined by its own remote calls.  Without a fault in the body no
    exception leaves the cell, whatever the projects raise, and the run
    can be carried on until the cell returns. *)
Theorem failed_job_is_captured W pl acts f pr e :
  1 ≤ W → pl !! f = Some pr → raises pr e →
  (main (run W pl acts) = MDone None →
   (f, pr, Raised e) ∈ collected (run W pl acts) ∧
   ExceptionLine (project_name pr) e ∈ stdout (run W pl acts) ∧
   one_result_per_job pl (run W pl acts) ∧
   ∀ g pr' r, (g, pr', r) ∈ collected (run W pl acts) → result_of pr' r) ∧
  (fault_free acts →
   ¬ raising (main (run W pl acts)) ∧
   ∃ acts', fault_free acts' ∧ main (run W pl (acts ++ acts')) = MDone None).
Proof.
  intros HW Hf He. pose proof (inv_run W pl acts) as Hinv. split.
  - intros Hm.
    pose proof (one_result_per_job_done _ _ _ Hinv Hm) as Hone.
    destruct Hone as (Hlen & Hnd & Hall & Hout).
    destruct (proj1 (Hall f pr) Hf) as [r Hin].
    destruct (results_follow_projects _ _ _ _ _ _ Hinv Hin) as (_ & _ & Hres & _).
    rewrite (raises_result _ _ _ He Hres) in Hin.
    split; [done|]. split; [|split; [done|]].
    + assert (ExceptionLine (project_name pr) e ∈
              filter (λ l, is_summary l = true) (stdout (run W pl acts))) as Hl.
      { rewrite Hout. apply list_elem_of_fmap.
        by exists (f, pr, Raised e). }
      by apply list_elem_of_filter in Hl as [_ ?].
    + intros g pr' r' Hg.
      by destruct (results_follow_projects _ _ _ _ _ _ Hinv Hg) as (_ & _ & ? & _).
  - intros Hff. split.
    + apply run_no_raise; [lia|done].
    + apply run_returns; [lia|done].
Qed.

Lemma failed_job_is_captured_witness :
  (1%nat, timing_out "Parallel Project - 2",
   Raised (Exc "AsyncTimeoutError" "Autopilot did not finish"))
    ∈ collected (run 5 mixed_projects mixed_schedule) ∧
  ExceptionLine "Parallel Project - 2"
    (Exc "AsyncTimeoutError" "Autopilot did not finish")
    ∈ stdout (run 5 mixed_projects mixed_schedule).
Proof.
  destruct (failed_job_is_captured 5 mixed_projects mixed_schedule 1
              (timing_out "Parallel Project - 2")
              (Exc "AsyncTimeoutError" "Autopilot did not finish"))
    as [H _].
  - lia.
  - reflexivity.
  - right. split; reflexivity.
  - destruct H as (H1 & H2 & _).
    + vm_compute. reflexivity.
    + split; [exact H1|exact H2].
Defined.

(** C3.  At every point of every run at most THREAD_POOL_WORKERS units
    have begun and are not over; while that many are running, no step
    lets a queued unit begin. *)
Theorem at_most_max_workers_running W pl acts :
  0 ≤ W →
  Z.of_nat (running_futures (run W pl acts)) ≤ W ∧
  (Z.of_nat (running_futures (run W pl acts)) = W →
   ∀ a f, fstate_of (futures (run W pl acts)) f = Some PENDING →
          fstate_of (futures (step W a (run W pl acts))) f = Some PENDING).
Proof.
  intros HW. set (s := run W pl acts).
  pose proof (inv_run W pl acts) as Hinv. fold s in Hinv.
  pose proof (iB_bound _ _ (inv_B _ _ _ Hinv)) as Hb.
  pose proof (busy_workers_le s) as Hle.
  pose proof (inv_N _ _ _ Hinv) as Hn. unfold inv_count in Hn.
  split; [lia|].
  intros Hfull a f Hp.
  destruct (step_trans W a s) as [->|Ht]; [done|].
  eapply pending_stays; eauto; [apply Hinv|].
  intros i Hi.
  assert (is_busy WIdle = true) as Hbusy; [|done].
  apply (all_busy s i); [lia|done].
Qed.

Lemma at_most_max_workers_running_witness :
  Z.of_nat (running_futures
              (run 3 (mixed_projects ++ [succeeding "Parallel Project - 4"])
                   full_schedule)) ≤ 3 ∧
  fstate_of (futures (step 3 (Worker 0)
              (run 3 (mixed_projects ++ [succeeding "Parallel Project - 4"])
                   full_schedule))) 3 = Some PENDING.
Proof.
  destruct (at_most_max_workers_running 3
              (mixed_projects ++ [succeeding "Parallel Project - 4"])
              full_schedule) as [H1 H2].
  - lia.
  - split; [exact H1|]. apply H2.
    + vm_compute. reflexivity.
    + vm_compute. reflexivity.
Defined.




(** C5, against the claim as stated: with five workers the empty list is
    not refused, and the cell returns normally. *)
Lemma empty_list_is_accepted :
  ¬ rejects_configuration 5 [] ∧
  main (run 5 [] [Main 0; Main 0; Main 0]) = MDone None.
Proof.
  split.
  - intros [e He]. vm_compute in He. discriminate He.
  - vm_compute. reflexivity.
Qed.

(** C5, amended.  A worker count below one makes the constructor of the
    pool raise ValueError at once: nothing is submitted, no remote call
    is invoked, nothing is printed, and the cell stays in that state.
    With a worker count of at least one no list of projects, the empty
    one included, is refused. *)
Theorem nonpositive_workers_rejected W pl acts :
  (W ≤ 0 → aborted (run W pl acts)) ∧
  (1 ≤ W → ¬ rejects_configuration W pl).
Proof.
  split.
  - apply aborted_run.
  - intros HW [e He]. rewrite init_no_raise in He by lia. discriminate.
Qed.

Lemma nonpositive_workers_rejected_witness :
  aborted (run 0 [succeeding "a"] [Main 0; Tick; Worker 0; Main 0]) ∧
  ¬ rejects_configuration 5 [].
Proof.
  destruct (nonpositive_workers_rejected 0 [succeeding "a"]
              [Main 0; Tick; Worker 0; Main 0]) as [H1 _].
  destruct (nonpositive_workers_rejected 5 [] []) as [_ H2].
  split; [apply H1; lia|apply H2; lia].
Defined.

(** C6, against the claim as stated: with one worker the second project
    is submitted at time 0, begins at time 3 and is over at time 5; the
    elapsed time recorded for it is 5, not 2. *)
Lemma elapsed_includes_queue_time :
  ¬ measured_from_start
      (run 1 [succeeding "a"; succeeding "b"] queued_schedule).
Proof.
  intros H. specialize (H 1%nat 5 3 5).
  assert (5 = 5 - 3) as Habs; [|lia].
  apply H; vm_compute; repeat constructor.
Qed.

(** C6, amended.  The elapsed time of a successful result is the time
    from the submission of its unit, when the main thread read the clock,
    to the completion of the unit; the unit began in between, so the time
    it spent in the queue is included. *)
Theorem elapsed_since_submission W pl acts f pr d :
  (f, pr, Elapsed d) ∈ collected (run W pl acts) →
  ∃ t_submit t_start t_done,
    (t_submit, EvSubmit f) ∈ log (run W pl acts) ∧
    (t_start, EvStart f) ∈ log (run W pl acts) ∧
    (t_done, EvDone f (Elapsed d)) ∈ log (run W pl acts) ∧
    d = t_done - t_submit ∧ t_submit ≤ t_start ∧ t_start ≤ t_done.
Proof.
  intros Hin. pose proof (inv_run W pl acts) as Hinv.
  pose proof (inv_D _ _ _ Hinv) as HD.
  destruct (results_follow_projects _ _ _ _ _ _ Hinv Hin)
    as (_ & _ & _ & fu & Hfu & _ & Hst).
  destruct (finished_has_done_event _ _ _ _ HD Hfu Hst) as [t_done Hdone].
  destruct (done_event_times _ _ _ _ HD Hdone)
    as (t_submit & t_start & ? & ? & ? & ? & _ & Hd).
  exists t_submit, t_start, t_done. repeat split; try done. by apply Hd.
Qed.

Lemma elapsed_since_submission_witness :
  ∃ t_submit t_start t_done,
    (t_submit, EvSubmit 1) ∈
      log (run 1 [succeeding "a"; succeeding "b"] queued_schedule) ∧
    (t_start, EvStart 1) ∈
      log (run 1 [succeeding "a"; succeeding "b"] queued_schedule) ∧
    (t_done, EvDone 1 (Elapsed 5)) ∈
      log (run 1 [succeeding "a"; succeeding "b"] queued_schedule) ∧
    5 = t_done - t_submit ∧ t_submit ≤ t_start ∧ t_start ≤ t_done.
Proof.
  apply (elapsed_since_submission 1 [succeeding "a"; succeeding "b"]
           queued_schedule 1 (succeeding "b") 5).
  vm_compute. repeat constructor.
Defined.

(** C7, against the claim as stated: two projects are over, the first
    before the second, when the loop starts; the loop may take the second
    one first. *)
Lemma early_results_out_of_order :
  main (run 2 [rejected "a"; rejected "b"] early_schedule) = MDone None ∧
  ¬ collected_in_completion_order
      (run 2 [rejected "a"; rejected "b"] early_schedule).
Proof.
  split.
  - vm_compute. reflexivity.
  - intros H. vm_compute in H. discriminate H.
Qed.

(** C7, amended.  Every result is entered under the future it was read
    from, with the project that [allFutures] maps this future to, which
    is the project of the list at that position and the one the unit ran.
    In a run that returns, the loop first goes through the futures that
    were finished when it started, in some order, then through the others
    in the order of their completion. *)
Theorem results_follow_completion W pl acts :
  (∀ f pr r, (f, pr, r) ∈ collected (run W pl acts) →
     pl !! f = Some pr ∧ allFutures (run W pl acts) !! f = Some pr ∧
     result_of pr r ∧
     ∃ fu, futures (run W pl acts) !! f = Some fu ∧ fut_project fu = pr ∧
           fut_state fu = FINISHED r) ∧
  (main (run W pl acts) = MDone None →
   ∃ pre post,
     collected_futures (run W pl acts) = pre ++ post ∧
     pre ≡ₚ done_order (until_iter (log (run W pl acts))) ∧
     post = done_order (from_iter (log (run W pl acts)))).
Proof.
  pose proof (inv_run W pl acts) as Hinv. split.
  - intros f pr r. by apply (results_follow_projects W).
  - by apply (collected_order_done W pl).
Qed.

Lemma results_follow_completion_witness :
  ∃ pre post,
    collected_futures (run 5 mixed_projects mixed_schedule) = pre ++ post ∧
    pre ≡ₚ done_order (until_iter (log (run 5 mixed_projects mixed_schedule))) ∧
    post = done_order (from_iter (log (run 5 mixed_projects mixed_schedule))).
Proof.
  apply (proj2 (results_follow_completion 5 mixed_projects mixed_schedule)).
  vm_compute. reflexivity.
Defined.





Lemma length_filter_split {A} (p : A → bool) (l : list A) :
  length l = (length (filter (λ x, p x = true) l) +
              length (filter (λ x, p x = false) l))%nat.
Proof.
  induction l as [|x l IH]; [done|].
  rewrite !filter_cons.
  destruct (p x); simpl; repeat case_decide; try done; simpl; lia.
Qed.



(** C10.  With at least one worker and an empty list of projects, no
    future is created, no worker thread is started, no remote call is
    invoked, the loop body never runs and nothing is printed; no exception
    leaves the cell unless a fault occurs in the body; and three steps of
    the main thread (the dict comprehension, the loop, the exit of the
    [with]) end the cell normally, with the pool shut down. *)
Theorem empty_list_returns W acts :
  1 ≤ W →
  futures (run W [] acts) = [] ∧
  threads (run W [] acts) = [] ∧
  collected (run W [] acts) = [] ∧
  stdout (run W [] acts) = [] ∧
  (∀ f, count_ev (is_start f) (log (run W [] acts)) = 0%nat ∧
        count_ev (is_wait f) (log (run W [] acts)) = 0%nat) ∧
  (fault_free acts → ¬ raising (main (run W [] acts))) ∧
  main (run W [] [Main 0; Main 0; Main 0]) = MDone None ∧
  shutdown (run W [] [Main 0; Main 0; Main 0]) = true.
Proof.
  intros HW. pose proof (inv_run W [] acts) as Hinv.
  pose proof (inv_D _ _ _ Hinv) as HD.
  assert (Hf : futures (run W [] acts) = []).
  { destruct (inv_A _ _ _ Hinv) as [_ Hpre _].
    apply prefix_nil_inv in Hpre. by apply fmap_nil_inv in Hpre. }
  assert (Ht : threads (run W [] acts) = []).
  { pose proof (iF_threads _ (inv_F _ _ _ Hinv)) as Hle.
    rewrite Hf in Hle. simpl in Hle.
    by destruct (threads (run W [] acts)); [|simpl in Hle; lia]. }
  assert (Hc : collected (run W [] acts) = []).
  { destruct (collected (run W [] acts)) as [|[[f pr] r] c] eqn:Hc; [done|].
    destruct (iC_entries _ (inv_C _ _ _ Hinv) f pr r) as (fu & Hfu & _).
    - rewrite Hc. by left.
    - by rewrite Hf in Hfu. }
  assert (Hs : ∀ f, count_ev (is_start f) (log (run W [] acts)) = 0%nat).
  { intros f. by rewrite (iD_starts _ HD), Hf. }
  split; [done|]. split; [done|]. split; [done|]. split; [|split; [|split]].
  - pose proof (length_filter_split is_summary (stdout (run W [] acts))) as Hl.
    rewrite (iC_stdout _ (inv_C _ _ _ Hinv)), Hc in Hl.
    rewrite (iF_starts _ (inv_F _ _ _ Hinv)) in Hl.
    assert (start_order (log (run W [] acts)) = []) as Hso.
    { destruct (start_order (log (run W [] acts))) as [|f l] eqn:Hso; [done|].
      assert (f ∈ start_order (log (run W [] acts))) as Hin
        by (rewrite Hso; by left).
      apply elem_of_start_order in Hin. rewrite Hs in Hin. lia. }
    rewrite Hso in Hl. simpl in Hl.
    by apply length_zero_iff_nil.
  - intros f. split; [done|]. by rewrite (iD_waits _ HD), Hf.
  - apply run_no_raise. lia.
  - unfold run, init. destruct (Z.leb_spec W 0); [lia|].
    split; vm_compute; reflexivity.
Qed.

Lemma empty_list_returns_witness :
  collected (run 5 [] [Main 0; Tick; Main 0; Main 0]) = [] ∧
  main (run 5 [] [Main 0; Main 0; Main 0]) = MDone None.
Proof.
  destruct (empty_list_returns 5 [Main 0; Tick; Main 0; Main 0])
    as (_ & _ & H1 & _ & _ & _ & H2 & _).
  - lia.
  - split; [exact H1|exact H2].
Defined.

(** ** Further properties of the cell *)

Lemma fifo_run W pl acts : fifo (run W pl acts).
Proof.
  apply run_invariant; [done|]. unfold fifo.
  intros s s' Hinv HJ Ht. destruct Ht; simpl; try done.
  - rewrite start_order_snoc. simpl. rewrite app_nil_r, length_app. simpl.
    rewrite Nat.add_1_r, seq_S. simpl. by rewrite app_assoc, HJ.
  - rewrite start_order_snoc. simpl. by rewrite app_nil_r.
  - rewrite (take_unfold _ _ _ _ _ H1). simpl.
    rewrite start_order_snoc, set_fstate_length. simpl.
    rewrite <- app_assoc. simpl. by rewrite <- H0.
  - rewrite start_order_snoc, set_fstate_length. simpl.
    by rewrite app_nil_r.
  - rewrite start_order_snoc, set_fstate_length. simpl.
    by rewrite app_nil_r.
Qed.

Lemma seq_app_take (l k : list nat) n :
  l ++ k = seq 0 n → l = seq 0 (length l).
Proof.
  intros H.
  assert (l = list.take (length l) (l ++ k)) as Hl by by rewrite take_app_length.
  rewrite H in Hl. rewrite Hl at 1.
  assert (length l ≤ n)%nat.
  { apply (f_equal length) in H. rewrite length_app, length_seq in H. lia. }
  rewrite take_seq. f_equal. lia.
Qed.

Lemma start_lines_take (fs : list future) k :
  (k ≤ length fs)%nat →
  map (start_line fs) (seq 0 k) =
  map (λ fu, StartLine (project_name (fut_project fu))) (list.take k fs).
Proof.
  intros Hk. apply list_eq. intros i. rewrite !list_lookup_fmap.
  destruct (decide (i < k)%nat) as [Hlt|Hge].
  - rewrite lookup_seq_lt by done. rewrite lookup_take_lt by done. simpl.
    unfold start_line, name_of.
    destruct (lookup_lt_is_Some_2 fs i) as [fu Hfu]; [lia|]. by rewrite Hfu.
  - rewrite lookup_seq_ge by lia. rewrite lookup_take_ge by lia. done.
Qed.

Lemma start_lines_in_order W pl acts :
  start_order (log (run W pl acts))
    = seq 0 (length (start_order (log (run W pl acts)))) ∧
  filter (λ l, is_summary l = false) (stdout (run W pl acts)) =
    map (λ pr, StartLine (project_name pr))
        (list.take (length (start_order (log (run W pl acts)))) pl).
Proof.
  pose proof (fifo_run W pl acts) as Hf. unfold fifo in Hf.
  pose proof (inv_run W pl acts) as Hinv.
  set (s := run W pl acts) in *.
  pose proof (seq_app_take _ _ _ Hf) as Hs.
  split; [done|].
  rewrite (iF_starts _ (inv_F _ _ _ Hinv)), Hs, length_seq.
  assert (length (start_order (log s)) ≤ length (futures s))%nat as Hle.
  { apply (f_equal length) in Hf. rewrite length_app, length_seq in Hf. lia. }
  rewrite start_lines_take by done.
  destruct (inv_A _ _ _ Hinv) as [_ [k Hpre] _].
  rewrite Hpre, take_app_le by (by rewrite length_map).
  rewrite <- fmap_take. by rewrite map_map.
Qed.

Lemma no_backlog_run W pl acts :
  Z.of_nat (length pl) ≤ W → no_backlog (run W pl acts).
Proof.
  intros HW. apply run_invariant.
  { split; simpl; intros; lia. }
  unfold no_backlog, idle_workers.
  intros s s' Hinv [HJ1 HJ2] Ht.
  pose proof (iB_shutdown _ _ (inv_B _ _ _ Hinv)) as Hsh.
  destruct Ht; simpl; try done.
  - (* submit *)
    rewrite H in Hsh. specialize (HJ1 Hsh).
    destruct (inv_A _ _ _ Hinv) as [HA _ _]. rewrite H in HA.
    destruct HA as [Hpl _].
    pose proof (iF_threads _ (inv_F _ _ _ Hinv)) as Hth.
    apply (f_equal length) in Hpl.
    rewrite length_app, length_map in Hpl. simpl in Hpl.
    rewrite length_app. simpl.
    destruct (idle_semaphore s) as [|k] eqn:Hsem.
    + destruct (Z.ltb_spec (Z.of_nat (length (threads s))) W); [|lia].
      rewrite filter_snoc_length. simpl. split; intros; lia.
    + simpl. split; intros; lia.
  - (* take *)
    rewrite (take_unfold _ _ _ _ _ H1). simpl.
    pose proof (filter_insert_length is_idle _ _ _ (WRun f) H) as Hw.
    rewrite H0 in HJ1, HJ2. simpl in *. split; [intros Hs'|]; try lia.
    specialize (HJ1 Hs'). lia.
  - (* worker exit *)
    rewrite H0, H1. simpl. split; [done|lia].
  - (* finish *)
    pose proof (filter_insert_length is_idle _ _ _ WIdle H) as Hw.
    simpl in *. split; [intros Hs'|]; try lia.
    specialize (HJ1 Hs'). lia.
Qed.

Lemma single_thread W pl s i j w w' :
  W ≤ 1 → inv W pl s →
  threads s !! i = Some w → threads s !! j = Some w' → i = j ∧ w = w'.
Proof.
  intros HW Hinv Hi Hj.
  pose proof (iB_bound _ _ (inv_B _ _ _ Hinv)) as Hb.
  pose proof (lookup_lt_Some _ _ _ Hi). pose proof (lookup_lt_Some _ _ _ Hj).
  assert (i = j) as -> by lia. split; [done|congruence].
Qed.

Lemma single_running W pl s i f g pc :
  W ≤ 1 → inv W pl s →
  threads s !! i = Some (WRun f) →
  fstate_of (futures s) g = Some (RUNNING pc) → g = f.
Proof.
  intros HW Hinv Hi Hg.
  destruct (iB_run_inv _ _ (inv_B _ _ _ Hinv) _ _ Hg) as [j Hj].
  destruct (single_thread _ _ _ _ _ _ _ HW Hinv Hi Hj) as [_ ?]. congruence.
Qed.

Lemma one_at_a_time_run W pl acts :
  W ≤ 1 → one_at_a_time (run W pl acts).
Proof.
  intros HW. apply run_invariant.
  { left. split; [done|]. intros f pc. done. }
  unfold one_at_a_time. intros s s' Hinv HJ Ht.
  destruct Ht; simpl; try done.
  - (* submit *)
    rewrite start_order_snoc, done_order_snoc. simpl. rewrite !app_nil_r.
    destruct HJ as [[Ho Hno]|(g & pc & Hg & Ho)].
    + left. split; [done|]. intros g pc [[_ ?]|[_ Hg]]%fstate_of_snoc; [done|].
      by eapply Hno.
    + right. exists g, pc. split; [|done].
      rewrite fstate_of_snoc_old; [done|]. by eapply fstate_of_lt.
  - (* as_completed *)
    rewrite start_order_snoc, done_order_snoc. simpl. by rewrite !app_nil_r.
  - (* take *)
    rewrite (take_unfold _ _ _ _ _ H1). simpl.
    rewrite start_order_snoc, done_order_snoc. simpl. rewrite app_nil_r.
    destruct HJ as [[Ho Hno]|(g & pc & Hg & Ho)].
    + right. exists f, InStart. split; [|by rewrite Ho].
      apply fstate_of_set_eq. eauto.
    + destruct (iB_run_inv _ _ (inv_B _ _ _ Hinv) _ _ Hg) as [j Hj].
      by destruct (single_thread _ _ _ _ _ _ _ HW Hinv H Hj) as [_ ?].
  - (* enter wait *)
    rewrite start_order_snoc, done_order_snoc. simpl. rewrite !app_nil_r.
    destruct HJ as [[Ho Hno]|(g & pc & Hg & Ho)].
    + destruct (Hno f InStart). by rewrite (fstate_of_Some _ _ _ H0), H1.
    + assert (g = f) as -> by by eapply single_running.
      right. exists f, InWait. split; [|done].
      apply fstate_of_set_eq. eauto.
  - (* finish *)
    rewrite start_order_snoc, done_order_snoc. simpl. rewrite app_nil_r.
    destruct HJ as [[Ho Hno]|(g & pc' & Hg & Ho)].
    + destruct (Hno f pc). by rewrite (fstate_of_Some _ _ _ H0), H1.
    + assert (g = f) as -> by by eapply single_running.
      left. split; [done|].
      intros g pc'' [(-> & ? & _)|[Hne Hg']]%fstate_of_set; [done|].
      apply Hne. by eapply single_running.
Qed.




Lemma idle_worker_exists (l : list wstate) :
  (0 < length (filter (λ w, is_idle w = true) l))%nat →
  ∃ i, l !! i = Some WIdle.
Proof.
  induction l as [|w l IH]; simpl; [lia|].
  rewrite filter_cons. destruct (decide (is_idle w = true)) as [Hw|Hw].
  - intros _. exists 0%nat. by destruct w.
  - intros Hl. destruct (IH Hl) as [i Hi]. by exists (S i).
Qed.

Lemma NoDup_subseteq_length (l k : list nat) :
  NoDup l → (∀ x, x ∈ l → x ∈ k) → (length l ≤ length k)%nat.
Proof.
  intros Hnd Hsub. apply submseteq_length, NoDup_submseteq; done.
Qed.

Lemma starts_at_most_once s f :
  inv_log s → (count_ev (is_start f) (log s) ≤ 1)%nat.
Proof.
  intros HD. rewrite (iD_starts _ HD).
  destruct (futures s !! f) as [fu|]; simpl; [|lia].
  unfold expected_starts. destruct (fut_state fu); lia.
Qed.

Lemma done_started s f :
  inv_log s → f ∈ done_order (log s) → f ∈ start_order (log s).
Proof.
  intros HD. rewrite elem_of_done_order, elem_of_start_order.
  rewrite (iD_dones _ HD), (iD_starts _ HD).
  destruct (futures s !! f) as [fu|]; simpl; [|lia].
  unfold expected_dones, expected_starts. destruct (fut_state fu); lia.
Qed.

Lemma dom_size_futures W pl s :
  inv_submit W pl s → size (dom (allFutures s)) = length (futures s).
Proof.
  intros HA.
  assert (dom (allFutures s) = list_to_set (seq 0 (length (futures s)))) as ->.
  { apply set_eq. intros f. rewrite elem_of_dom, elem_of_list_to_set, elem_of_seq.
    rewrite (dict_lookup_lt _ _ _ _ HA). lia. }
  rewrite size_list_to_set by apply NoDup_seq. by rewrite length_seq.
Qed.

Lemma prefix_take {A} (l k : list A) :
  l `prefix_of` k → l = list.take (length l) k.
Proof. intros [k' ->]. by rewrite take_app_length. Qed.

Lemma start_order_seq W pl acts :
  start_order (log (run W pl acts))
    = seq 0 (length (start_order (log (run W pl acts)))).
Proof. eapply seq_app_take, fifo_run. Qed.

Lemma app_seq_suffix (l q : list nat) n :
  l ++ q = seq 0 n → q = seq (n - length q) (length q).
Proof.
  intros H.
  assert (Hn : n = (length l + length q)%nat).
  { apply (f_equal length) in H. rewrite length_app, length_seq in H. lia. }
  subst n. rewrite seq_app in H.
  apply app_inj_1 in H as [_ Hq]; [|by rewrite length_seq].
  rewrite Hq at 1. f_equal. lia.
Qed.

(** X1.  The work queue is first in, first out: at every point of every
    run it holds the units that were submitted last, in the order of
    their submission, so that the unit a worker takes from it is always
    the one submitted first among the queued ones. *)
Theorem queue_holds_latest_submissions W pl acts :
  work_queue (run W pl acts) =
    seq (length (futures (run W pl acts)) - length (work_queue (run W pl acts)))
        (length (work_queue (run W pl acts))) ∧
  ∀ i f q, threads (run W pl acts) !! i = Some WIdle →
           work_queue (run W pl acts) = f :: q →
           f = (length (futures (run W pl acts)) - S (length q))%nat ∧
           work_queue (step W (Worker i) (run W pl acts)) = q.
Proof.
  pose proof (fifo_run W pl acts) as Hf. unfold fifo in Hf.
  pose proof (app_seq_suffix _ _ _ Hf) as Hq.
  split; [done|]. intros i f q Hi Hw. split.
  - rewrite Hw in Hq. simpl in Hq. by injection Hq as -> _.
  - simpl. unfold worker_step. rewrite Hi, Hw.
    assert (is_Some (futures (run W pl acts) !! f)) as [fu Hfu].
    { apply lookup_lt_is_Some.
      eapply fstate_of_lt, (iB_queue _ _ (inv_B _ _ _ (inv_run W pl acts))).
      rewrite Hw. by left. }
    by rewrite (take_unfold _ _ _ _ _ Hfu).
Qed.

(** X2.  At every point of every run the start lines on the console are
    those of the units that have begun, one for each.  No unit has two
    start lines, no unit with a start line is still in the queue, and the
    name on the line is that of the project at the position of the unit
    in the list. *)
Theorem start_lines_of_begun_units W pl acts :
  filter (λ l, is_start_line l = true) (stdout (run W pl acts)) ≡ₚ
    map (start_line (futures (run W pl acts)))
        (start_order (log (run W pl acts))) ∧
  NoDup (start_order (log (run W pl acts))) ∧
  ∀ f, f ∈ start_order (log (run W pl acts)) →
       (f ∉ work_queue (run W pl acts)) ∧
       ∃ pr, pl !! f = Some pr ∧
             start_line (futures (run W pl acts)) f
             = StartLine (project_name pr).
Proof.
  pose proof (inv_run W pl acts) as Hinv.
  pose proof (inv_D _ _ _ Hinv) as HD.
  split.
  { rewrite <- (iF_starts _ (inv_F _ _ _ Hinv)).
    assert (filter (λ l, is_start_line l = true) (stdout (run W pl acts)) =
            filter (λ l, is_summary l = false) (stdout (run W pl acts)))
      as -> by (apply list_filter_iff; intros l; by destruct l).
    done. }
  split.
  { apply NoDup_start_order. intros f. by apply starts_at_most_once. }
  intros f Hf.
  pose proof (started_lt _ _ HD Hf) as Hlt.
  destruct (lookup_lt_is_Some_2 _ _ Hlt) as [fu Hfu]. split.
  - intros Hq%(iB_queue _ _ (inv_B _ _ _ Hinv)).
    apply elem_of_start_order in Hf. rewrite (iD_starts _ HD), Hfu in Hf.
    simpl in Hf. unfold expected_starts in Hf.
    rewrite (fstate_of_Some _ _ _ Hfu) in Hq. injection Hq as Hq.
    rewrite Hq in Hf. lia.
  - exists (fut_project fu). split.
    + destruct (iA_prefix _ _ _ (inv_A _ _ _ Hinv)) as [k Hk].
      rewrite Hk. apply lookup_app_l_Some.
      by rewrite list_lookup_fmap, Hfu.
    + unfold start_line, name_of. by rewrite Hfu.
Qed.

(** X3.  With at least as many workers as projects, as in the notebook, no
    unit waits for another one to end: the idle workers are at least as
    many as the queued units, so a pending unit always has an idle worker
    that can take it. *)
Theorem enough_workers_no_waiting W pl acts :
  Z.of_nat (length pl) ≤ W →
  no_backlog (run W pl acts) ∧
  ∀ f, fstate_of (futures (run W pl acts)) f = Some PENDING →
       ∃ i, threads (run W pl acts) !! i = Some WIdle.
Proof.
  intros HW. pose proof (no_backlog_run W pl acts HW) as Hn.
  split; [done|]. intros f Hf. apply idle_worker_exists.
  destruct Hn as [_ Hq]. unfold idle_workers in Hq.
  apply (iB_queue _ _ (inv_B _ _ _ (inv_run W pl acts))) in Hf.
  destruct (work_queue (run W pl acts)); [by apply elem_of_nil in Hf|].
  simpl in Hq. lia.
Qed.

Lemma enough_workers_no_waiting_witness :
  ∃ i, threads (run 5 (project_list_cell succeeding 6) [Main 0; Main 0; Worker 0])
         !! i = Some WIdle.
Proof.
  apply (enough_workers_no_waiting 5 (project_list_cell succeeding 6)
           [Main 0; Main 0; Worker 0]) with 1%nat.
  - simpl. lia.
  - vm_compute. reflexivity.
Defined.

(** X4.  With a single worker the units run one after the other, in the order
    of submission: a unit begins only when all units before it are over,
    and the units end in the order in which they were submitted. *)
Theorem single_worker_runs_in_order W pl acts :
  W ≤ 1 →
  one_at_a_time (run W pl acts) ∧
  done_order (log (run W pl acts))
    = seq 0 (length (done_order (log (run W pl acts)))).
Proof.
  intros HW. pose proof (one_at_a_time_run W pl acts HW) as Ho.
  split; [done|]. pose proof (start_order_seq W pl acts) as Hs.
  destruct Ho as [[Ho _]|(f & pc & _ & Ho)].
  - by rewrite <- Ho.
  - rewrite Ho in Hs. eapply seq_app_take. rewrite Hs. done.
Qed.

Lemma single_worker_runs_in_order_witness :
  done_order (log (run 1 [succeeding "a"; succeeding "b"] queued_schedule))
  = seq 0 (length (done_order
             (log (run 1 [succeeding "a"; succeeding "b"] queued_schedule)))).
Proof.
  apply (single_worker_runs_in_order 1 [succeeding "a"; succeeding "b"]
           queued_schedule).
  lia.
Defined.





(** X7.  [allFutures] has one entry per future created so far, which maps the
    future to the project of the list at the position of the future; two
    futures never share an entry, also when the list names a project
    twice.  While the loop runs, every future it can be handed is a key
    of the dictionary. *)
Theorem dictionary_of_futures W pl acts :
  (∀ f, allFutures (run W pl acts) !! f
        = list.take (length (futures (run W pl acts))) pl !! f) ∧
  size (dom (allFutures (run W pl acts))) = length (futures (run W pl acts)) ∧
  ∀ finished pending, main (run W pl acts) = MCollect finished pending →
    (∀ f, f ∈ finished ∨ f ∈ pending → is_Some (allFutures (run W pl acts) !! f)) ∧
    (∀ f, allFutures (run W pl acts) !! f = pl !! f).
Proof.
  pose proof (inv_run W pl acts) as Hinv.
  pose proof (inv_A _ _ _ Hinv) as HA.
  destruct HA as [Hmain Hpre Hd].
  assert (Htake : map fut_project (futures (run W pl acts))
                  = list.take (length (futures (run W pl acts))) pl).
  { rewrite <- (length_map fut_project (futures (run W pl acts))).
    by apply prefix_take. }
  split; [|split].
  - intros f. by rewrite Hd, Htake.
  - apply (dom_size_futures W pl), Hinv.
  - intros finished pending Hm. split.
    + intros f Hf. apply (dict_lookup_lt W pl); [apply Hinv|].
      destruct (inv_C _ _ _ Hinv) as [Q _ _ _]. rewrite Hm in Q.
      destruct Q as (fs & _ & Hc). by apply (cl_range _ _ _ _ Hc).
    + intros f. rewrite Hm in Hmain. unfold all_submitted in Hmain.
      by rewrite Hd, Hmain.
Qed.

(** X8.  Worker threads are started on demand: there are never more of them
    than futures, nor than THREAD_POOL_WORKERS, and none of them exits
    while the main thread is in the body of the [with]. *)
Theorem workers_started_on_demand W pl acts :
  (length (threads (run W pl acts)) ≤ length (futures (run W pl acts)))%nat ∧
  Z.of_nat (length (threads (run W pl acts))) ≤ Z.max 0 W ∧
  (in_body (main (run W pl acts)) →
   ∀ i, threads (run W pl acts) !! i ≠ Some WExited).
Proof.
  pose proof (inv_run W pl acts) as Hinv.
  pose proof (inv_B _ _ _ Hinv) as HB.
  split; [apply (iF_threads _ (inv_F _ _ _ Hinv))|].
  split; [apply (iB_bound _ _ HB)|].
  intros Hbody i Hi. destruct (iB_exited _ _ HB _ Hi) as [Hs _].
  pose proof (iB_shutdown _ _ HB) as Hsh.
  destruct (main (run W pl acts)); simpl in Hbody; try done; congruence.
Qed.

(** X9.  Results follow the units through the stages: at every point of every
    run there are no more results reported than units ended, no more units
    ended than begun, no more begun than submitted, and no more submitted
    than projects in the list.  On the console there are never more
    summary lines than start lines. *)
Theorem stages_in_order W pl acts :
  (length (collected (run W pl acts))
     ≤ length (done_order (log (run W pl acts))))%nat ∧
  (length (done_order (log (run W pl acts)))
     ≤ length (start_order (log (run W pl acts))))%nat ∧
  (length (start_order (log (run W pl acts)))
     ≤ length (futures (run W pl acts)))%nat ∧
  (length (futures (run W pl acts)) ≤ length pl)%nat ∧
  (length (filter (λ l, is_summary l = true) (stdout (run W pl acts)))
     ≤ length (filter (λ l, is_summary l = false) (stdout (run W pl acts))))%nat.
Proof.
  pose proof (inv_run W pl acts) as Hinv.
  pose proof (inv_D _ _ _ Hinv) as HD.
  pose proof (inv_C _ _ _ Hinv) as HC.
  set (s := run W pl acts) in *.
  assert (H1 : (length (collected s) ≤ length (done_order (log s)))%nat).
  { replace (length (collected s)) with (length (collected_futures s))
      by (unfold collected_futures; by rewrite length_map).
    apply NoDup_subseteq_length; [apply (iC_nodup _ HC)|].
    intros f (pr & r & Hin)%collected_futures_entry.
    destruct (iC_entries _ HC _ _ _ Hin) as (fu & Hfu & _ & Hst).
    apply (done_order_finished _ _ HD). by eapply is_finished_lookup. }
  assert (H2 : (length (done_order (log s)) ≤ length (start_order (log s)))%nat).
  { apply NoDup_subseteq_length; [by apply NoDup_done_log|].
    intros f. by apply done_started. }
  assert (H3 : (length (start_order (log s)) ≤ length (futures s))%nat).
  { pose proof (fifo_run W pl acts) as Hf. unfold fifo in Hf. fold s in Hf.
    apply (f_equal length) in Hf. rewrite length_app, length_seq in Hf. lia. }
  assert (H4 : (length (futures s) ≤ length pl)%nat).
  { destruct (iA_prefix _ _ _ (inv_A _ _ _ Hinv)) as [k Hk].
    apply (f_equal length) in Hk. rewrite length_app, length_map in Hk. lia. }
  repeat split; try done.
  rewrite (iC_stdout _ HC), (iF_starts _ (inv_F _ _ _ Hinv)), !length_map. lia.
Qed.

(** X10.  The projects that the notebook creates have pairwise distinct names,
    so that every start line on the console stands for one project. *)
Theorem project_names_distinct create_from_dataset stop W acts :
  (∀ name, project_name (create_from_dataset name) = name) →
  NoDup (project_name <$> project_list_cell create_from_dataset stop) ∧
  NoDup (filter (λ l, is_summary l = false)
           (stdout (run W (project_list_cell create_from_dataset stop) acts))).
Proof.
  intros Hname.
  assert (Hnd : NoDup (project_name <$> project_list_cell create_from_dataset stop)).
  { unfold project_list_cell. rewrite <- list_fmap_compose.
    apply NoDup_fmap_2; [|apply NoDup_seq].
    intros n m Hnm. simpl in Hnm. rewrite !Hname in Hnm.
    by apply (inj (String.append _)), (inj pretty) in Hnm. }
  split; [done|].
  destruct (start_lines_in_order W
              (project_list_cell create_from_dataset stop) acts) as [_ ->].
  set (k := length _). set (pl := project_list_cell _ _) in *.
  rewrite <- (take_drop k pl), fmap_app in Hnd.
  apply NoDup_app in Hnd as [Hnd _].
  rewrite (list_fmap_compose project_name StartLine).
  apply NoDup_fmap_2; [|done]. by intros a b [= ->].
Qed.

Lemma project_names_distinct_witness :
  NoDup (project_name <$> project_list_cell succeeding 6).
Proof.
  apply (project_names_distinct succeeding 6 5 []).
  intros name. reflexivity.
Defined.

(** ** The top model *)

Section top_model.

Import TopModel.

Context {score : Type} (lt : score → score → bool).

Implicit Types (models l : list (Model score)) (model m : Model score).
Implicit Types (metric test_set : string).

Lemma score_of_get model metric test_set v :
  get_score model metric test_set = inr v →
  score_of metric test_set model = v.
Proof. unfold score_of. intros ->. by destruct v. Qed.

Lemma models_with_score_inr models test_set metric :
  (∀ model, model ∈ models → ∃ v, get_score model metric test_set = inr v) →
  models_with_score models test_set metric =
  inr (filter (λ model, is_Some (score_of metric test_set model)) models).
Proof.
  induction models as [|model models IH]; intros Hall; [done|].
  simpl. destruct (Hall model) as [v Hv]; [by left|]. rewrite Hv.
  rewrite IH by (intros m Hm; apply Hall; by right).
  rewrite filter_cons, (score_of_get _ _ _ _ Hv).
  destruct v; [by rewrite decide_True|by rewrite decide_False by by intros []].
Qed.

Lemma models_with_score_cases models test_set metric :
  (∃ pre model post e,
     models = pre ++ model :: post ∧
     (∀ m, m ∈ pre → ∃ v, get_score m metric test_set = inr v) ∧
     get_score model metric test_set = inl e ∧
     models_with_score models test_set metric = inl e) ∨
  ((∀ model, model ∈ models → ∃ v, get_score model metric test_set = inr v) ∧
   models_with_score models test_set metric =
   inr (filter (λ model, is_Some (score_of metric test_set model)) models)).
Proof.
  induction models as [|model models IH].
  { right. split; [|done]. by intros m ?%elem_of_nil. }
  destruct (get_score model metric test_set) as [e|v] eqn:Hg.
  { left. exists [], model, models, e. simpl. rewrite Hg.
    split; [done|]. split; [|done]. by intros m ?%elem_of_nil. }
  destruct IH as [(pre & m' & post & e & -> & Hpre & Hm' & Hr)|[Hall Hr]].
  - left. exists (model :: pre), m', post, e. simpl. rewrite Hg, Hr.
    split; [done|]. split; [|done].
    intros m [->|?]%elem_of_cons; eauto.
  - right. assert (∀ m, m ∈ model :: models →
                        ∃ v, get_score m metric test_set = inr v) as Hall'.
    { intros m [->|?]%elem_of_cons; eauto. }
    split; [done|]. by apply models_with_score_inr.
Qed.

Lemma models_with_score_inl pre model post test_set metric e :
  (∀ m, m ∈ pre → ∃ v, get_score m metric test_set = inr v) →
  get_score model metric test_set = inl e →
  models_with_score (pre ++ model :: post) test_set metric = inl e.
Proof.
  intros Hpre Hm. induction pre as [|a pre IH]; simpl.
  { by rewrite Hm. }
  destruct (Hpre a) as [v ->]; [by left|].
  rewrite IH; [done|]. intros m ?. apply Hpre. by right.
Qed.

(** The keys of models that have a score can all be compared. *)
Lemma keys_of_scored l metric test_set :
  (∀ model, model ∈ l → is_Some (score_of metric test_set model)) →
  ∃ kl kl',
    keys_of (λ model, get_score model metric test_set) l = inr kl ∧
    comparable kl = Some kl' ∧ map snd kl' = l ∧
    ∀ x, x ∈ kl' → score_of metric test_set x.2 = Some x.1.
Proof.
  induction l as [|model l IH]; intros Hall.
  { exists [], []. repeat split; try done. by intros x ?%elem_of_nil. }
  destruct IH as (kl & kl' & Hk & Hc & Hm & Hs).
  { intros m Hm. apply Hall. by right. }
  destruct (Hall model) as [v Hv]; [by left|].
  assert (get_score model metric test_set = inr (Some v)) as Hg.
  { unfold score_of in Hv.
    destruct (get_score model metric test_set) as [|[]]; by simplify_eq. }
  exists ((Some v, model) :: kl), ((v, model) :: kl').
  simpl. rewrite Hg, Hk, Hc, Hm. repeat split; try done.
  intros x [->|?]%elem_of_cons; [done|by apply Hs].
Qed.

Lemma insert_by_key_perm {A} (x : score * A) kl :
  insert_by_key lt x kl ≡ₚ x :: kl.
Proof.
  induction kl as [|y kl IH]; [done|]. simpl.
  destruct (lt y.1 x.1); [|done]. rewrite IH. apply Permutation_swap.
Qed.

Lemma sort_by_key_perm {A} (kl : list (score * A)) : sort_by_key lt kl ≡ₚ kl.
Proof.
  induction kl as [|x kl IH]; [done|]. simpl.
  by rewrite insert_by_key_perm, IH.
Qed.

Hypothesis lt_asym : ∀ a b, lt a b = true → lt b a = false.
Hypothesis le_trans : ∀ a b c, lt b a = false → lt c b = false → lt c a = false.

Lemma insert_by_key_sorted {A} (x : score * A) kl :
  StronglySorted (λ a b, lt b.1 a.1 = false) kl →
  StronglySorted (λ a b, lt b.1 a.1 = false) (insert_by_key lt x kl).
Proof.
  induction 1 as [|y kl Hs IH Hy]; simpl.
  { by repeat constructor. }
  destruct (lt y.1 x.1) eqn:Hlt.
  - constructor; [done|]. rewrite insert_by_key_perm.
    constructor; [by apply lt_asym|done].
  - constructor; [by constructor|]. constructor; [done|].
    eapply Forall_impl; [exact Hy|]. intros z Hz. simpl in Hz.
    by eapply le_trans.
Qed.

Lemma sort_by_key_sorted {A} (kl : list (score * A)) :
  StronglySorted (λ a b, lt b.1 a.1 = false) (sort_by_key lt kl).
Proof.
  induction kl as [|x kl IH]; simpl; [constructor|].
  by apply insert_by_key_sorted.
Qed.

Lemma insert_by_key_stable {A} v (x : score * A) kl :
  filter (λ y, tie lt v y = true) (insert_by_key lt x kl) =
  filter (λ y, tie lt v y = true) (x :: kl).
Proof.
  induction kl as [|y kl IH]; [done|]. simpl.
  destruct (lt y.1 x.1) eqn:Hlt; [|done].
  rewrite filter_cons, IH, !filter_cons.
  destruct (decide (tie lt v y = true)) as [Hy|Hy]; [|done].
  destruct (decide (tie lt v x = true)) as [Hx|Hx]; [|done].
  exfalso. unfold tie in Hx, Hy.
  apply andb_true_iff in Hx as [Hx1 Hx2]. apply andb_true_iff in Hy as [Hy1 Hy2].
  apply negb_true_iff in Hx1, Hx2, Hy1, Hy2.
  rewrite (le_trans x.1 v y.1) in Hlt; done.
Qed.

Lemma sort_by_key_stable {A} v (kl : list (score * A)) :
  filter (λ y, tie lt v y = true) (sort_by_key lt kl) =
  filter (λ y, tie lt v y = true) kl.
Proof.
  induction kl as [|x kl IH]; [done|]. simpl.
  by rewrite insert_by_key_stable, !filter_cons, IH.
Qed.

Lemma sort_by_key_head {A} (kl : list (score * A)) x r :
  sort_by_key lt kl = x :: r →
  ∃ pre post, kl = pre ++ x :: post ∧
    (∀ y, y ∈ pre → lt x.1 y.1 = true) ∧
    (∀ y, y ∈ post → lt y.1 x.1 = false).
Proof.
  revert x r. induction kl as [|a kl IH]; intros x r; [done|]. simpl.
  destruct (sort_by_key lt kl) as [|y r'] eqn:Hs.
  - intros [= <- <-]. exists [], kl. split; [done|].
    pose proof (sort_by_key_perm kl) as Hp. rewrite Hs in Hp.
    apply Permutation_nil_l in Hp. subst kl.
    split; by intros y ?%elem_of_nil.
  - destruct (IH _ _ eq_refl) as (pre & post & -> & Hpre & Hpost).
    simpl. destruct (lt y.1 a.1) eqn:Hlt.
    + intros [= <- <-]. exists (a :: pre), post. split; [done|]. split; [|done].
      intros z [->|?]%elem_of_cons; [done|by apply Hpre].
    + intros [= <- <-]. exists [], (pre ++ y :: post). split; [done|].
      split; [by intros z ?%elem_of_nil|].
      intros z Hz. apply (le_trans a.1 y.1 z.1); [done|].
      apply elem_of_app in Hz as [Hz|[->|Hz]%elem_of_cons].
      * by apply lt_asym, Hpre.
      * destruct (lt y.1 y.1) eqn:Hyy; [|done]. by rewrite (lt_asym _ _ Hyy) in Hyy.
      * by apply Hpost.
Qed.

Lemma filter_ties_snd metric test_set v (kl : list (score * Model score)) :
  (∀ x, x ∈ kl → score_of metric test_set x.2 = Some x.1) →
  filter (λ model, ties_with lt metric test_set v model = true) (map snd kl) =
  map snd (filter (λ y, tie lt v y = true) kl).
Proof.
  induction kl as [|x kl IH]; intros Hs; [done|].
  simpl. rewrite !filter_cons, IH by (intros y Hy; apply Hs; by right).
  assert (ties_with lt metric test_set v x.2 = tie lt v x) as Heq.
  { unfold ties_with. by rewrite (Hs x) by by left. }
  destruct (decide (ties_with lt metric test_set v x.2 = true)),
    (decide (tie lt v x = true)); simpl; congruence.
Qed.

Lemma sorted_snd_ascending metric test_set (kl : list (score * Model score)) :
  (∀ x, x ∈ kl → score_of metric test_set x.2 = Some x.1) →
  StronglySorted (λ a b, lt b.1 a.1 = false) kl →
  StronglySorted (ascending lt metric test_set) (map snd kl).
Proof.
  intros Hs. induction 1 as [|x kl Hsorted IH Hx]; simpl; constructor.
  - apply IH. intros y Hy. apply Hs. by right.
  - apply Forall_fmap, Forall_forall. intros y Hy va vb Ha Hb. simpl in *.
    rewrite (Hs x) in Ha by by left.
    rewrite (Hs y) in Hb by by right. simplify_eq.
    rewrite Forall_forall in Hx. by apply Hx.
Qed.

Lemma filter_split {A} (P : A → Prop) `{∀ x, Decision (P x)}
    (xs ys zs : list A) (x : A) :
  filter P xs = ys ++ x :: zs →
  ∃ pre post, xs = pre ++ x :: post ∧ filter P pre = ys ∧ filter P post = zs.
Proof.
  revert ys. induction xs as [|a xs IH]; intros ys.
  { by destruct ys. }
  rewrite filter_cons. destruct (decide (P a)) as [Ha|Ha].
  - destruct ys as [|b ys]; simpl.
    + intros [= -> Hl]. exists [], xs. by rewrite filter_nil.
    + intros [= -> Hl]. destruct (IH _ Hl) as (pre & post & -> & <- & <-).
      exists (b :: pre), post. by rewrite filter_cons, decide_True.
  - intros Hl. destruct (IH _ Hl) as (pre & post & -> & <- & <-).
    exists (a :: pre), post. by rewrite filter_cons, decide_False.
Qed.

(** What [sorted] does in [sorted_by_metric]. *)
Lemma sorted_by_metric_cases models test_set metric :
  (∃ pre model post e,
     models = pre ++ model :: post ∧
     (∀ m, m ∈ pre → ∃ v, get_score m metric test_set = inr v) ∧
     get_score model metric test_set = inl e ∧
     sorted_by_metric lt models test_set metric = inl e) ∨
  ((∀ model, model ∈ models → ∃ v, get_score model metric test_set = inr v) ∧
   ∃ kl, sorted_by_metric lt models test_set metric
           = inr (map snd (sort_by_key lt kl)) ∧
         map snd kl =
           filter (λ model, is_Some (score_of metric test_set model)) models ∧
         ∀ x, x ∈ kl → score_of metric test_set x.2 = Some x.1).
Proof.
  unfold sorted_by_metric.
  destruct (models_with_score_cases models test_set metric)
    as [(pre & model & post & e & ? & ? & ? & Hr)|[Hall Hr]]; rewrite Hr.
  - left. by exists pre, model, post, e.
  - right. split; [done|].
    destruct (keys_of_scored
                (filter (λ model, is_Some (score_of metric test_set model)) models)
                metric test_set) as (kl & kl' & Hk & Hc & Hm & Hs).
    { by intros m [? _]%list_elem_of_filter. }
    exists kl'. unfold sorted. by rewrite Hk, Hc.
Qed.

Lemma score_lt_irrefl a : lt a a = false.
Proof. destruct (lt a a) eqn:H; [|done]. by rewrite (lt_asym _ _ H) in H. Qed.

Lemma ties_with_self metric test_set model v :
  score_of metric test_set model = Some v →
  ties_with lt metric test_set v model = true.
Proof. unfold ties_with. intros ->. by rewrite score_lt_irrefl. Qed.

Lemma ascending_head metric test_set x y l vx vy :
  StronglySorted (ascending lt metric test_set) (x :: l) → y ∈ l →
  score_of metric test_set x = Some vx →
  score_of metric test_set y = Some vy → lt vy vx = false.
Proof.
  intros Hs Hy Hvx Hvy. apply StronglySorted_inv in Hs as [_ Hall].
  rewrite Forall_forall in Hall. by apply (Hall y Hy).
Qed.

Lemma ascending_heads metric test_set x y l1 l2 :
  is_Some (score_of metric test_set x) →
  is_Some (score_of metric test_set y) →
  StronglySorted (ascending lt metric test_set) (x :: l1) →
  StronglySorted (ascending lt metric test_set) (y :: l2) →
  (∀ v, filter (λ model, ties_with lt metric test_set v model = true) (x :: l1) =
        filter (λ model, ties_with lt metric test_set v model = true) (y :: l2)) →
  x = y.
Proof.
  intros [vx Hx] [vy Hy] S1 S2 Hf.
  pose proof (ties_with_self _ _ _ _ Hx) as Hxx.
  pose proof (ties_with_self _ _ _ _ Hy) as Hyy.
  destruct (ties_with lt metric test_set vx y) eqn:Hxy.
  { specialize (Hf vx). rewrite !filter_cons_True in Hf by done. by injection Hf. }
  assert (x ∈ y :: l2) as Hxin.
  { assert (x ∈ filter (λ model, ties_with lt metric test_set vx model = true)
                  (x :: l1)) as Hin
      by (rewrite filter_cons_True by done; by left).
    rewrite (Hf vx) in Hin. by apply list_elem_of_filter in Hin as [_ ?]. }
  assert (y ∈ x :: l1) as Hyin.
  { assert (y ∈ filter (λ model, ties_with lt metric test_set vy model = true)
                  (y :: l2)) as Hin
      by (rewrite filter_cons_True by done; by left).
    rewrite <- (Hf vy) in Hin. by apply list_elem_of_filter in Hin as [_ ?]. }
  apply elem_of_cons in Hxin as [?|Hxin]; [done|].
  apply elem_of_cons in Hyin as [?|Hyin]; [done|].
  pose proof (ascending_head _ _ _ _ _ _ _ S1 Hyin Hx Hy) as H1.
  pose proof (ascending_head _ _ _ _ _ _ _ S2 Hxin Hy Hx) as H2.
  unfold ties_with in Hxy. rewrite Hy, H1, H2 in Hxy. done.
Qed.

Lemma ascending_unique metric test_set l1 l2 :
  (∀ m, m ∈ l1 → is_Some (score_of metric test_set m)) →
  (∀ m, m ∈ l2 → is_Some (score_of metric test_set m)) →
  StronglySorted (ascending lt metric test_set) l1 →
  StronglySorted (ascending lt metric test_set) l2 →
  (∀ v, filter (λ model, ties_with lt metric test_set v model = true) l1 =
        filter (λ model, ties_with lt metric test_set v model = true) l2) →
  l1 = l2.
Proof.
  revert l2. induction l1 as [|x l1 IH]; intros l2 H1 H2 S1 S2 Hf.
  - destruct l2 as [|y l2]; [done|]. destruct (H2 y) as [vy Hy]; [by left|].
    specialize (Hf vy).
    by rewrite filter_nil, filter_cons_True in Hf by by apply ties_with_self.
  - destruct l2 as [|y l2].
    { destruct (H1 x) as [vx Hx]; [by left|]. specialize (Hf vx).
      by rewrite filter_nil, filter_cons_True in Hf by by apply ties_with_self. }
    assert (x = y) as <-.
    { apply (ascending_heads metric test_set x y l1 l2); try done.
      - apply H1. by left.
      - apply H2. by left. }
    f_equal. apply IH.
    + intros m Hm. apply H1. by right.
    + intros m Hm. apply H2. by right.
    + by apply StronglySorted_inv in S1 as [? _].
    + by apply StronglySorted_inv in S2 as [? _].
    + intros v. specialize (Hf v). rewrite !filter_cons in Hf.
      destruct (decide (ties_with lt metric test_set v x = true)); [|done].
      by injection Hf.
Qed.

(** X11.  The result of [sorted_by_metric] holds the models that have a score
    for the metric on the partition, each as often as it occurs in
    [models], in ascending order of the score; models with equal scores
    keep the order they have in [models]. *)
Theorem sorted_by_metric_ascending models test_set metric l :
  sorted_by_metric lt models test_set metric = inr l →
  l ≡ₚ filter (λ model, is_Some (score_of metric test_set model)) models ∧
  StronglySorted (ascending lt metric test_set) l ∧
  ∀ v, filter (λ model, ties_with lt metric test_set v model = true) l =
       filter (λ model, ties_with lt metric test_set v model = true) models.
Proof.
  intros Hl.
  destruct (sorted_by_metric_cases models test_set metric)
    as [(pre & model & post & e & _ & _ & _ & Hr)|(Hall & kl & Hr & Hm & Hs)];
    rewrite Hr in Hl; [done|]. injection Hl as <-.
  assert (Hs' : ∀ x, x ∈ sort_by_key lt kl →
                     score_of metric test_set x.2 = Some x.1).
  { intros x Hx. apply Hs. by rewrite <- (sort_by_key_perm kl). }
  split; [|split].
  - by rewrite sort_by_key_perm, Hm.
  - apply sorted_snd_ascending; [done|apply sort_by_key_sorted].
  - intros v. rewrite filter_ties_snd by done. rewrite sort_by_key_stable.
    rewrite <- (filter_ties_snd metric test_set v kl) by done. rewrite Hm.
    rewrite list_filter_filter. apply list_filter_iff. intros m.
    split; [tauto|]. intros Ht. split; [done|].
    unfold ties_with in Ht.
    destruct (score_of metric test_set m); [eauto|done].
Qed.

(** X12.  The order of the result is determined by the two properties of
    [sorted]: a list of models with scores that is in ascending order and
    keeps the models with equal scores in the order of [models] is the
    list that [sorted_by_metric] returns ([<] being a strict weak order on
    the scores, which leaves out NaN). *)
Theorem sorted_by_metric_unique models test_set metric l l' :
  sorted_by_metric lt models test_set metric = inr l →
  (∀ m, m ∈ l' → is_Some (score_of metric test_set m)) →
  StronglySorted (ascending lt metric test_set) l' →
  (∀ v, filter (λ model, ties_with lt metric test_set v model = true) l' =
        filter (λ model, ties_with lt metric test_set v model = true) models) →
  l' = l.
Proof.
  intros Hl Hscore Hsorted Hstable.
  destruct (sorted_by_metric_cases models test_set metric)
    as [(pre & model & post & e & _ & _ & _ & Hr)|(Hall & kl & Hr & Hm & Hs)];
    rewrite Hr in Hl; [done|]. injection Hl as <-.
  assert (Hs' : ∀ x, x ∈ sort_by_key lt kl →
                     score_of metric test_set x.2 = Some x.1).
  { intros x Hx. apply Hs. by rewrite <- (sort_by_key_perm kl). }
  apply (ascending_unique metric test_set); try done.
  - intros m (x & -> & Hx)%list_elem_of_fmap. rewrite (Hs' x Hx). by eexists.
  - apply sorted_snd_ascending; [done|apply sort_by_key_sorted].
  - intros v. rewrite Hstable.
    rewrite filter_ties_snd by done. rewrite sort_by_key_stable.
    rewrite <- (filter_ties_snd metric test_set v kl) by done. rewrite Hm.
    rewrite list_filter_filter. symmetry. apply list_filter_iff. intros m.
    split; [tauto|]. intros Ht. split; [done|].
    unfold ties_with in Ht.
    destruct (score_of metric test_set m); [eauto|done].
Qed.

(** X13.  The top model is the first model of [models] whose cross-validation
    score is the lowest: the models before it have a higher score or none,
    the models after it have no lower score.  As for the order of the
    result, [<] is taken to be a strict weak order on the scores, which
    leaves out NaN. *)
Theorem model_top_first_minimum models metric top :
  model_top lt models metric = inr top →
  ∃ pre post v,
    models = pre ++ top :: post ∧
    score_of metric "crossValidation" top = Some v ∧
    (∀ m v', m ∈ pre → score_of metric "crossValidation" m = Some v' →
             lt v v' = true) ∧
    (∀ m v', m ∈ post → score_of metric "crossValidation" m = Some v' →
             lt v' v = false).
Proof.
  unfold model_top. intros Ht.
  destruct (sorted_by_metric_cases models "crossValidation" metric)
    as [(pre & model & post & e & _ & _ & _ & Hr)|(Hall & kl & Hr & Hm & Hs)];
    rewrite Hr in Ht; [done|].
  destruct (sort_by_key lt kl) as [|x r] eqn:Hsort; [done|].
  simpl in Ht. injection Ht as <-.
  destruct (sort_by_key_head _ _ _ Hsort) as (kpre & kpost & -> & Hpre & Hpost).
  rewrite fmap_app, fmap_cons in Hm. symmetry in Hm.
  destruct (filter_split _ _ _ _ _ Hm) as (pre & post & -> & Hfpre & Hfpost).
  exists pre, post, x.1. split; [done|]. split; [|split].
  - apply Hs. apply elem_of_app. right. by left.
  - intros m v' Hin Hv'.
    assert (m ∈ snd <$> kpre) as Hk.
    { rewrite <- Hfpre. apply list_elem_of_filter. split; [by eexists|done]. }
    apply list_elem_of_fmap in Hk as (y & -> & Hy).
    rewrite (Hs y) in Hv' by (apply elem_of_app; by left). simplify_eq.
    by apply Hpre.
  - intros m v' Hin Hv'.
    assert (m ∈ snd <$> kpost) as Hk.
    { rewrite <- Hfpost. apply list_elem_of_filter. split; [by eexists|done]. }
    apply list_elem_of_fmap in Hk as (y & -> & Hy).
    rewrite (Hs y) in Hv' by (apply elem_of_app; right; by right). simplify_eq.
    by apply Hpost.
Qed.

(** X14.  The cell raises exactly in two cases.  Some model lacks the metric or
    the partition: the KeyError of the first such model is raised.  Or
    every model has the entry and all the scores are None (the list may be
    empty): [[0]] raises IndexError.  The scores are never compared with
    None. *)
Theorem model_top_raises models metric e :
  (model_top lt models metric = inl e ↔
   (e = IndexError ∧
    ∀ m, m ∈ models → get_score m metric "crossValidation" = inr None) ∨
   (∃ pre model post,
      models = pre ++ model :: post ∧
      (∀ m, m ∈ pre → ∃ v, get_score m metric "crossValidation" = inr v) ∧
      get_score model metric "crossValidation" = inl e)) ∧
  model_top lt models metric ≠ inl TypeError.
Proof.
  assert (Hto : ∀ e, model_top lt models metric = inl e →
    (e = IndexError ∧
     ∀ m, m ∈ models → get_score m metric "crossValidation" = inr None) ∨
    (∃ pre model post,
       models = pre ++ model :: post ∧
       (∀ m, m ∈ pre → ∃ v, get_score m metric "crossValidation" = inr v) ∧
       get_score model metric "crossValidation" = inl e)).
  { clear e. intros e. unfold model_top. intros Ht.
    destruct (sorted_by_metric_cases models "crossValidation" metric)
      as [(pre & model & post & e' & ? & ? & ? & Hr)|(Hall & kl & Hr & Hm & Hs)];
      rewrite Hr in Ht.
    - injection Ht as <-. right. by exists pre, model, post.
    - left. destruct (sort_by_key lt kl) as [|x r] eqn:Hsort; [|done].
      simpl in Ht. injection Ht as <-. split; [done|].
      pose proof (sort_by_key_perm kl) as Hp. rewrite Hsort in Hp.
      apply Permutation_nil_l in Hp. subst kl. simpl in Hm.
      intros m Hin. destruct (Hall m Hin) as [[v|] Hv]; [|done].
      assert (m ∈ filter (λ model, is_Some (score_of metric "crossValidation" model))
                    models) as Hf.
      { apply list_elem_of_filter. split; [|done].
        rewrite (score_of_get _ _ _ _ Hv). by eexists. }
      rewrite <- Hm in Hf. by apply elem_of_nil in Hf. }
  split; [split; [apply Hto|]|].
  - unfold model_top, sorted_by_metric.
    intros [[-> Hnone]|(pre & model & post & -> & Hpre & Hm)].
    + rewrite models_with_score_inr by eauto.
      assert (filter (λ model, is_Some (score_of metric "crossValidation" model))
                models = []) as ->; [|done].
      destruct (filter _ models) as [|x r] eqn:Hf; [done|].
      assert (x ∈ filter (λ model, is_Some (score_of metric "crossValidation" model))
                    models) as Hx by (rewrite Hf; by left).
      apply list_elem_of_filter in Hx as [[v Hv] Hx].
      by rewrite (score_of_get _ _ _ _ (Hnone x Hx)) in Hv.
    + by rewrite (models_with_score_inl _ _ _ _ _ _ Hpre Hm).
  - intros Ht. destruct (Hto _ Ht) as [[? _]|(pre & model & post & _ & _ & Hm)].
    + done.
    + unfold get_score in Hm. repeat case_match; done.
Qed.

End top_model.

Lemma Zltb_asym (a b : Z) : (a <? b) = true → (b <? a) = false.
Proof. intros H. apply Z.ltb_lt in H. apply Z.ltb_ge. lia. Qed.

Lemma Zltb_le_trans (a b c : Z) :
  (b <? a) = false → (c <? b) = false → (c <? a) = false.
Proof. rewrite !Z.ltb_ge. lia. Qed.

Lemma sorted_by_metric_ascending_witness :
  StronglySorted (TopModel.ascending Z.ltb "RMSE" "crossValidation")
    [TopModel.scored 2 "RMSE" (Some 3); TopModel.scored 4 "RMSE" (Some 3);
     TopModel.scored 0 "RMSE" (Some 7); TopModel.scored 3 "RMSE" (Some 7)].
Proof.
  apply (sorted_by_metric_ascending Z.ltb Zltb_asym Zltb_le_trans
           TopModel.sample_models "crossValidation" "RMSE").
  vm_compute. reflexivity.
Defined.

Lemma sorted_by_metric_unique_witness :
  [TopModel.scored 2 "RMSE" (Some 3); TopModel.scored 4 "RMSE" (Some 3);
   TopModel.scored 0 "RMSE" (Some 7); TopModel.scored 3 "RMSE" (Some 7)] =
  [TopModel.scored 2 "RMSE" (Some 3); TopModel.scored 4 "RMSE" (Some 3);
   TopModel.scored 0 "RMSE" (Some 7); TopModel.scored 3 "RMSE" (Some 7)].
Proof.
  apply (sorted_by_metric_unique Z.ltb Zltb_asym Zltb_le_trans
           TopModel.sample_models "crossValidation" "RMSE").
  - vm_compute. reflexivity.
  - intros m Hm. repeat (apply elem_of_cons in Hm as [->|Hm]; [by eexists|]).
    by apply elem_of_nil in Hm.
  - repeat constructor; intros va vb Ha Hb;
      vm_compute in Ha; vm_compute in Hb;
      injection Ha as <-; injection Hb as <-; reflexivity.
  - intros v. unfold TopModel.sample_models.
    assert (Hs : ∀ id (cv : option Z),
              TopModel.score_of "RMSE" "crossValidation"
                (TopModel.scored id "RMSE" cv) = cv).
    { intros id [cv|]; vm_compute; reflexivity. }
    rewrite !filter_cons, !filter_nil. unfold TopModel.ties_with.
    rewrite !Hs.
    destruct (Z.ltb_spec v 3), (Z.ltb_spec 3 v), (Z.ltb_spec v 7),
      (Z.ltb_spec 7 v); simpl; repeat case_decide; try done; lia.
Defined.

Lemma model_top_first_minimum_witness :
  ∃ pre post v,
    TopModel.sample_models = pre ++ TopModel.scored 2 "RMSE" (Some 3) :: post ∧
    TopModel.score_of "RMSE" "crossValidation"
      (TopModel.scored 2 "RMSE" (Some 3)) = Some v ∧
    (∀ m v', m ∈ pre →
       TopModel.score_of "RMSE" "crossValidation" m = Some v' →
       (v <? v') = true) ∧
    (∀ m v', m ∈ post →
       TopModel.score_of "RMSE" "crossValidation" m = Some v' →
       (v' <? v) = false).
Proof.
  apply (model_top_first_minimum Z.ltb Zltb_asym Zltb_le_trans
           TopModel.sample_models "RMSE").
  vm_compute. reflexivity.
Defined.

Lemma model_top_raises_witness :
  TopModel.model_top Z.ltb
    [TopModel.scored 0 "RMSE" (Some 7); TopModel.scored 1 "AUC" (Some 1)]
    "RMSE" = inl (TopModel.KeyError "RMSE") ∧
  TopModel.model_top Z.ltb [TopModel.scored 1 "RMSE" None] "RMSE"
    = inl TopModel.IndexError.
Proof.
  split.
  - apply (model_top_raises Z.ltb). right.
    exists [TopModel.scored 0 "RMSE" (Some 7)], (TopModel.scored 1 "AUC" (Some 1)), [].
    split; [reflexivity|]. split; [|vm_compute; reflexivity].
    intros m Hm. apply list_elem_of_singleton in Hm. subst m.
    exists (Some 7). vm_compute. reflexivity.
  - apply (model_top_raises Z.ltb). left. split; [reflexivity|].
    intros m Hm. apply list_elem_of_singleton in Hm. subst m.
    vm_compute. reflexivity.
Defined.

(** ** The article text *)

Section article.

Import Article.

Lemma append_nil_r (s : string) : s +:+ "" = s.
Proof.
  induction s as [|c s IH]; [done|].
  change (String c (s +:+ "") = String c s). by f_equal.
Qed.

Lemma append_assoc (s1 s2 s3 : string) :
  (s1 +:+ s2) +:+ s3 = s1 +:+ s2 +:+ s3.
Proof.
  induction s1 as [|c s1 IH]; [done|].
  change (String c ((s1 +:+ s2) +:+ s3) = String c (s1 +:+ s2 +:+ s3)).
  by f_equal.
Qed.

Lemma body_error_None k :
  body_error k = None ↔ ∃ body, has_body k body.
Proof.
  unfold body_error, has_body, getitem. split.
  - destruct k as [| | | | |members]; try done.
    destruct (members !! "articleBody") as [[]|] eqn:Hm; try done. eauto.
  - intros (body & members & -> & ->). done.
Qed.

Lemma loop_has_body text k body ks :
  has_body k body → loop text (k :: ks) = loop (text +:+ body) ks.
Proof. intros (members & -> & Hm). simpl. by rewrite Hm. Qed.

Lemma loop_body_error text k e ks :
  body_error k = Some e → loop text (k :: ks) = inl e.
Proof.
  unfold body_error. simpl. destruct (getitem k "articleBody") as [e'|v].
  - by intros [= ->].
  - destruct v; simpl; try done; by intros [= <-].
Qed.

Lemma loop_bodies text ks bodies :
  Forall2 has_body ks bodies →
  loop text ks = inr (text +:+ foldr String.append "" bodies).
Proof.
  intros H. revert text.
  induction H as [|k body ks bodies Hk _ IH]; intros text.
  { simpl. by rewrite append_nil_r. }
  rewrite (loop_has_body _ _ _ _ Hk), IH. simpl. by rewrite append_assoc.
Qed.

Lemma loop_cases (ks : list json) :
  (∃ bodies, Forall2 has_body ks bodies) ∨
  (∃ pre k post bodies e,
     ks = pre ++ k :: post ∧ Forall2 has_body pre bodies ∧
     body_error k = Some e).
Proof.
  induction ks as [|k ks IH].
  { left. exists []. constructor. }
  destruct (body_error k) as [e|] eqn:Hk.
  { right. exists [], k, ks, [], e. repeat split; [constructor|done]. }
  apply body_error_None in Hk as [body Hk].
  destruct IH as [[bodies H]|(pre & k' & post & bodies & e & -> & H & He)].
  - left. exists (body :: bodies). by constructor.
  - right. exists (k :: pre), k', post, (body :: bodies), e.
    repeat split; [by constructor|done].
Qed.

Lemma loop_first_error text pre k post bodies e :
  Forall2 has_body pre bodies → body_error k = Some e →
  loop text (pre ++ k :: post) = inl e.
Proof.
  intros H He. revert text.
  induction H as [|k' body pre bodies Hk _ IH]; intros text; simpl app.
  - by apply loop_body_error.
  - by rewrite (loop_has_body _ _ _ _ Hk).
Qed.

Lemma loop_inr text ks t :
  loop text ks = inr t →
  ∃ bodies, Forall2 has_body ks bodies ∧
            t = text +:+ foldr String.append "" bodies.
Proof.
  intros Ht.
  destruct (loop_cases ks)
    as [[bodies H]|(pre & k & post & bodies & e & -> & H & He)].
  - exists bodies. split; [done|].
    rewrite (loop_bodies _ _ _ H) in Ht. by injection Ht.
  - by rewrite (loop_first_error _ _ _ _ _ _ H He) in Ht.
Qed.

(** X15.  The cell yields a text exactly when the loaded value is a dict whose
    entry "liveBlogUpdate" is a list of dicts, each with a string under
    "articleBody": the text is then the concatenation of these strings in
    the order of the list.  The only other values the cell accepts under
    "liveBlogUpdate" are the empty string and the empty dict, on which the
    loop body never runs. *)
Theorem article_text_concatenates j t :
  article_text j = inr t ↔
  ∃ members updates,
    j = JObject members ∧ members !! "liveBlogUpdate" = Some updates ∧
    ((∃ items bodies,
        updates = JArray items ∧ Forall2 has_body items bodies ∧
        t = foldr String.append "" bodies) ∨
     (t = "" ∧ (updates = JString "" ∨ updates = JObject ∅))).
Proof.
  unfold article_text, getitem. split.
  - destruct j as [| | | | |members]; try done.
    destruct (members !! "liveBlogUpdate") as [updates|] eqn:Hm; [|done].
    intros Ht. exists members, updates. split; [done|]. split; [done|].
    destruct updates as [| | |s|items|m]; simpl in Ht; try done.
    + right. destruct s as [|c s]; simpl in Ht; [|done].
      injection Ht as <-. auto.
    + left. apply loop_inr in Ht as (bodies & H & ->). by exists items, bodies.
    + right. destruct (map_to_list m) as [|[key v] kvs] eqn:Hl; simpl in Ht.
      * injection Ht as <-. apply map_to_list_empty_iff in Hl as ->. auto.
      * done.
  - intros (members & updates & -> & -> & [(items & bodies & -> & H & ->)|[-> [-> | ->]]]).
    + simpl. by rewrite (loop_bodies _ _ _ H).
    + done.
    + simpl. by rewrite map_to_list_empty.
Qed.

(** X16.  The loop stops at the first update that is not a dict with a string
    under "articleBody" and raises what the body raises on it: KeyError
    if it is a dict without that key, TypeError otherwise.  The updates
    after it are not looked at. *)
Theorem first_bad_update_raises members pre k post bodies e :
  members !! "liveBlogUpdate" = Some (JArray (pre ++ k :: post)) →
  Forall2 has_body pre bodies →
  body_error k = Some e →
  article_text (JObject members) = inl e ∧
  (e = KeyError "articleBody" ∧ (∃ m, k = JObject m ∧ m !! "articleBody" = None) ∨
   e = TypeError ∧ ∀ m, k = JObject m → m !! "articleBody" ≠ None).
Proof.
  intros Hm Hpre He. split.
  - unfold article_text. simpl. rewrite Hm. simpl.
    by apply loop_first_error with bodies.
  - unfold body_error, getitem in He.
    destruct k as [| | | | |m]; try (right; by simplify_eq).
    destruct (m !! "articleBody") as [v|] eqn:Hv.
    + right. split; [by destruct v; simplify_eq|]. intros m' [= <-]. by rewrite Hv.
    + left. simplify_eq. eauto.
Qed.

(** X17.  Whatever value is loaded, the cell either yields a text or raises one
    of three exceptions. *)
Theorem article_text_errors j e :
  article_text j = inl e →
  e = TypeError ∨ e = KeyError "liveBlogUpdate" ∨ e = KeyError "articleBody".
Proof.
  unfold article_text, getitem.
  destruct j as [| | | | |members]; try (intros [= <-]; by left).
  destruct (members !! "liveBlogUpdate") as [updates|]; [|intros [= <-]; auto].
  destruct (iterate updates) as [e'|ks] eqn:Hi.
  { intros [= <-]. left. destruct updates; simpl in Hi; by simplify_eq. }
  intros Hl.
  destruct (loop_cases ks)
    as [[bodies H]|(pre & k & post & bodies & e' & -> & H & He)].
  - by rewrite (loop_bodies _ _ _ H) in Hl.
  - rewrite (loop_first_error _ _ _ _ _ _ H He) in Hl. injection Hl as <-.
    unfold body_error, getitem in He.
    destruct k as [| | | | |m]; try (left; by simplify_eq).
    destruct (m !! "articleBody") as [v|]; [left; by destruct v; simplify_eq|].
    right. right. by simplify_eq.
Qed.

End article.

Lemma article_text_concatenates_witness :
  Article.article_text
    (Article.JObject
       {[ "liveBlogUpdate" :=
            Article.JArray [Article.update "One. "; Article.update "Two." ] ]})
  = inr "One. Two.".
Proof.
  apply (proj2 (article_text_concatenates _ _)).
  eexists _, _. split; [reflexivity|]. split; [vm_compute; reflexivity|].
  left. exists [Article.update "One. "; Article.update "Two."], ["One. "; "Two."].
  split; [reflexivity|]. split; [|reflexivity].
  repeat constructor; eexists; (split; [reflexivity|vm_compute; reflexivity]).
Defined.

Lemma first_bad_update_raises_witness :
  Article.article_text
    (Article.JObject
       {[ "liveBlogUpdate" :=
            Article.JArray [Article.update "One. ";
                            Article.JObject {[ "headline" := Article.JString "h" ]};
                            Article.JNull] ]})
  = inl (Article.KeyError "articleBody").
Proof.
  apply (first_bad_update_raises _ [Article.update "One. "]
           (Article.JObject {[ "headline" := Article.JString "h" ]})
           [Article.JNull] ["One. "]).
  - vm_compute. reflexivity.
  - repeat constructor. eexists. split; [reflexivity|vm_compute; reflexivity].
  - vm_compute. reflexivity.
Defined.

Lemma article_text_errors_witness :
  Article.TypeError = Article.TypeError ∨
  Article.TypeError = Article.KeyError "liveBlogUpdate" ∨
  Article.TypeError = Article.KeyError "articleBody".
Proof.
  apply (article_text_errors (Article.JArray [])). reflexivity.
Defined.
